(** * codexRSS: the daily-digest generator [src/generate_site.py]

    A shallow embedding of the text pipeline of [generate_site.py]
    (MIME text extraction, whitespace normalisation, the Gemini
    translate-and-summarise call with its JSON recovery, the image prompt
    and the per-message loop of [main]) together with the properties the
    specification states about it.

    Conventions.
    - A Python [str] is a list of Unicode code points ([char := N]), so
      that [len], slicing and [ord] mean what they mean in Python.
    - A Python [bytes] is a list of [N] below 256.
    - A call that can raise returns a [result]; the exception classes that
      the program can meet are the constructors of [exn].
    - Effects of [main] (files created, requests sent to the two Gemini
      collaborators) are threaded through a [World].
    - The replies of the collaborators are given already decoded, as typed
      records; transport failures and file-system failures are outside the
      model.
    - [html.unescape], [email.utils.parseaddr] and [str.lower] are taken as
      an interface ([PyLib]); [json.loads] belongs to it too.  The two that
      can raise ([html.unescape], [json.loads]) return a [result], so that
      whatever they raise -- [ValueError] on a number of more than 4300
      digits, [RecursionError] on nesting too deep for the interpreter --
      goes where the program lets it go.  A model of CPython's decoder
      ([JSON.loads]) instantiates [json.loads] when the program is run on
      concrete text. *)

From Stdlib Require Import List ZArith NArith Lia Bool String Ascii DecimalString.
From stdpp Require Import base gmap.
Import ListNotations.

Set Warnings "-register-all".
Local Open Scope N_scope.

(* ===================================================================== *)
(** * Python values: str, bytes, exceptions                               *)
(* ===================================================================== *)

Abbreviation char := N (only parsing).
Abbreviation str := (list N) (only parsing).
Abbreviation bytes := (list N) (only parsing).

(** [u "abc"] is the Python literal ["abc"] for ASCII text. *)
Definition u (s : string) : str := List.map N_of_ascii (list_ascii_of_string s).

Definition str_eqb (a b : str) : bool := bool_decide (a = b).

(** Truthiness of a string: [if s], [s or d]. *)
Definition truthy (s : str) : bool :=
  match s with [] => false | _ :: _ => true end.

Definition str_or (a b : str) : str := if truthy a then a else b.

(** The exception classes the program can raise or meet. *)
Inductive exn : Type :=
| SystemExit (msg : str)
| JSONDecodeError
| ValueError
| BinasciiError
| AttributeError
| TypeError
| IndexError
| RecursionError.

Inductive result (A : Type) : Type :=
| Ok (a : A)
| Raise (e : exn).
Arguments Ok {A} a.
Arguments Raise {A} e.

#[export] Instance result_ret : MRet result := fun _ a => Ok a.
#[export] Instance result_bind : MBind result := fun _ _ k m =>
  match m with Ok a => k a | Raise e => Raise e end.

(** [str.isspace] for one character; the same class is [\s] of [re] on a
    [str] pattern and the class [str.strip()] removes. *)
Definition isspace (c : char) : bool :=
  ((9 <=? c) && (c <=? 13)) || ((28 <=? c) && (c <=? 32))
  || (c =? 0x85) || (c =? 0xa0) || (c =? 0x1680)
  || ((0x2000 <=? c) && (c <=? 0x200a))
  || (c =? 0x2028) || (c =? 0x2029) || (c =? 0x202f) || (c =? 0x205f)
  || (c =? 0x3000).

Definition SPACE : char := 32.
Definition NEWLINE : char := 10.

Fixpoint dropwhile {A} (p : A -> bool) (l : list A) : list A :=
  match l with
  | [] => []
  | x :: r => if p x then dropwhile p r else l
  end.

Fixpoint takewhile {A} (p : A -> bool) (l : list A) : list A :=
  match l with
  | [] => []
  | x :: r => if p x then x :: takewhile p r else []
  end.

Definition lstrip (s : str) : str := dropwhile isspace s.
Definition rstrip (s : str) : str := rev (dropwhile isspace (rev s)).
(** [s.strip()] *)
Definition strip (s : str) : str := rstrip (lstrip s).

(** [s[:k]] for an [int] k: a negative k counts from the end. *)
Definition slice_to (s : str) (k : Z) : str :=
  if (0 <=? k)%Z then firstn (Z.to_nat k) s
  else firstn (Z.to_nat (Z.of_nat (length s) + k)) s.

Definition len (s : str) : Z := Z.of_nat (length s).

(* ===================================================================== *)
(** * Regular-expression substitution                                     *)
(* ===================================================================== *)

(** [re.sub(p, repl, s)] for a pattern that never matches the empty string.
    [m t] is the length of the match of the pattern that starts at the
    head of [t], if there is one.  The scan goes left to right; after a
    match of length [S n] the next [n] characters belong to the match and
    are skipped. *)
Fixpoint re_sub_from (m : str -> option nat) (repl : str) (skip : nat) (s : str) : str :=
  match s with
  | [] => []
  | c :: r =>
      match skip with
      | S k => re_sub_from m repl k r
      | O =>
          match m s with
          | Some (S n) => repl ++ re_sub_from m repl n r
          | _ => c :: re_sub_from m repl 0 r
          end
      end
  end.

Definition re_sub (m : str -> option nat) (repl : str) (s : str) : str :=
  re_sub_from m repl 0 s.

(** [\s+]: the whole run of whitespace at the head (greedy). *)
Definition match_ws_plus (s : str) : option nat :=
  match length (takewhile isspace s) with
  | O => None
  | n => Some n
  end.

(* ===================================================================== *)
(** * normalize_text                                                      *)
(* ===================================================================== *)

(** The literal ["\n\n[內容已截斷]"]. *)
Definition TRUNCATION_MARKER : str :=
  [10; 10; 91; 0x5167; 0x5bb9; 0x5df2; 0x622a; 0x65b7; 93].

(** [re.sub(r"\s+", " ", text).strip()], the first line of
    [normalize_text] (and the summary clean-up of [build_image_prompt]). *)
Definition collapse_ws (text : str) : str :=
  strip (re_sub match_ws_plus [SPACE] text).

Definition normalize_text (text : str) (max_chars : Z) : str :=
  let text := collapse_ws text in
  if (len text >? max_chars)%Z then slice_to text max_chars ++ TRUNCATION_MARKER
  else text.

Definition DEFAULT_MAX_CHARS : Z := 12000.

(* ===================================================================== *)
(** * build_image_prompt                                                  *)
(* ===================================================================== *)

(** [re.sub] of a pattern anchored with [^] (no MULTILINE flag): the
    only candidate match starts at the head of the string. *)
Definition re_sub_anchored (m : str -> option nat) (repl : str) (s : str) : str :=
  match m s with
  | Some n => repl ++ skipn n s
  | None => s
  end.

(** The classes [[\[【(]] and [[\]】)]] of the subject pattern. *)
Definition is_open (c : char) : bool := (c =? 91) || (c =? 0x3010) || (c =? 40).
Definition is_close (c : char) : bool := (c =? 93) || (c =? 0x3011) || (c =? 41).

(** [.*?[\]】)]]: the lazy run stops at the first closing character;
    [.] does not match a newline.  The result is the number of characters
    consumed, closing character included. *)
Fixpoint lazy_to_close (s : str) : option nat :=
  match s with
  | [] => None
  | c :: r =>
      if is_close c then Some 1%nat
      else if c =? NEWLINE then None
      else option_map S (lazy_to_close r)
  end.

(** [^[\[【(].*?[\]】)]\s*] *)
Definition match_subject_tag (s : str) : option nat :=
  match s with
  | [] => None
  | c :: r =>
      if is_open c then
        match lazy_to_close r with
        | Some n => Some (S n + length (takewhile isspace (skipn n r)))%nat
        | None => None
        end
      else None
  end.

Definition clean_subject (subject : str) : str :=
  strip (re_sub_anchored match_subject_tag [] subject).

Definition clean_summary (summary : str) : str :=
  let clean_summary := collapse_ws summary in
  if (len clean_summary >? 400)%Z then slice_to clean_summary 400 else clean_summary.

Definition PROMPT_STYLE : str :=
  u "Minimal, soft, calm Apple News-style illustration. "
  ++ u "Abstract, gentle gradients, no text, no logos, no watermark, no people. ".

Definition build_image_prompt (subject summary : str) : str :=
  PROMPT_STYLE
  ++ u "Inspired by: " ++ clean_subject subject ++ u ". "
  ++ u "Summary: " ++ clean_summary summary.

(** [s.startswith(t)] and, below, [t in s]. *)
Fixpoint is_prefix (t s : str) : bool :=
  match t, s with
  | [], _ => true
  | _ :: _, [] => false
  | a :: t', b :: s' => (a =? b) && is_prefix t' s'
  end.

Fixpoint contains (t s : str) : bool :=
  is_prefix t s || match s with [] => false | _ :: r => contains t r end.

(** The subject ["【Tech】Big news today"] and its tag ["【Tech】"]. *)
Definition TECH_TAG : str := [0x3010] ++ u "Tech" ++ [0x3011].
Definition TECH_SUBJECT : str := TECH_TAG ++ u "Big news today".

(** A character the lazy [.*?] of the subject pattern runs over: not a
    closing character and not a newline. *)
Definition tag_body_char (c : char) : bool := negb (is_close c) && negb (c =? NEWLINE).

(** A subject on which the tag pattern cannot match: it does not start with
    an opening character, or its first line has no closing character after
    the first position. *)
Definition tagless (s : str) : bool :=
  match s with
  | [] => true
  | o :: r =>
      negb (is_open o)
      || negb (existsb is_close (takewhile (fun c => negb (c =? NEWLINE)) r))
  end.

Definition prompt_of (subject_part summary_part : str) : str :=
  PROMPT_STYLE ++ u "Inspired by: " ++ subject_part ++ u ". "
  ++ u "Summary: " ++ summary_part.

(* ===================================================================== *)
(** * decode_body: base64.urlsafe_b64decode and bytes.decode              *)
(* ===================================================================== *)

(** [binascii]'s table [table_a2b_base64]: the 6-bit value of a character
    of the standard alphabet, [None] for every other byte. *)
Definition b64_value (c : N) : option N :=
  if (65 <=? c) && (c <=? 90) then Some (c - 65)
  else if (97 <=? c) && (c <=? 122) then Some (c - 97 + 26)
  else if (48 <=? c) && (c <=? 57) then Some (c - 48 + 52)
  else if c =? 43 then Some 62
  else if c =? 47 then Some 63
  else None.

Definition BASE64_PAD : N := 61.

(** The loop of [binascii.a2b_base64] with [strict_mode] off.  [quad_pos]
    is the position inside the current group of four characters,
    [leftchar] the bits left over from the previous character and [pads]
    the padding characters seen since the last data character.  Bytes
    outside the alphabet are skipped; a padding character that completes a
    group ends the decoding; ending in the middle of a group raises
    [binascii.Error]. *)
Fixpoint a2b_base64_loop (s : bytes) (quad_pos leftchar pads : N) (out : bytes)
  : result bytes :=
  match s with
  | [] => if quad_pos =? 0 then Ok out else Raise BinasciiError
  | this_ch :: rest =>
      if this_ch =? BASE64_PAD then
        if (2 <=? quad_pos) && (4 <=? quad_pos + (pads + 1)) then Ok out
        else a2b_base64_loop rest quad_pos leftchar
               (if 2 <=? quad_pos then pads + 1 else pads) out
      else
        match b64_value this_ch with
        | None => a2b_base64_loop rest quad_pos leftchar pads out
        | Some v =>
            if quad_pos =? 0 then a2b_base64_loop rest 1 v 0 out
            else if quad_pos =? 1 then
              a2b_base64_loop rest 2 (N.land v 0x0f) 0
                (out ++ [N.land (N.lor (N.shiftl leftchar 2) (N.shiftr v 4)) 0xff])
            else if quad_pos =? 2 then
              a2b_base64_loop rest 3 (N.land v 0x03) 0
                (out ++ [N.land (N.lor (N.shiftl leftchar 4) (N.shiftr v 2)) 0xff])
            else
              a2b_base64_loop rest 0 0 0
                (out ++ [N.land (N.lor (N.shiftl leftchar 6) v) 0xff])
        end
  end.

Definition a2b_base64 (s : bytes) : result bytes := a2b_base64_loop s 0 0 0 [].

(** [_urlsafe_decode_translation]: [-] becomes [+] and [_] becomes [/]. *)
Definition urlsafe_translate (c : N) : N :=
  if c =? 45 then 43 else if c =? 95 then 47 else c.

Definition is_ascii (c : char) : bool := c <? 128.

(** [base64.urlsafe_b64decode] of a [str]: the string is first encoded as
    ASCII, which raises [ValueError] on any other character. *)
Definition urlsafe_b64decode (s : str) : result bytes :=
  if forallb is_ascii s then a2b_base64 (List.map urlsafe_translate s)
  else Raise ValueError.

Definition is_continuation (b : N) : bool := (0x80 <=? b) && (b <? 0xC0).

(** [bytes.decode("utf-8", errors="ignore")]: CPython's decoder, where each
    error (invalid start byte, invalid continuation byte after one, two or
    three bytes, unexpected end of data) drops the bytes it covers. *)
Fixpoint utf8_decode_ignore (s : bytes) : str :=
  match s with
  | [] => []
  | ch :: r1 =>
      if ch <? 0x80 then ch :: utf8_decode_ignore r1
      else if ch <? 0xE0 then
        if ch <? 0xC2 then utf8_decode_ignore r1
        else
          match r1 with
          | [] => []
          | ch2 :: r2 =>
              if negb (is_continuation ch2) then utf8_decode_ignore r1
              else (N.shiftl ch 6 + ch2 - (N.shiftl 0xC0 6 + 0x80))
                   :: utf8_decode_ignore r2
          end
      else if ch <? 0xF0 then
        match r1 with
        | [] => []
        | ch2 :: r2 =>
            if negb (is_continuation ch2)
               || (if ch2 <? 0xA0 then ch =? 0xE0 else ch =? 0xED)
            then utf8_decode_ignore r1
            else
              match r2 with
              | [] => []
              | ch3 :: r3 =>
                  if negb (is_continuation ch3) then utf8_decode_ignore r2
                  else (N.shiftl ch 12 + N.shiftl ch2 6 + ch3
                        - (N.shiftl 0xE0 12 + N.shiftl 0x80 6 + 0x80))
                       :: utf8_decode_ignore r3
              end
        end
      else if ch <? 0xF5 then
        match r1 with
        | [] => []
        | ch2 :: r2 =>
            if negb (is_continuation ch2)
               || (if ch2 <? 0x90 then ch =? 0xF0 else ch =? 0xF4)
            then utf8_decode_ignore r1
            else
              match r2 with
              | [] => []
              | ch3 :: r3 =>
                  if negb (is_continuation ch3) then utf8_decode_ignore r2
                  else
                    match r3 with
                    | [] => []
                    | ch4 :: r4 =>
                        if negb (is_continuation ch4) then utf8_decode_ignore r3
                        else (N.shiftl ch 18 + N.shiftl ch2 12 + N.shiftl ch3 6 + ch4
                              - (N.shiftl 0xF0 18 + N.shiftl 0x80 12
                                 + N.shiftl 0x80 6 + 0x80))
                             :: utf8_decode_ignore r4
                    end
              end
        end
      else utf8_decode_ignore r1
  end.

Definition decode_body (data : str) : result str :=
  if negb (truthy data) then Ok []
  else
    let padding := repeat BASE64_PAD (Z.to_nat ((- len data) mod 4)) in
    b ← urlsafe_b64decode (data ++ padding);
    Ok (utf8_decode_ignore b).

(** The characters of the URL-safe base64 alphabet. *)
Definition is_b64url_char (c : char) : bool :=
  ((65 <=? c) && (c <=? 90)) || ((97 <=? c) && (c <=? 122))
  || ((48 <=? c) && (c <=? 57)) || (c =? 45) || (c =? 95).

(* ===================================================================== *)
(** * Library functions taken as an interface                             *)
(* ===================================================================== *)

(** A decoded JSON document, the value [json.loads] returns: [None],
    [bool], a number (kept as its lexeme), [str], [list] or [dict] (the
    pairs in document order; a later pair for the same key overrides an
    earlier one). *)
Inductive json : Type :=
| JNull
| JBool (b : bool)
| JNum (lexeme : str)
| JStr (s : str)
| JArr (items : list json)
| JObj (pairs : list (str * json)).

(** Functions of the Python standard library that the program calls and
    whose tables are not part of the repository. *)
Class PyLib : Type := {
  (** [html.unescape]; it raises [ValueError] on a decimal character
      reference of more than 4300 digits *)
  html_unescape : str -> result str;
  (** [json.loads]; it raises [json.JSONDecodeError] on text that is not a
      JSON document, and can raise other exceptions: [ValueError] on an
      integer of more than 4300 digits, [RecursionError] on nesting too
      deep *)
  json_loads : str -> result json;
  (** [email.utils.parseaddr] *)
  parseaddr : str -> str * str;
  (** [str.lower] *)
  str_lower : str -> str;
}.

(* ===================================================================== *)
(** * json.loads                                                          *)
(* ===================================================================== *)

(** The decoder of CPython's [json] module ([JSONDecoder.decode] over the
    C scanner, [strict] mode), used as the library's [json.loads] when the
    model is run on concrete text.  Numbers are kept as their lexemes; an
    integer of more than 4300 digits is refused as the interpreter refuses
    it.  The interpreter's recursion limit, which depends on the depth of
    the call stack, is not modelled: the decoder is exact on documents
    nested less deep than that limit allows. *)
Module JSON.

(** The outcome of a scan: a value and the text after it, text that is
    not JSON ([JSONDecodeError]), an integer of more than 4300 digits
    ([ValueError]), or fuel exhausted. *)
Inductive parsed (A : Type) : Type :=
| Parsed (a : A) (rest : str)
| Malformed
| Overlong
| OutOfFuel.
Arguments Parsed {A} a rest.
Arguments Malformed {A}.
Arguments Overlong {A}.
Arguments OutOfFuel {A}.

(** [IS_WHITESPACE]: space, tab, newline, carriage return. *)
Definition is_ws (c : char) : bool := (c =? 32) || (c =? 9) || (c =? 10) || (c =? 13).

Definition skip_ws (s : str) : str := dropwhile is_ws s.

Definition is_digit (c : char) : bool := (48 <=? c) && (c <=? 57).

Definition hex_value (c : char) : option N :=
  if (48 <=? c) && (c <=? 57) then Some (c - 48)
  else if (97 <=? c) && (c <=? 102) then Some (c - 97 + 10)
  else if (65 <=? c) && (c <=? 70) then Some (c - 65 + 10)
  else None.

(** Four hexadecimal digits of a [\uXXXX] escape. *)
Definition hex4 (a b c d : char) : option N :=
  match hex_value a, hex_value b, hex_value c, hex_value d with
  | Some x, Some y, Some z, Some w => Some (((x * 16 + y) * 16 + z) * 16 + w)
  | _, _, _, _ => None
  end.

Definition is_high_surrogate (c : N) : bool := (0xD800 <=? c) && (c <=? 0xDBFF).
Definition is_low_surrogate (c : N) : bool := (0xDC00 <=? c) && (c <=? 0xDFFF).
Definition join_surrogates (hi lo : N) : N :=
  0x10000 + (N.shiftl (N.land hi 0x03FF) 10) + N.land lo 0x03FF.

Definition simple_escape (c : char) : option char :=
  if c =? 34 then Some 34
  else if c =? 92 then Some 92
  else if c =? 47 then Some 47
  else if c =? 98 then Some 8
  else if c =? 102 then Some 12
  else if c =? 110 then Some 10
  else if c =? 114 then Some 13
  else if c =? 116 then Some 9
  else None.

(** [scanstring] from just after the opening quote: the decoded string and
    the text after the closing quote. *)
Fixpoint scanstring (s : str) : option (str * str) :=
  match s with
  | [] => None
  | c :: r =>
      if c =? 34 then Some ([], r)
      else if c =? 92 then
        match r with
        | [] => None
        | e :: r1 =>
            if e =? 117 then
              match r1 with
              | a :: b :: c' :: d :: r5 =>
                  match hex4 a b c' d, r5 with
                  | Some cp, _ :: _ =>
                      let lone := match scanstring r5 with
                                  | Some (v, rest) => Some (cp :: v, rest)
                                  | None => None
                                  end in
                      if is_high_surrogate cp then
                        match r5 with
                        | bs :: uu :: a2 :: b2 :: c2 :: d2 :: r11 =>
                            match r11, hex4 a2 b2 c2 d2 with
                            | _ :: _, Some lo =>
                                if (bs =? 92) && (uu =? 117) && is_low_surrogate lo then
                                  match scanstring r11 with
                                  | Some (v, rest) => Some (join_surrogates cp lo :: v, rest)
                                  | None => None
                                  end
                                else lone
                            | _, _ => lone
                            end
                        | _ => lone
                        end
                      else lone
                  | _, _ => None
                  end
              | _ => None
              end
            else
              match simple_escape e with
              | Some ch =>
                  match scanstring r1 with
                  | Some (v, rest) => Some (ch :: v, rest)
                  | None => None
                  end
              | None => None
              end
        end
      else if c <=? 0x1f then None
      else
        match scanstring r with
        | Some (v, rest) => Some (c :: v, rest)
        | None => None
        end
  end.

(** [s] without the prefix [lit], if it starts with it. *)
Fixpoint after (lit s : str) : option str :=
  match lit, s with
  | [], _ => Some s
  | _ :: _, [] => None
  | a :: lit', b :: s' => if a =? b then after lit' s' else None
  end.

(** [_match_number]: an optional sign, an integer part without leading
    zeros, an optional fraction and an optional exponent, each taken only
    when complete.  Returns the number of characters of the lexeme. *)
Definition digits (s : str) : nat := length (takewhile is_digit s).

Definition match_number (s : str) : option nat :=
  let sign := match s with c :: _ => if c =? 45 then 1%nat else 0%nat | [] => 0%nat end in
  let s1 := skipn sign s in
  match s1 with
  | [] => None
  | c :: r =>
      let int_len :=
        if (49 <=? c) && (c <=? 57) then Some (S (digits r))
        else if c =? 48 then Some 1%nat
        else None in
      match int_len with
      | None => None
      | Some n =>
          let s2 := skipn n s1 in
          let frac :=
            match s2 with
            | dot :: d :: r2 =>
                if (dot =? 46) && is_digit d then (2 + digits r2)%nat else 0%nat
            | _ => 0%nat
            end in
          let s3 := skipn frac s2 in
          let exp :=
            match s3 with
            | e :: r3 =>
                if (e =? 101) || (e =? 69) then
                  let sg := match r3 with
                            | x :: _ :: _ => if (x =? 45) || (x =? 43) then 1%nat else 0%nat
                            | _ => 0%nat
                            end in
                  match digits (skipn sg r3) with
                  | O => 0%nat
                  | k => (1 + sg + k)%nat
                  end
                else 0%nat
            | [] => 0%nat
            end in
          Some (sign + n + frac + exp)%nat
      end
  end.

(** A lexeme without fraction and exponent is converted by
    [PyLong_FromString], which raises [ValueError] when it has more than
    [sys.int_max_str_digits] (4300) digits; the sign does not count. *)
Definition is_integer_lexeme (lexeme : str) : bool :=
  forallb (fun c => is_digit c || (c =? 45)) lexeme.

Definition overlong (lexeme : str) : bool :=
  is_integer_lexeme lexeme && (4300 <? N.of_nat (length (List.filter is_digit lexeme))).

(** [scan_once] with the two loops of [_parse_object] and [_parse_array].
    [fuel] bounds the nesting and the number of members; twice the length
    of the text and one more is always enough ([scan_once_fuel]). *)
Fixpoint scan_once (fuel : nat) (s : str) : parsed json :=
  match fuel with
  | O => OutOfFuel
  | S fuel' =>
      match s with
      | [] => Malformed
      | c :: r =>
          if c =? 34 then
            match scanstring r with
            | Some (v, rest) => Parsed (JStr v) rest
            | None => Malformed
            end
          else if c =? 123 then
            match skip_ws r with
            | [] => Malformed
            | x :: rest => if x =? 125 then Parsed (JObj []) rest
                           else parse_members fuel' (x :: rest) []
            end
          else if c =? 91 then
            match skip_ws r with
            | [] => Malformed
            | x :: rest => if x =? 93 then Parsed (JArr []) rest
                           else parse_items fuel' (x :: rest) []
            end
          else
            match after (u "null") s, after (u "true") s, after (u "false") s with
            | Some rest, _, _ => Parsed JNull rest
            | _, Some rest, _ => Parsed (JBool true) rest
            | _, _, Some rest => Parsed (JBool false) rest
            | None, None, None =>
                match after (u "NaN") s, after (u "Infinity") s, after (u "-Infinity") s with
                | Some rest, _, _ => Parsed (JNum (u "NaN")) rest
                | _, Some rest, _ => Parsed (JNum (u "Infinity")) rest
                | _, _, Some rest => Parsed (JNum (u "-Infinity")) rest
                | None, None, None =>
                    match match_number s with
                    | Some n =>
                        if overlong (firstn n s) then Overlong
                        else Parsed (JNum (firstn n s)) (skipn n s)
                    | None => Malformed
                    end
                end
            end
      end
  end
with parse_members (fuel : nat) (s : str) (acc : list (str * json)) : parsed json :=
  match fuel with
  | O => OutOfFuel
  | S fuel' =>
      match s with
      | [] => Malformed
      | q :: r =>
          if q =? 34 then
            match scanstring r with
            | None => Malformed
            | Some (key, r1) =>
                match skip_ws r1 with
                | [] => Malformed
                | colon :: r2 =>
                    if colon =? 58 then
                      match scan_once fuel' (skip_ws r2) with
                      | Parsed val r3 =>
                          match skip_ws r3 with
                          | [] => Malformed
                          | x :: r4 =>
                              if x =? 125 then Parsed (JObj (acc ++ [(key, val)])) r4
                              else if x =? 44 then
                                parse_members fuel' (skip_ws r4) (acc ++ [(key, val)])
                              else Malformed
                          end
                      | Malformed => Malformed
                      | Overlong => Overlong
                      | OutOfFuel => OutOfFuel
                      end
                    else Malformed
                end
            end
          else Malformed
      end
  end
with parse_items (fuel : nat) (s : str) (acc : list json) : parsed json :=
  match fuel with
  | O => OutOfFuel
  | S fuel' =>
      match scan_once fuel' s with
      | Parsed val r1 =>
          match skip_ws r1 with
          | [] => Malformed
          | x :: r2 =>
              if x =? 93 then Parsed (JArr (acc ++ [val])) r2
              else if x =? 44 then parse_items fuel' (skip_ws r2) (acc ++ [val])
              else Malformed
          end
      | Malformed => Malformed
      | Overlong => Overlong
      | OutOfFuel => OutOfFuel
      end
  end.

(** [json.loads(s)] for a [str]: a leading BOM is refused, whitespace is
    allowed round the one value, and anything after it is "Extra data".
    The fuel given is never exhausted ([scan_once_fuel]). *)
Definition loads (s : str) : result json :=
  match s with
  | c :: _ => if c =? 0xFEFF then Raise JSONDecodeError else
      match scan_once (2 * length s + 1) (skip_ws s) with
      | Parsed v rest =>
          match skip_ws rest with [] => Ok v | _ :: _ => Raise JSONDecodeError end
      | Overlong => Raise ValueError
      | Malformed | OutOfFuel => Raise JSONDecodeError
      end
  | [] => Raise JSONDecodeError
  end.

End JSON.

(* ===================================================================== *)
(** * clean_html_to_text                                                  *)
(* ===================================================================== *)

(** One pattern character against one text character under [re.I]: an
    ASCII letter matches both its cases, and [i], [s], [k] also match the
    characters that case-fold to them (U+0130, U+0131, U+017F, U+212A). *)
Definition ci_eq (p c : char) : bool :=
  (c =? p)
  || ((97 <=? p) && (p <=? 122) && (c =? p - 32))
  || ((p =? 105) && ((c =? 0x130) || (c =? 0x131)))
  || ((p =? 115) && (c =? 0x17f))
  || ((p =? 107) && (c =? 0x212a)).

Fixpoint ci_prefix (pat s : str) : bool :=
  match pat, s with
  | [], _ => true
  | _ :: _, [] => false
  | p :: pat', c :: s' => ci_eq p c && ci_prefix pat' s'
  end.

(** Index of the first case-insensitive occurrence of [pat] in [s]. *)
Fixpoint find_ci (pat s : str) : option nat :=
  if ci_prefix pat s then Some 0%nat
  else match s with
       | [] => None
       | _ :: r => option_map S (find_ci pat r)
       end.

(** [<script.*?>.*?</script>] and [<style.*?>.*?</style>] under
    [re.S | re.I]: the opening word, lazily up to the first [>], lazily up
    to the first closing tag after it. *)
Definition match_element (open_tag close_tag : str) (s : str) : option nat :=
  if ci_prefix open_tag s then
    let r := skipn (length open_tag) s in
    match find_ci [62] r with
    | None => None
    | Some j =>
        match find_ci close_tag (skipn (S j) r) with
        | None => None
        | Some k => Some (length open_tag + S j + k + length close_tag)%nat
        end
    end
  else None.

(** [<[^>]+>] *)
Definition match_any_tag (s : str) : option nat :=
  match s with
  | [] => None
  | c :: r =>
      if c =? 60 then
        let n := length (takewhile (fun x => negb (x =? 62)) r) in
        match n, skipn n r with
        | S _, _ :: _ => Some (n + 2)%nat
        | _, _ => None
        end
      else None
  end.

(** The three tag-removing substitutions of [clean_html_to_text]. *)
Definition strip_markup (raw_html : str) : str :=
  let cleaned := re_sub (match_element (u "<script") (u "</script>")) [SPACE] raw_html in
  let cleaned := re_sub (match_element (u "<style") (u "</style>")) [SPACE] cleaned in
  re_sub match_any_tag [SPACE] cleaned.

Section MimeText.
Context `{PyLib}.

Definition clean_html_to_text (raw_html : str) : result str :=
  let cleaned := strip_markup raw_html in
  cleaned ← html_unescape cleaned;
  let cleaned := re_sub match_ws_plus [SPACE] cleaned in
  Ok (strip cleaned).

(* ===================================================================== *)
(** * extract_text_from_payload                                           *)
(* ===================================================================== *)

(** A node of the MIME tree of a Gmail message: its [mimeType], the
    [data] of its [body] and its [parts], each with the default the
    program gives it when the key is absent (the empty string, the empty
    string, the empty list). *)
Inductive Part : Type :=
| MkPart (mimeType : str) (body_data : str) (parts : list Part).

(** ["sep".join(l)] *)
Fixpoint join (sep : str) (l : list str) : str :=
  match l with
  | [] => []
  | x :: r => match r with [] => x | _ :: _ => x ++ sep ++ join sep r end
  end.

Fixpoint extract_text_from_payload (payload : Part) : result str :=
  match payload with
  | MkPart mime_type data parts =>
      if str_eqb mime_type (u "text/plain") then decode_body data
      else if str_eqb mime_type (u "text/html") then
        s ← decode_body data; clean_html_to_text s
      else
        texts ← (fix each (ps : list Part) : result (list str) :=
                   match ps with
                   | [] => Ok []
                   | part :: ps' =>
                       t ← extract_text_from_payload part;
                       ts ← each ps';
                       Ok (t :: ts)
                   end) parts;
        let combined := join [NEWLINE] (List.filter (fun t => truthy (strip t)) texts) in
        Ok (strip combined)
  end.

(** The MIME bodies of the [text/plain] parts of a tree, in document
    order.  A [text/plain] or [text/html] part is a leaf for the
    extractor, whatever its [parts]. *)
Fixpoint plain_leaves (payload : Part) : list str :=
  match payload with
  | MkPart mime_type data parts =>
      if str_eqb mime_type (u "text/plain") then [data]
      else if str_eqb mime_type (u "text/html") then []
      else (fix each (ps : list Part) : list str :=
              match ps with
              | [] => []
              | part :: ps' => plain_leaves part ++ each ps'
              end) parts
  end.

(** No [text/html] part is reached by the extractor. *)
Fixpoint only_plain (payload : Part) : bool :=
  match payload with
  | MkPart mime_type data parts =>
      if str_eqb mime_type (u "text/plain") then true
      else if str_eqb mime_type (u "text/html") then false
      else (fix each (ps : list Part) : bool :=
              match ps with
              | [] => true
              | part :: ps' => only_plain part && each ps'
              end) parts
  end.

(** [decode_body] over a list of bodies, left to right. *)
Fixpoint decode_all (datas : list str) : result (list str) :=
  match datas with
  | [] => Ok []
  | d :: ds => b ← decode_body d; bs ← decode_all ds; Ok (b :: bs)
  end.

(** A string without leading or trailing whitespace. *)
Definition trimmed (s : str) : Prop := strip s = s.

(** The specification's reading of the extractor's output on a tree of
    [text/plain] leaves: the decoded bodies, empty ones dropped, joined
    with newlines, the whole trimmed. *)
Definition flat_text (bodies : list str) : str :=
  strip (join [NEWLINE] (List.filter truthy bodies)).

(** The loop [for part in parts: texts.append(...)] on its own. *)
Fixpoint extract_parts (ps : list Part) : result (list str) :=
  match ps with
  | [] => Ok []
  | part :: ps' =>
      t ← extract_text_from_payload part;
      ts ← extract_parts ps';
      Ok (t :: ts)
  end.

End MimeText.

Fixpoint plain_leaves_parts (ps : list Part) : list str :=
  match ps with
  | [] => []
  | part :: ps' => plain_leaves part ++ plain_leaves_parts ps'
  end.

Fixpoint only_plain_parts (ps : list Part) : bool :=
  match ps with
  | [] => true
  | part :: ps' => only_plain part && only_plain_parts ps'
  end.

(** The decoded body of a part (the empty string for a body that cannot
    be decoded), and a fragment that is dropped from a join: one that is
    empty once trimmed. *)
Definition decoded (data : str) : str :=
  match decode_body data with Ok s => s | Raise _ => [] end.

Definition blank (t : str) : bool := negb (truthy (strip t)).

(** The amended reading of the extractor's output, level by level: a
    [text/plain] part gives its decoded body as it is; any other part
    gives the texts of its children in order, the blank ones dropped,
    joined with newlines, and the join trimmed. *)
Fixpoint level_text (payload : Part) : str :=
  match payload with
  | MkPart mime_type data parts =>
      if str_eqb mime_type (u "text/plain") then decoded data
      else
        strip (join [NEWLINE]
                 (List.filter (fun t => negb (blank t)) (List.map level_text parts)))
  end.

(** A container all of whose children are [text/plain] parts, and the
    bodies of its children. *)
Definition is_plain (payload : Part) : bool :=
  match payload with MkPart mime_type _ _ => str_eqb mime_type (u "text/plain") end.

Definition one_level (payload : Part) : bool :=
  match payload with
  | MkPart mime_type _ parts =>
      negb (str_eqb mime_type (u "text/plain"))
      && negb (str_eqb mime_type (u "text/html"))
      && forallb is_plain parts
  end.

(** The flat reading for one level: the bodies in order, the blank ones
    dropped, joined with newlines, the join trimmed. *)
Definition flat_nonblank (bodies : list str) : str :=
  strip (join [NEWLINE] (List.filter (fun t => negb (blank t)) bodies)).

(* ===================================================================== *)
(** * The outside world                                                   *)
(* ===================================================================== *)

(** One candidate of a [generateContent] reply: its [finishReason], if
    any, and the [text] of each part of its [content], if any (an absent
    text counts as the empty string). *)
Record Candidate : Type := {
  finishReason : option str;
  parts_text : list (option str);
}.

(** The reply of the text-generation collaborator: [resp.status_code],
    [resp.text] and the candidates of [resp.json()]. *)
Record TextReply : Type := {
  text_status_code : Z;
  text_text : str;
  candidates : list Candidate;
}.

(** The ["data"] of the reply of the image-generation collaborator: the
    key is absent, its value is [null], or it is a list of items, each
    given by its [b64_json] field, if it has one that is not [null]. *)
Inductive ImageData : Type :=
| DataAbsent
| DataNull
| DataItems (items : list (option str)).

(** The reply of the image-generation collaborator: [resp.status_code],
    [resp.text] and the ["data"] of [resp.json()]. *)
Record ImageReply : Type := {
  image_status_code : Z;
  image_text : str;
  image_data : ImageData;
}.

(** A fetched Gmail message: the MIME tree of [msg["payload"]] and its
    [headers] as name/value pairs. *)
Record Message : Type := {
  payload : Part;
  headers : list (str * str);
}.

(** What a run is given: the process environment, the directory of the
    script, and the collaborators.  The n-th request to a Gemini
    collaborator gets the reply the collaborator chooses for it. *)
Record Setup : Type := {
  environ : str -> option str;
  script_dir : str;
  gmail_message : str -> result Message;
  gemini_text : nat -> str -> TextReply;
  gemini_image : nat -> str -> ImageReply;
}.

(** What a run changes: the files that exist, and the requests sent so
    far to the two Gemini collaborators (for an image request, the prompt
    and the path the image is to be written to). *)
Record World : Type := {
  files : gset (list N);
  text_requests : list str;
  image_requests : list (str * str);
}.

(** Stateful, fallible code: effects stay when an exception is raised. *)
Definition IO (A : Type) : Type := World -> result A * World.

Definition io_ret {A} (a : A) : IO A := fun w => (Ok a, w).
Definition io_bind {A B} (m : IO A) (k : A -> IO B) : IO B := fun w =>
  match m w with
  | (Ok a, w') => k a w'
  | (Raise e, w') => (Raise e, w')
  end.

Notation "'let*' x ':=' m 'in' k" := (io_bind m (fun x => k))
  (at level 10, x name, m at level 100, k at level 200).

Definition lift {A} (r : result A) : IO A := fun w => (r, w).

(** [str(n)] for an [int]. *)
Definition str_of_int (n : Z) : str :=
  u (DecimalString.NilZero.string_of_int (Z.to_int n)).

Definition env (environ : str -> option str) (name : str) (default : option str)
  (required : bool) : result str :=
  let value := match environ name with Some v => Some v | None => default end in
  let set := match value with Some v => truthy v | None => false end in
  if required && negb set then
    Raise (SystemExit (u "Missing required env var: " ++ name))
  else Ok (match value with Some v => v | None => [] end).

(* ===================================================================== *)
(** * gemini_translate_and_summarize                                      *)
(* ===================================================================== *)

Definition TEXT_PROMPT : str :=
  u "Translate the input into Traditional Chinese ("
  ++ [0x7e41; 0x9ad4; 0x4e2d; 0x6587]
  ++ u ") and write a concise summary in Traditional Chinese. "
  ++ u "If the input is already Traditional Chinese, keep it as-is." ++ [10; 10]
  ++ u "Return ONLY strict JSON with keys: language, translated_text, summary_zh_tw. "
  ++ u "Do NOT include any markdown, code fences, or extra text." ++ [10]
  ++ u "language should be a short label like 'zh-TW', 'zh-CN', 'en', etc. "
  ++ u "If the input is already Traditional Chinese, translated_text must equal the original content. "
  ++ u "Keep the summary within 6 bullet points or 6 sentences." ++ [10; 10]
  ++ u "INPUT:" ++ [10].

(** ["（內容因安全性限制無法摘要）"] *)
Definition SUMMARY_SAFETY : str :=
  [0xff08; 0x5167; 0x5bb9; 0x56e0; 0x5b89; 0x5168; 0x6027; 0x9650; 0x5236;
   0x7121; 0x6cd5; 0x6458; 0x8981; 0xff09].
(** ["（內容摘要失敗）"] *)
Definition SUMMARY_EMPTY : str :=
  [0xff08; 0x5167; 0x5bb9; 0x6458; 0x8981; 0x5931; 0x6557; 0xff09].
(** ["（內容摘要解析失敗）"] *)
Definition SUMMARY_UNPARSED : str :=
  [0xff08; 0x5167; 0x5bb9; 0x6458; 0x8981; 0x89e3; 0x6790; 0x5931; 0x6557; 0xff09].

(** The dict returned when no usable answer came back. *)
Definition degraded (text summary : str) : json :=
  JObj [(u "language", JStr (u "unknown"));
        (u "translated_text", JStr text);
        (u "summary_zh_tw", JStr summary)].

(** The loop over the candidates: [None] is the early return on a
    candidate whose finish reason is ["SAFETY"], otherwise the text of all
    parts is accumulated. *)
Fixpoint collect_candidates (cs : list Candidate) (output_text : str) : option str :=
  match cs with
  | [] => Some output_text
  | candidate :: rest =>
      if bool_decide (finishReason candidate = Some (u "SAFETY")) then None
      else
        collect_candidates rest
          (fold_left (fun acc part => acc ++ default [] part)
             (parts_text candidate) output_text)
  end.

(** [^```(?:json)?\s*] *)
Definition match_fence_open (s : str) : option nat :=
  match JSON.after (u "```") s with
  | None => None
  | Some r =>
      match JSON.after (u "json") r with
      | Some r' => Some (7 + length (takewhile isspace r'))%nat
      | None => Some (3 + length (takewhile isspace r))%nat
      end
  end.

(** [\s*```$]; [$] also matches just before a final newline. *)
Definition match_fence_close (s : str) : option nat :=
  let n := length (takewhile isspace s) in
  match JSON.after (u "```") (skipn n s) with
  | Some [] => Some (n + 3)%nat
  | Some [c] => if c =? NEWLINE then Some (n + 3)%nat else None
  | _ => None
  end.

(** [s.find(c)] and [s.rfind(c)] for one character; [None] is [-1]. *)
Fixpoint find_char (c : char) (s : str) : option nat :=
  match s with
  | [] => None
  | x :: r => if x =? c then Some 0%nat else option_map S (find_char c r)
  end.

Fixpoint rfind_char (c : char) (s : str) : option nat :=
  match s with
  | [] => None
  | x :: r =>
      match rfind_char c r with
      | Some i => Some (S i)
      | None => if x =? c then Some 0%nat else None
      end
  end.

(** [s[i:j]] for indices within range. *)
Definition slice (s : str) (i j : nat) : str := firstn (j - i) (skipn i s).

(** [re.search(r"\{.*\}", s, flags=re.S)]: from the first [{] to the last
    [}] after it. *)
Definition search_braces (s : str) : option str :=
  match find_char 123 s with
  | None => None
  | Some i =>
      match rfind_char 125 (skipn (S i) s) with
      | None => None
      | Some k => Some (slice s i (S i + k + 1))
      end
  end.

Section ModelAnswer.
Context `{PyLib}.

(** Only [json.JSONDecodeError] is caught; the retry on the slice runs
    inside the handler, so whatever it raises leaves the function. *)
Definition parse_loose_json (text_value : str) : result json :=
  match json_loads text_value with
  | Ok v => Ok v
  | Raise JSONDecodeError =>
      match find_char 123 text_value, rfind_char 125 text_value with
      | Some start, Some end_ =>
          if (start <? end_)%nat then json_loads (slice text_value start (end_ + 1))
          else Raise JSONDecodeError
      | _, _ => Raise JSONDecodeError
      end
  | Raise e => Raise e
  end.

(** Lines 168-203: from the accumulated text of the candidates to the
    returned dict. *)
Definition parse_model_output (text output_text : str) : result json :=
  let output_text := strip output_text in
  if negb (truthy output_text) then Ok (degraded text SUMMARY_EMPTY)
  else
    let output_text := re_sub_anchored match_fence_open [] output_text in
    let output_text := re_sub match_fence_close [] output_text in
    match parse_loose_json output_text with
    | Ok v => Ok v
    | Raise JSONDecodeError =>
        match search_braces output_text with
        | Some m => parse_loose_json m
        | None => Ok (degraded text SUMMARY_UNPARSED)
        end
    | Raise e => Raise e
    end.

Definition gemini_translate_and_summarize (setup : Setup) (text : str) : IO json :=
  let* api_key := lift (env (environ setup) (u "GEMINI_API_KEY") None true) in
  let* model := lift (env (environ setup) (u "GEMINI_TEXT_MODEL")
                        (Some (u "gemini-2.5-flash")) false) in
  let prompt := TEXT_PROMPT ++ text in
  fun w =>
    let resp := gemini_text setup (length (text_requests w)) prompt in
    let w := {| files := files w;
                text_requests := text_requests w ++ [prompt];
                image_requests := image_requests w |} in
    if negb (text_status_code resp =? 200)%Z then
      (Raise (SystemExit (u "Gemini API error " ++ str_of_int (text_status_code resp)
                          ++ u ": " ++ text_text resp)), w)
    else
      match collect_candidates (candidates resp) [] with
      | None => (Ok (degraded text SUMMARY_SAFETY), w)
      | Some output_text => (parse_model_output text output_text, w)
      end.

End ModelAnswer.

(** The reply the text collaborator gives to the request that
    [gemini_translate_and_summarize] sends for [text] in world [w]. *)
Definition text_reply (setup : Setup) (w : World) (text : str) : TextReply :=
  gemini_text setup (length (text_requests w)) (TEXT_PROMPT ++ text).

(** A candidate stopped by the safety filter. *)
Definition safety_blocked (c : Candidate) : Prop := finishReason c = Some (u "SAFETY").

(* ===================================================================== *)
(** * generate_image                                                      *)
(* ===================================================================== *)

(** [base64.b64decode] of a [str] (standard alphabet, no validation). *)
Definition b64decode (s : str) : result bytes :=
  if forallb is_ascii s then a2b_base64 s else Raise ValueError.

(** POSIX [os.path.join(path, *ps)]. *)
Fixpoint os_path_join (path : str) (ps : list str) : str :=
  match ps with
  | [] => path
  | b :: rest =>
      let path' :=
        match b with
        | 47 :: _ => b
        | _ =>
            match rev path with
            | [] => path ++ b
            | c :: _ => if c =? 47 then path ++ b else path ++ [47] ++ b
            end
        end in
      os_path_join path' rest
  end.

(** [os.path.exists]: the files known to the world.  Creating
    directories and opening a file for writing are taken to succeed. *)
Definition os_path_exists (path : str) : IO bool :=
  fun w => (Ok (bool_decide (path ∈ files w)), w).

Definition generate_image (setup : Setup) (prompt out_path : str) : IO unit :=
  let* api_key := lift (env (environ setup) (u "GEMINI_API_KEY") None true) in
  let* model := lift (env (environ setup) (u "GEMINI_IMAGE_MODEL")
                        (Some (u "imagen-3.0-generate-002")) false) in
  let* size := lift (env (environ setup) (u "GEMINI_IMAGE_SIZE")
                       (Some (u "1024x1024")) false) in
  fun w =>
    let resp := gemini_image setup (length (image_requests w)) prompt in
    let w := {| files := files w;
                text_requests := text_requests w;
                image_requests := image_requests w ++ [(prompt, out_path)] |} in
    if negb (image_status_code resp =? 200)%Z then
      (Raise (SystemExit (u "Gemini Image API error " ++ str_of_int (image_status_code resp)
                          ++ u ": " ++ image_text resp)), w)
    else
      let items :=
        match image_data resp with
        | DataAbsent => Ok [None]
        | DataNull => Raise TypeError
        | DataItems items => Ok items
        end in
      match items with
      | Raise e => (Raise e, w)
      | Ok [] => (Raise IndexError, w)
      | Ok (first :: _) =>
          match first with
          | Some (c :: b64') =>
              let b64 := c :: b64' in
              let w := {| files := {[ out_path ]} ∪ files w;
                          text_requests := text_requests w;
                          image_requests := image_requests w |} in
              match b64decode b64 with
              | Ok _ => (Ok tt, w)
              | Raise e => (Raise e, w)
              end
          | _ => (Raise (SystemExit (u "Gemini Image API returned no image data")), w)
          end
      end.

(* ===================================================================== *)
(** * Subject, sender and thumbnail helpers                               *)
(* ===================================================================== *)

(** ["未分類"], ["未知來源"], ["(無標題)"], ["(無摘要)"] *)
Definition UNCATEGORIZED : str := [0x672a; 0x5206; 0x985e].
Definition UNKNOWN_SOURCE : str := [0x672a; 0x77e5; 0x4f86; 0x6e90].
Definition NO_SUBJECT : str := [40; 0x7121; 0x6a19; 0x984c; 41].
Definition NO_SUMMARY : str := [40; 0x7121; 0x6458; 0x8981; 41].

(** The class [[\]）】\)]] of [extract_category]. *)
Definition is_category_close (c : char) : bool :=
  (c =? 93) || (c =? 0xff09) || (c =? 0x3011) || (c =? 41).

(** [re.match(r"^[\[【(]([^\]）】\)]+)[\]）】\)]\s*", subject)] and its
    first group. *)
Definition extract_category (subject : str) : str :=
  match subject with
  | [] => UNCATEGORIZED
  | o :: r =>
      if is_open o then
        let group := takewhile (fun c => negb (is_category_close c)) r in
        match group, skipn (length group) r with
        | _ :: _, _ :: _ => strip group
        | _, _ => UNCATEGORIZED
        end
      else UNCATEGORIZED
  end.

(** [s.strip(q)] where [q] is the double-quote character. *)
Definition strip_quotes (s : str) : str :=
  rev (dropwhile (fun c => c =? 34) (rev (dropwhile (fun c => c =? 34) s))).

(** [html.escape(s)] with [quote=True]. *)
Definition html_escape (s : str) : str :=
  flat_map (fun c =>
    if c =? 38 then u "&amp;"
    else if c =? 60 then u "&lt;"
    else if c =? 62 then u "&gt;"
    else if c =? 34 then u "&quot;"
    else if c =? 39 then u "&#x27;"
    else [c]) s.

(** A backslash followed by a double quote, as the f-strings of the two
    thumbnail builders spell their attribute quotes. *)
Definition BQ : str := [92; 34].

Definition THUMB_COLORS : list (str * str * str) :=
  [ (u "#e0f2fe", u "#bae6fd", u "#93c5fd");
    (u "#ede9fe", u "#ddd6fe", u "#c4b5fd");
    (u "#ffe4e6", u "#fecdd3", u "#fda4af");
    (u "#dcfce7", u "#bbf7d0", u "#86efac");
    (u "#fef3c7", u "#fde68a", u "#fcd34d") ].

Definition build_thumb_placeholder (subject : str) : str :=
  let idx := N.to_nat (fold_left N.add subject 0 mod 5) in
  let '(c1, c2, c3) := nth idx THUMB_COLORS ([], [], []) in
  u "<div class=" ++ BQ ++ u "thumb thumb--placeholder" ++ BQ ++ u " style=" ++ BQ
  ++ u "background: linear-gradient(140deg, " ++ c1 ++ u " 0%, " ++ c2 ++ u " 45%, "
  ++ c3 ++ u " 100%);" ++ BQ ++ u "></div>".

Definition build_thumb_html (setup : Setup) (image_rel_path subject : str) : result str :=
  if truthy image_rel_path then
    Ok (u "<img class=" ++ BQ ++ u "thumb" ++ BQ ++ u " src=" ++ BQ
        ++ html_escape image_rel_path ++ BQ ++ u " alt=" ++ BQ ++ BQ ++ u ">")
  else
    flag ← env (environ setup) (u "SHOW_THUMB_PLACEHOLDER") (Some (u "0")) false;
    Ok (if str_eqb flag (u "1") then build_thumb_placeholder subject else []).

Section PerMessage.
Context `{PyLib}.

Fixpoint get_header (headers : list (str * str)) (name : str) : str :=
  match headers with
  | [] => []
  | (n, v) :: rest =>
      if str_eqb (str_lower n) (str_lower name) then v else get_header rest name
  end.

Definition extract_source (from_header : str) : str * str :=
  let '(name, email_addr) := parseaddr from_header in
  let name := str_or (strip_quotes (strip name)) email_addr in
  let domain :=
    match find_char 64 email_addr with
    | Some i => str_lower (skipn (S i) email_addr)
    | None => []
    end in
  (str_or name UNKNOWN_SOURCE, str_or domain (u "unknown")).

(* ===================================================================== *)
(** * The per-message loop of main                                        *)
(* ===================================================================== *)

(** One element of [entries]. *)
Record Entry : Type := {
  entry_id : str;
  entry_subject : str;
  entry_from : str;
  entry_date : str;
  original_text : str;
  translated_text : str;
  summary_zh_tw : str;
  category : str;
  source : str;
  thumb_html : str;
}.

(** [ai.get(key, d)] with the empty string for [d]: only a dict has
    [get]. *)
Definition ai_get (ai : json) (key : str) : result json :=
  match ai with
  | JObj pairs =>
      Ok (fold_left (fun found kv => if str_eqb (fst kv) key then snd kv else found)
            pairs (JStr []))
  | _ => Raise AttributeError
  end.

(** [normalize_text] on a value that may not be a string: [re.sub] raises
    [TypeError] on anything else. *)
Definition normalize_value (v : json) (max_chars : Z) : result str :=
  match v with
  | JStr s => Ok (normalize_text s max_chars)
  | _ => Raise TypeError
  end.

Definition images_dir (setup : Setup) : str :=
  os_path_join (script_dir setup) [u ".."; u "public"; u "images"].

(** The name, the absolute path and the relative path of the image of a
    message. *)
Definition image_name (msg_id : str) : str := msg_id ++ u ".png".
Definition image_path (setup : Setup) (msg_id : str) : str :=
  os_path_join (images_dir setup) [image_name msg_id].
Definition image_rel_path_of (msg_id : str) : str := u "images/" ++ image_name msg_id.

(** [enable_images = env("ENABLE_IMAGE_GEN", default="1") == "1"] *)
Definition enable_images (setup : Setup) : bool :=
  match env (environ setup) (u "ENABLE_IMAGE_GEN") (Some (u "1")) false with
  | Ok v => str_eqb v (u "1")
  | Raise _ => false
  end.

(** The block under [if enable_images:] (lines 549-556): the image is
    generated only when no file exists at its path; the value is
    [image_rel_path]. *)
Definition image_gate (setup : Setup) (msg_id subject summary_zh_tw translated_text : str)
  : IO str :=
  if enable_images setup then
    let* present := os_path_exists (image_path setup msg_id) in
    let* _ :=
      if negb present then
        let prompt := build_image_prompt subject (str_or summary_zh_tw translated_text) in
        generate_image setup prompt (image_path setup msg_id)
      else io_ret tt in
    io_ret (image_rel_path_of msg_id)
  else io_ret [].

(** The body of [for msg_id in message_ids]: [None] is [continue], [Some e]
    the record appended to [entries]. *)
Definition process_message (setup : Setup) (msg_id : str) : IO (option Entry) :=
  let* msg := lift (gmail_message setup msg_id) in
  let subject := str_or (get_header (headers msg) (u "Subject")) NO_SUBJECT in
  let from_ := str_or (get_header (headers msg) (u "From")) [] in
  let date_ := str_or (get_header (headers msg) (u "Date")) [] in
  let* raw_text := lift (extract_text_from_payload (payload msg)) in
  let raw_text := normalize_text raw_text DEFAULT_MAX_CHARS in
  if negb (truthy raw_text) then io_ret None
  else
    let* ai := gemini_translate_and_summarize setup raw_text in
    let* v := lift (ai_get ai (u "translated_text")) in
    let* translated_text := lift (normalize_value v DEFAULT_MAX_CHARS) in
    let* v := lift (ai_get ai (u "summary_zh_tw")) in
    let* summary_zh_tw := lift (normalize_value v 4000) in
    let* image_rel_path := image_gate setup msg_id subject summary_zh_tw translated_text in
    let* thumb := lift (build_thumb_html setup image_rel_path subject) in
    io_ret (Some {|
      entry_id := msg_id;
      entry_subject := subject;
      entry_from := from_;
      entry_date := date_;
      original_text := raw_text;
      translated_text := str_or translated_text raw_text;
      summary_zh_tw := str_or summary_zh_tw NO_SUMMARY;
      category := extract_category subject;
      source := fst (extract_source from_);
      thumb_html := thumb;
    |}).

Fixpoint main_loop (setup : Setup) (message_ids : list str) (entries : list Entry)
  : IO (list Entry) :=
  match message_ids with
  | [] => io_ret entries
  | msg_id :: rest =>
      let* e := process_message setup msg_id in
      main_loop setup rest (match e with Some x => entries ++ [x] | None => entries end)
  end.

(** How the two text fields of a record come from the answer [ai] of the
    invoker: each is the normalized field of the answer, or its default
    when that is empty. *)
Definition entry_from_answer (e : Entry) (ai : json) : Prop :=
  exists t s : str,
    (v ← ai_get ai (u "translated_text"); normalize_value v DEFAULT_MAX_CHARS) = Ok t
    /\ (v ← ai_get ai (u "summary_zh_tw"); normalize_value v 4000) = Ok s
    /\ translated_text e = str_or t (original_text e)
    /\ summary_zh_tw e = str_or s NO_SUMMARY.

(** A record whose three text fields are non-empty and were filled from
    an answer of the invoker for its [original_text]. *)
Definition entry_filled (setup : Setup) (e : Entry) : Prop :=
  truthy (original_text e) = true
  /\ truthy (translated_text e) = true
  /\ truthy (summary_zh_tw e) = true
  /\ exists (w : World) (ai : json) (w' : World),
       gemini_translate_and_summarize setup (original_text e) w = (Ok ai, w')
       /\ entry_from_answer e ai.

End PerMessage.

(* ===================================================================== *)
(** * A library instance for running the model                            *)
(* ===================================================================== *)

Definition ascii_lower (s : str) : str :=
  List.map (fun c => if (65 <=? c) && (c <=? 90) then c + 32 else c) s.

(** [json_loads] is the decoder above.  The three other functions are
    simple stand-ins, exact on the inputs they are run on in this file:
    text without character references, a bare address, ASCII names. *)
Definition sample_lib : PyLib := {|
  html_unescape := fun s => Ok s;
  json_loads := JSON.loads;
  parseaddr := fun s => ([], s);
  str_lower := ascii_lower;
|}.



(* ===================================================================== *)
(** * Sample data for running the model                                   *)
(* ===================================================================== *)

Definition sample_environ (name : str) : option str :=
  if str_eqb name (u "GEMINI_API_KEY") then Some (u "key") else None.

(** A message whose body is the base64url of ["Hello world"]. *)
Definition sample_message : Message := {|
  payload := MkPart (u "text/plain") (u "SGVsbG8gd29ybGQ") [];
  headers := [(u "Subject", u "[Tech] Big news today"); (u "From", u "news@example.com")];
|}.

(** A message with an empty body. *)
Definition empty_message : Message := {|
  payload := MkPart (u "text/plain") [] [];
  headers := [(u "Subject", u "Nothing")];
|}.

Definition safety_reply : TextReply := {|
  text_status_code := 200;
  text_text := [];
  candidates := [ {| finishReason := Some (u "SAFETY"); parts_text := [] |} ];
|}.

Definition quoted (s : str) : str := [34] ++ s ++ [34].

(** A reply whose text is a JSON object with the three expected keys;
    its summary is empty. *)
Definition json_reply : TextReply := {|
  text_status_code := 200;
  text_text := [];
  candidates :=
    [ {| finishReason := Some (u "STOP");
         parts_text :=
           [ Some (u "{" ++ quoted (u "language") ++ u ": " ++ quoted (u "en") ++ u ", "
                   ++ quoted (u "translated_text") ++ u ": " ++ quoted [0x4f60; 0x597d] ++ u ", "
                   ++ quoted (u "summary_zh_tw") ++ u ": " ++ quoted [] ++ u "}") ] |} ];
|}.

(** A reply whose text is not JSON but has braces. *)
Definition broken_reply : TextReply := {|
  text_status_code := 200;
  text_text := [];
  candidates := [ {| finishReason := Some (u "STOP"); parts_text := [Some (u "{oops}")] |} ];
|}.

(** A reply whose text is not JSON and has no braces. *)
Definition prose_reply : TextReply := {|
  text_status_code := 200;
  text_text := [];
  candidates := [ {| finishReason := Some (u "STOP"); parts_text := [Some (u "Sorry.")] |} ];
|}.

(** The message ["A"] is empty, every other one is [sample_message]. *)
Definition sample_setup (answer : TextReply) : Setup := {|
  environ := sample_environ;
  script_dir := u "/app/src";
  gmail_message := fun msg_id =>
    if str_eqb msg_id (u "A") then Ok empty_message else Ok sample_message;
  gemini_text := fun _ _ => answer;
  gemini_image := fun _ _ =>
    {| image_status_code := 200; image_text := []; image_data := DataItems [Some (u "AAAA")] |};
|}.

(** A tree with two [text/plain] leaves (["a"] and ["b"]) and an image. *)
Definition sample_tree : Part :=
  MkPart (u "multipart/mixed") []
    [MkPart (u "text/plain") (u "YQ") [];
     MkPart (u "multipart/alternative") []
       [MkPart (u "image/png") (u "AAAA") []; MkPart (u "text/plain") (u "Yg") []]].

(** A lone [text/plain] part whose body decodes to [" a"], and a tree
    whose inner container holds ["a "] and whose outer one adds ["b"]. *)
Definition padded_leaf : Part := MkPart (u "text/plain") (u "IGE") [].

(** A container whose three [text/plain] children decode to [" a"],
    [" "] and ["b\n"]. *)
Definition padded_row : Part :=
  MkPart (u "multipart/mixed") []
    [MkPart (u "text/plain") (u "IGE") []; MkPart (u "text/plain") (u "IA") [];
     MkPart (u "text/plain") (u "Ygo") []].
Definition padded_tree : Part :=
  MkPart (u "multipart/mixed") []
    [MkPart (u "multipart/alternative") [] [MkPart (u "text/plain") (u "YSA") []];
     MkPart (u "text/plain") (u "Yg") []].

Definition empty_world : World :=
  {| files := ∅; text_requests := []; image_requests := [] |}.

(* ===================================================================== *)
(** * Auxiliary notions for the proofs                                    *)
(* ===================================================================== *)

(** A reading of the [\s+] substitution as a one-flag scanner: [in_run]
    says that the previous character was whitespace. *)
Fixpoint squeeze (in_run : bool) (s : str) : str :=
  match s with
  | [] => []
  | c :: r =>
      if isspace c then (if in_run then squeeze true r else SPACE :: squeeze true r)
      else c :: squeeze false r
  end.

(** A string is [spaced] when its only whitespace characters are single
    U+0020 spaces that do not follow another whitespace character. *)
Fixpoint spaced (prev : bool) (s : str) : bool :=
  match s with
  | [] => true
  | c :: r =>
      if isspace c then (c =? SPACE) && negb prev && spaced true r
      else spaced false r
  end.

(** The first character, if any, is not whitespace. *)
Definition head_ok (s : str) : bool :=
  match s with [] => true | c :: _ => negb (isspace c) end.

(** No character of [t] is whitespace. *)
Definition no_space (t : str) : bool := forallb (fun c => negb (isspace c)) t.

(** Progress and fuel bounds of the three functions of the JSON decoder:
    a parsed value leaves a shorter rest, and fuel of twice the length of
    the text (plus one or two) is never exhausted. *)
Definition scan_bound (fuel : nat) : Prop :=
  forall s,
    (forall v rest, JSON.scan_once fuel s = JSON.Parsed v rest -> (length rest < length s)%nat)
    /\ ((2 * length s + 1 <= fuel)%nat -> JSON.scan_once fuel s <> JSON.OutOfFuel).

Definition members_bound (fuel : nat) : Prop :=
  forall s acc,
    (forall v rest, JSON.parse_members fuel s acc = JSON.Parsed v rest ->
                    (length rest < length s)%nat)
    /\ ((2 * length s + 2 <= fuel)%nat -> JSON.parse_members fuel s acc <> JSON.OutOfFuel).

Definition items_bound (fuel : nat) : Prop :=
  forall s acc,
    (forall v rest, JSON.parse_items fuel s acc = JSON.Parsed v rest ->
                    (length rest < length s)%nat)
    /\ ((2 * length s + 2 <= fuel)%nat -> JSON.parse_items fuel s acc <> JSON.OutOfFuel).

(* ===================================================================== *)
(** * gmail_get and list_messages                                         *)
(* ===================================================================== *)

(** The reply to the listing request of one page: [resp.status_code],
    [resp.text], and of [resp.json()] the value of ["messages"] (absent or
    null is [None]; each message with its ["id"], if it has one) and of
    ["nextPageToken"]. *)
Record MessagePage : Type := {
  page_status_code : Z;
  page_text : str;
  page_messages : option (list (option str));
  nextPageToken : option str;
}.

(** How a call of [list_messages] can end: with the list of ids, with the
    [SystemExit] of [gmail_get], with the [KeyError] of [msg["id"]], or
    not within the number of pages the model was given to ask for. *)
Inductive Listing : Type :=
| Listed (message_ids : list str)
| ListingRaised (e : exn)
| ListingKeyError
| ListingUnfinished.

(** [gmail_get]: any status but 200 ends the program. *)
Definition gmail_get {A} (status_code : Z) (text : str) (document : A) : result A :=
  if negb (status_code =? 200)%Z then
    Raise (SystemExit (u "Gmail API error " ++ str_of_int status_code ++ u ": " ++ text))
  else Ok document.

(** [for msg in ...: message_ids.append(msg["id"])]; [None] is the
    [KeyError] of a message without id. *)
Fixpoint append_ids (messages : list (option str)) (message_ids : list str)
  : option (list str) :=
  match messages with
  | [] => Some message_ids
  | Some id :: rest => append_ids rest (message_ids ++ [id])
  | None :: _ => None
  end.

(** The [while True] loop of [list_messages], for at most [pages]
    requests.  The collaborator answers a request by its page token ([None]
    when the request carries none: the first request, [page_token] being
    [None] then). *)
Fixpoint list_messages_loop (pages : nat) (server : option str -> MessagePage)
    (page_token : option str) (message_ids : list str) : Listing :=
  match pages with
  | O => ListingUnfinished
  | S pages' =>
      let params := match page_token with Some (c :: t) => Some (c :: t) | _ => None end in
      let resp := server params in
      match gmail_get (page_status_code resp) (page_text resp) resp with
      | Raise e => ListingRaised e
      | Ok data =>
          match append_ids (default [] (page_messages data)) message_ids with
          | None => ListingKeyError
          | Some message_ids =>
              match nextPageToken data with
              | Some (c :: t) => list_messages_loop pages' server (Some (c :: t)) message_ids
              | _ => Listed message_ids
              end
          end
      end
  end.

Definition list_messages (pages : nat) (server : option str -> MessagePage) : Listing :=
  list_messages_loop pages server None [].

(** A page that was served and whose messages all have an id. *)
Definition page_ids (resp : MessagePage) : option (list str) :=
  if (page_status_code resp =? 200)%Z then
    append_ids (default [] (page_messages resp)) []
  else None.

(** The pages a collaborator serves from a token on, as the lists of
    their ids: each page but the last names the next one by a token that
    is not empty, the last page has no token or an empty one. *)
Inductive page_chain (server : option str -> MessagePage)
  : option str -> list (list str) -> Prop :=
| chain_last token ids :
    page_ids (server token) = Some ids ->
    truthy (default [] (nextPageToken (server token))) = false ->
    page_chain server token [ids]
| chain_next token ids next rest :
    page_ids (server token) = Some ids ->
    nextPageToken (server token) = Some next -> truthy next = true ->
    page_chain server (Some next) rest ->
    page_chain server token (ids :: rest).

(** Pages served one after the other from a token on, each naming the
    next by a token that is not empty, up to the token [last] of a page
    that is still to be asked for. *)
Inductive page_prefix (server : option str -> MessagePage)
  : option str -> list (list str) -> option str -> Prop :=
| prefix_nil token : page_prefix server token [] token
| prefix_cons token ids next rest last :
    page_ids (server token) = Some ids ->
    nextPageToken (server token) = Some next -> truthy next = true ->
    page_prefix server (Some next) rest last ->
    page_prefix server token (ids :: rest) last.

(** The message of the [SystemExit] that [gmail_get] raises for a reply. *)
Definition gmail_error (resp : MessagePage) : str :=
  u "Gmail API error " ++ str_of_int (page_status_code resp) ++ u ": " ++ page_text resp.

(** A collaborator with two pages, one whose second page is refused, and
    one that names a next page forever. *)
Definition two_pages (token : option str) : MessagePage :=
  match token with
  | None =>
      {| page_status_code := 200; page_text := [];
         page_messages := Some [Some (u "18a"); Some (u "18b")];
         nextPageToken := Some (u "p2") |}
  | Some _ =>
      {| page_status_code := 200; page_text := [];
         page_messages := Some [Some (u "18c")];
         nextPageToken := None |}
  end.

Definition refused_pages (token : option str) : MessagePage :=
  match token with
  | None => two_pages None
  | Some _ =>
      {| page_status_code := 403; page_text := u "quota";
         page_messages := None; nextPageToken := None |}
  end.

Definition endless_pages (token : option str) : MessagePage :=
  {| page_status_code := 200; page_text := [];
     page_messages := None; nextPageToken := Some (u "again") |}.

(* ===================================================================== *)
(** * Further notions for the properties beyond the specification         *)
(* ===================================================================== *)

(** Whether the text read so far ends in whitespace ([b] when nothing has
    been read): the flag the [\s+] scanner is in after [p]. *)
Fixpoint ends_space (b : bool) (p : str) : bool :=
  match p with
  | [] => b
  | c :: r => ends_space (isspace c) r
  end.

(** The truncation marker after whitespace collapse, without its leading
    space: ["[內容已截斷]"]. *)
Definition MARKER_WORD : str := [91; 0x5167; 0x5bb9; 0x5df2; 0x622a; 0x65b7; 93].

(** The characters [html.escape] replaces besides [&]: the two angle
    brackets and the two quotes. *)
Definition is_markup_char (c : char) : bool :=
  (c =? 60) || (c =? 62) || (c =? 34) || (c =? 39).

(** A character the group of the category pattern runs over. *)
Definition category_char (c : char) : bool := negb (is_category_close c).

(** A subject with a category tag: an opening character, a non-empty run
    without closing characters, a closing character. *)
Definition category_tagged (subject : str) : Prop :=
  exists o body c rest,
    subject = o :: body ++ c :: rest
    /\ is_open o = true /\ is_category_close c = true
    /\ body <> [] /\ forallb category_char body = true.


(** A Unicode scalar value: a code point below U+110000 that is not a
    surrogate. *)
Definition is_scalar_value (c : char) : bool :=
  (c <? 0xD800) || ((0xE000 <=? c) && (c <? 0x110000)).


(** The exception a result carries, if any. *)
Definition raised {A} (r : result A) : option exn :=
  match r with Ok _ => None | Raise e => Some e end.

(** The parts the extractor reads, in document order: the [text/plain]
    and [text/html] parts that are not below another such part, each with
    the [data] of its body. *)
Inductive Leaf : Type :=
| PlainLeaf (data : str)
| HtmlLeaf (data : str).

Fixpoint reached_leaves (payload : Part) : list Leaf :=
  match payload with
  | MkPart mime_type data parts =>
      if str_eqb mime_type (u "text/plain") then [PlainLeaf data]
      else if str_eqb mime_type (u "text/html") then [HtmlLeaf data]
      else (fix each (ps : list Part) : list Leaf :=
              match ps with
              | [] => []
              | part :: ps' => reached_leaves part ++ each ps'
              end) parts
  end.

Fixpoint reached_leaves_parts (ps : list Part) : list Leaf :=
  match ps with
  | [] => []
  | part :: ps' => reached_leaves part ++ reached_leaves_parts ps'
  end.

Section LeafText.
Context `{PyLib}.

(** What the extractor does with one such part, and with a list of them
    from left to right. *)
Definition read_leaf (leaf : Leaf) : result str :=
  match leaf with
  | PlainLeaf data => decode_body data
  | HtmlLeaf data => s ← decode_body data; clean_html_to_text s
  end.

Fixpoint read_leaves (leaves : list Leaf) : result (list str) :=
  match leaves with
  | [] => Ok []
  | leaf :: rest => t ← read_leaf leaf; ts ← read_leaves rest; Ok (t :: ts)
  end.

End LeafText.

(** Not the character [<]. *)
Definition not_lt (c : char) : bool := negb (c =? 60).


(** The text of the parts of a candidate, and of all candidates of a
    reply, in order; whether a candidate was stopped by the safety
    filter. *)
Definition candidate_text (c : Candidate) : str :=
  concat (List.map (default []) (parts_text c)).

Definition answer_text (cs : list Candidate) : str :=
  concat (List.map candidate_text cs).

Definition is_safety_blocked (c : Candidate) : bool :=
  bool_decide (finishReason c = Some (u "SAFETY")).



(** The request the invoker sends for the text of a record. *)
Definition text_request_of (e : Entry) : str := TEXT_PROMPT ++ original_text e.

(** The image paths of a list of messages. *)
Definition image_paths (setup : Setup) (message_ids : list str) : gset (list N) :=
  list_to_set (List.map (image_path setup) message_ids).

(** An id that [os.path.join] does not take for an absolute path. *)
Definition relative_id (msg_id : str) : bool :=
  match msg_id with 47 :: _ => false | _ => true end.

Section EntryShape.
Context `{PyLib}.

(** Labels and sizes of a record: a subject and a source that are not
    empty, the category and the source computed from the subject and the
    sender, and texts within their caps (the cap and the nine characters
    of the truncation marker). *)
Definition entry_bounded (e : Entry) : Prop :=
  truthy (entry_subject e) = true
  /\ truthy (source e) = true
  /\ category e = extract_category (entry_subject e)
  /\ source e = fst (extract_source (entry_from e))
  /\ (len (original_text e) <= 12009)%Z
  /\ (len (translated_text e) <= 12009)%Z
  /\ (len (summary_zh_tw e) <= 4009)%Z.

End EntryShape.


(** The sample setup with image generation switched off. *)
Definition imageless_setup (answer : TextReply) : Setup := {|
  environ := fun name =>
    if str_eqb name (u "ENABLE_IMAGE_GEN") then Some (u "0") else sample_environ name;
  script_dir := script_dir (sample_setup answer);
  gmail_message := gmail_message (sample_setup answer);
  gemini_text := gemini_text (sample_setup answer);
  gemini_image := gemini_image (sample_setup answer);
|}.


(* ===================================================================== *)
(** * Properties                                                          *)
(* ===================================================================== *)

(** ** Whitespace collapse *)


Lemma squeeze_head_nonspace b s :
  match s with [] => True | c :: _ => isspace c = false end ->
  squeeze b s = squeeze false s.
Proof. destruct s as [|c r]; simpl; [easy|]. intros ->. reflexivity. Qed.

Lemma match_ws_plus_cons c r :
  match_ws_plus (c :: r) =
  if isspace c then Some (S (length (takewhile isspace r))) else None.
Proof. unfold match_ws_plus. simpl. now destruct (isspace c). Qed.

Lemma re_sub_from_cons m repl c r :
  re_sub_from m repl 0 (c :: r) =
  match m (c :: r) with
  | Some (S n) => repl ++ re_sub_from m repl n r
  | _ => c :: re_sub_from m repl 0 r
  end.
Proof. reflexivity. Qed.

Lemma re_sub_ws_squeeze s :
  re_sub_from match_ws_plus [SPACE] (length (takewhile isspace s)) s = squeeze true s
  /\ re_sub_from match_ws_plus [SPACE] 0 s = squeeze false s.
Proof.
  induction s as [|c r [IH1 IH2]]; [split; reflexivity|].
  split.
  - cbn [takewhile squeeze]. destruct (isspace c) eqn:Hc.
    + exact IH1.
    + cbn [length]. rewrite re_sub_from_cons, match_ws_plus_cons, Hc.
      now rewrite IH2.
  - rewrite re_sub_from_cons, match_ws_plus_cons. cbn [squeeze].
    destruct (isspace c) eqn:Hc.
    + now rewrite IH1.
    + now rewrite IH2.
Qed.

Lemma re_sub_ws_eq s : re_sub match_ws_plus [SPACE] s = squeeze false s.
Proof. apply re_sub_ws_squeeze. Qed.


Lemma spaced_squeeze b s : spaced b (squeeze b s) = true.
Proof.
  revert b; induction s as [|c r IH]; intros b; [reflexivity|].
  cbn [squeeze]. destruct (isspace c) eqn:Hc.
  - destruct b; [apply IH|]. cbn. apply IH.
  - cbn [spaced]. rewrite Hc. apply IH.
Qed.

Lemma squeeze_spaced b s : spaced b s = true -> squeeze b s = s.
Proof.
  revert b; induction s as [|c r IH]; intros b; [reflexivity|].
  cbn [squeeze spaced]. destruct (isspace c) eqn:Hc.
  - intros H. apply andb_prop in H as [H Hr]. apply andb_prop in H as [Hsp Hb].
    apply N.eqb_eq in Hsp. destruct b; [discriminate|].
    rewrite (IH true Hr). now subst c.
  - intros H. now rewrite (IH false H).
Qed.

Lemma spaced_weaken b s : spaced b s = true -> spaced false s = true.
Proof.
  destruct s as [|c r]; [reflexivity|]. cbn [spaced].
  destruct (isspace c); [|easy]. destruct b; [|easy].
  rewrite andb_false_r. discriminate.
Qed.

Lemma spaced_suffix p s b : spaced b (p ++ s) = true -> spaced false s = true.
Proof.
  revert b; induction p as [|c p IH]; intros b; cbn [app].
  - apply spaced_weaken.
  - cbn [spaced]. destruct (isspace c).
    + intros H. apply andb_prop in H as [_ H]. now apply IH in H.
    + apply IH.
Qed.

Lemma spaced_prefix p q b : spaced b (p ++ q) = true -> spaced b p = true.
Proof.
  revert b; induction p as [|c p IH]; intros b; cbn [app]; [reflexivity|].
  cbn [spaced]. destruct (isspace c).
  - intros H. apply andb_prop in H as [H1 H]. rewrite H1. now apply IH in H.
  - apply IH.
Qed.

(** ** strip *)


Lemma takewhile_dropwhile {A} (p : A -> bool) l :
  takewhile p l ++ dropwhile p l = l.
Proof. induction l as [|x l IH]; simpl; [easy|]. destruct (p x); simpl; congruence. Qed.

Lemma dropwhile_head_ok s : head_ok (dropwhile isspace s) = true.
Proof.
  induction s as [|c r IH]; [reflexivity|]. simpl.
  destruct (isspace c) eqn:Hc; [exact IH|]. simpl. now rewrite Hc.
Qed.

Lemma dropwhile_id s : head_ok s = true -> dropwhile isspace s = s.
Proof.
  destruct s as [|c r]; [reflexivity|]. simpl.
  now destruct (isspace c).
Qed.

Lemma rstrip_prefix s : s = rstrip s ++ rev (takewhile isspace (rev s)).
Proof.
  unfold rstrip. rewrite <- rev_app_distr, takewhile_dropwhile.
  now rewrite rev_involutive.
Qed.

Lemma takewhile_all {A} (p : A -> bool) l : forallb p (takewhile p l) = true.
Proof. induction l as [|x l IH]; simpl; [easy|]. destruct (p x) eqn:E; simpl; [now rewrite E|easy]. Qed.

Lemma forallb_rev {A} (p : A -> bool) l : forallb p (rev l) = forallb p l.
Proof.
  induction l as [|x l IH]; simpl; [easy|].
  rewrite forallb_app, IH. simpl. rewrite andb_true_r. apply andb_comm.
Qed.

Lemma rstrip_head_ok s : head_ok s = true -> head_ok (rstrip s) = true.
Proof.
  intros H. pose proof (rstrip_prefix s) as E.
  destruct (rstrip s) as [|c r]; [reflexivity|].
  rewrite E in H. exact H.
Qed.

Lemma rstrip_last_ok s : head_ok (rev (rstrip s)) = true.
Proof. unfold rstrip. rewrite rev_involutive. apply dropwhile_head_ok. Qed.

Lemma rstrip_id s : head_ok (rev s) = true -> rstrip s = s.
Proof. intros H. unfold rstrip. rewrite (dropwhile_id _ H). apply rev_involutive. Qed.

Lemma strip_head_ok s : head_ok (strip s) = true.
Proof. apply rstrip_head_ok, dropwhile_head_ok. Qed.

Lemma strip_last_ok s : head_ok (rev (strip s)) = true.
Proof. apply rstrip_last_ok. Qed.

Lemma strip_id s : head_ok s = true -> head_ok (rev s) = true -> strip s = s.
Proof.
  intros H1 H2. unfold strip, lstrip. rewrite (dropwhile_id _ H1).
  now apply rstrip_id.
Qed.

(** [strip s] sits inside [s] between two runs of whitespace. *)
Lemma strip_infix s :
  s = takewhile isspace s ++ strip s ++ rev (takewhile isspace (rev (lstrip s))).
Proof.
  unfold strip. rewrite <- rstrip_prefix. unfold lstrip.
  now rewrite takewhile_dropwhile.
Qed.

Lemma spaced_strip s : spaced false s = true -> spaced false (strip s) = true.
Proof.
  intros H. rewrite (strip_infix s) in H.
  apply spaced_suffix in H. now apply spaced_prefix in H.
Qed.

Lemma collapse_ws_spaced s : spaced false (collapse_ws s) = true.
Proof. unfold collapse_ws. rewrite re_sub_ws_eq. apply spaced_strip, spaced_squeeze. Qed.

Lemma collapse_ws_fixed s :
  spaced false s = true -> head_ok s = true -> head_ok (rev s) = true ->
  collapse_ws s = s.
Proof.
  intros H1 H2 H3. unfold collapse_ws.
  rewrite re_sub_ws_eq, (squeeze_spaced _ _ H1). now apply strip_id.
Qed.

Lemma collapse_ws_idem s : collapse_ws (collapse_ws s) = collapse_ws s.
Proof.
  apply collapse_ws_fixed.
  - apply collapse_ws_spaced.
  - apply strip_head_ok.
  - apply strip_last_ok.
Qed.

(** ** normalize_text *)

Lemma slice_to_nonneg s k : (0 <= k)%Z -> slice_to s k = firstn (Z.to_nat k) s.
Proof. intros H. unfold slice_to. destruct (Z.leb_spec 0 k); [easy|lia]. Qed.

Lemma normalize_text_within text n :
  (len (collapse_ws text) <= n)%Z -> normalize_text text n = collapse_ws text.
Proof.
  intros H. unfold normalize_text. cbv zeta.
  destruct (Z.gtb_spec (len (collapse_ws text)) n); [lia|reflexivity].
Qed.

Lemma normalize_text_over text n :
  (len (collapse_ws text) > n)%Z ->
  normalize_text text n = slice_to (collapse_ws text) n ++ TRUNCATION_MARKER.
Proof.
  intros H. unfold normalize_text. cbv zeta.
  destruct (Z.gtb_spec (len (collapse_ws text)) n); [reflexivity|lia].
Qed.

(** C4.  When the collapsed, trimmed text is longer than [max_chars]
    characters ([max_chars] a length, so not negative), [normalize_text]
    returns a string of [max_chars] plus the marker's length characters
    whose first [max_chars] characters are the first [max_chars]
    characters of the collapsed text. *)
Theorem normalize_text_truncation (text : str) (max_chars : Z) :
  (0 <= max_chars)%Z ->
  (len (collapse_ws text) > max_chars)%Z ->
  len (normalize_text text max_chars) = (max_chars + len TRUNCATION_MARKER)%Z
  /\ slice_to (normalize_text text max_chars) max_chars
     = slice_to (collapse_ws text) max_chars.
Proof.
  intros Hn Hlen. rewrite (normalize_text_over _ _ Hlen).
  rewrite !slice_to_nonneg by assumption.
  unfold len in *.
  assert (Hk : length (firstn (Z.to_nat max_chars) (collapse_ws text)) = Z.to_nat max_chars)
    by (apply firstn_length_le; lia).
  split.
  - rewrite length_app, Hk. lia.
  - rewrite firstn_app, Hk, Nat.sub_diag. cbn [firstn].
    rewrite app_nil_r. rewrite firstn_firstn. f_equal. lia.
Qed.

Lemma normalize_text_truncation_witness :
  len (normalize_text (u "a  b   c d") 3) = (3 + len TRUNCATION_MARKER)%Z
  /\ slice_to (normalize_text (u "a  b   c d") 3) 3
     = slice_to (collapse_ws (u "a  b   c d")) 3.
Proof. apply normalize_text_truncation; [lia | vm_compute; reflexivity]. Defined.

(** C5.  Within the cap the normalizer is idempotent: when the collapsed,
    trimmed text has at most [n] characters, normalizing twice gives what
    normalizing once gives. *)
Theorem normalize_text_idempotent (text : str) (n : Z) :
  (len (collapse_ws text) <= n)%Z ->
  normalize_text (normalize_text text n) n = normalize_text text n.
Proof.
  intros H. rewrite (normalize_text_within _ _ H).
  rewrite normalize_text_within; rewrite collapse_ws_idem; [reflexivity|exact H].
Qed.

Lemma normalize_text_idempotent_witness :
  normalize_text (normalize_text (u "  a  b ") 5) 5 = normalize_text (u "  a  b ") 5.
Proof. apply normalize_text_idempotent. vm_compute. discriminate. Defined.

(** ** build_image_prompt *)

Lemma contains_cons t c s : contains t (c :: s) = is_prefix t (c :: s) || contains t s.
Proof. reflexivity. Qed.

Lemma contains_nil s : contains [] s = true.
Proof. destruct s; reflexivity. Qed.

Lemma is_prefix_app t p q : is_prefix t p = true -> is_prefix t (p ++ q) = true.
Proof.
  revert p; induction t as [|a t IH]; intros p; [reflexivity|].
  destruct p as [|b p]; [discriminate|]. cbn [is_prefix app].
  intros H. apply andb_prop in H as [-> H]. now rewrite (IH _ H).
Qed.

Lemma contains_app_l t p q : contains t p = true -> contains t (p ++ q) = true.
Proof.
  induction p as [|b p IH].
  - destruct t; [intros _; apply contains_nil|discriminate].
  - cbn [app]. rewrite !contains_cons. intros H.
    apply orb_prop in H as [H|H].
    + pose proof (is_prefix_app _ (b :: p) q H) as E. cbn [app] in E.
      now rewrite E.
    + rewrite (IH H). apply orb_true_r.
Qed.

Lemma contains_app_r t p s : contains t s = true -> contains t (p ++ s) = true.
Proof.
  intros H. induction p as [|b p IH]; [exact H|].
  cbn [app]. rewrite contains_cons, IH. apply orb_true_r.
Qed.

Lemma contains_firstn t n s : contains t (firstn n s) = true -> contains t s = true.
Proof. intros H. rewrite <- (firstn_skipn n s). now apply contains_app_l. Qed.

Lemma contains_strip t s : contains t (strip s) = true -> contains t s = true.
Proof.
  intros H. rewrite (strip_infix s).
  now apply contains_app_r, contains_app_l.
Qed.

(** A prefix that cannot hold the first character of [t] is irrelevant. *)
Lemma contains_skip_prefix h t p s :
  forallb (fun a => negb (h =? a)) p = true ->
  contains (h :: t) (p ++ s) = contains (h :: t) s.
Proof.
  induction p as [|b p IH]; [reflexivity|].
  cbn [forallb app]. intros H. apply andb_prop in H as [Hb Hp].
  rewrite contains_cons. cbn [is_prefix].
  apply negb_true_iff in Hb. rewrite Hb. cbn [andb orb]. now apply IH.
Qed.


Lemma is_prefix_squeeze t s :
  no_space t = true -> is_prefix t (squeeze false s) = true -> is_prefix t s = true.
Proof.
  revert s; induction t as [|a t IH]; intros s Ht; [reflexivity|].
  cbn [no_space forallb] in Ht. apply andb_prop in Ht as [Ha Ht].
  apply negb_true_iff in Ha.
  destruct s as [|c r]; [discriminate|].
  cbn [squeeze]. destruct (isspace c) eqn:Hc; cbn [is_prefix].
  - intros H. apply andb_prop in H as [H _]. apply N.eqb_eq in H. subst a.
    discriminate.
  - intros H. apply andb_prop in H as [-> H]. now rewrite (IH r Ht H).
Qed.

Lemma contains_squeeze t b s :
  no_space t = true -> contains t (squeeze b s) = true -> contains t s = true.
Proof.
  intros Ht. destruct t as [|a t]; [intros _; apply contains_nil|].
  assert (Ha : isspace a = false).
  { cbn [no_space forallb] in Ht. apply andb_prop in Ht as [Ha _].
    now apply negb_true_iff in Ha. }
  revert b; induction s as [|c r IH]; intros b; [discriminate|].
  cbn [squeeze]. destruct (isspace c) eqn:Hc.
  - destruct b.
    + intros H. rewrite contains_cons, (IH _ H). apply orb_true_r.
    + rewrite contains_cons. cbn [is_prefix].
      destruct (N.eqb_spec a SPACE) as [->|_]; [discriminate|].
      cbn [andb orb]. intros H. rewrite contains_cons, (IH _ H). apply orb_true_r.
  - rewrite !contains_cons. intros H. apply orb_prop in H as [H|H].
    + assert (E : squeeze false (c :: r) = c :: squeeze false r)
        by (cbn [squeeze]; now rewrite Hc).
      rewrite <- E in H. now rewrite (is_prefix_squeeze _ _ Ht H).
    + rewrite (IH _ H). apply orb_true_r.
Qed.

Lemma contains_collapse_ws t s :
  no_space t = true -> contains t (collapse_ws s) = true -> contains t s = true.
Proof.
  intros Ht H. unfold collapse_ws in H. rewrite re_sub_ws_eq in H.
  apply contains_strip in H. now apply contains_squeeze in H.
Qed.

Lemma clean_summary_firstn summary :
  clean_summary summary = firstn 400 (collapse_ws summary).
Proof.
  unfold clean_summary. cbv zeta.
  destruct (Z.gtb_spec (len (collapse_ws summary)) 400).
  - now rewrite slice_to_nonneg.
  - symmetry. apply firstn_all2. unfold len in *. lia.
Qed.

Lemma skipn_takewhile {A} (p : A -> bool) l :
  skipn (length (takewhile p l)) l = dropwhile p l.
Proof. induction l as [|x l IH]; simpl; [easy|]. destruct (p x); simpl; congruence. Qed.

Lemma lazy_to_close_body body c rest :
  is_close c = true -> forallb tag_body_char body = true ->
  lazy_to_close (body ++ c :: rest) = Some (S (length body)).
Proof.
  intros Hc. induction body as [|b body IH]; cbn [app forallb lazy_to_close length].
  - now rewrite Hc.
  - intros H. apply andb_prop in H as [Hb H]. unfold tag_body_char in Hb.
    apply andb_prop in Hb as [Hb1 Hb2].
    apply negb_true_iff in Hb1, Hb2. rewrite Hb1, Hb2, (IH H). reflexivity.
Qed.

Lemma lazy_to_close_none r :
  existsb is_close (takewhile (fun c => negb (c =? NEWLINE)) r) = false ->
  lazy_to_close r = None.
Proof.
  induction r as [|c r IH]; [reflexivity|]. cbn [takewhile lazy_to_close].
  destruct (is_close c) eqn:Hc.
  - assert ((c =? NEWLINE) = false) as ->.
    { unfold is_close in Hc. apply N.eqb_neq. intros ->. discriminate. }
    cbn [negb existsb]. now rewrite Hc.
  - destruct (c =? NEWLINE); [reflexivity|]. cbn [negb existsb].
    rewrite Hc. cbn [orb]. intros H. now rewrite (IH H).
Qed.

Lemma strip_lstrip s : strip (dropwhile isspace s) = strip s.
Proof.
  unfold strip, lstrip. now rewrite (dropwhile_id _ (dropwhile_head_ok s)).
Qed.

Lemma skipn_length_app {A} (a b : list A) n :
  skipn (length a + n) (a ++ b) = skipn n b.
Proof. induction a as [|x a IH]; [reflexivity|exact IH]. Qed.

Lemma clean_subject_tagged o body c rest :
  is_open o = true -> is_close c = true -> forallb tag_body_char body = true ->
  clean_subject (o :: body ++ c :: rest) = strip rest.
Proof.
  intros Ho Hc Hb. unfold clean_subject, re_sub_anchored, match_subject_tag.
  rewrite Ho, (lazy_to_close_body _ _ rest Hc Hb).
  assert (E : forall n, skipn (S (length body + n)) (body ++ c :: rest) = skipn n rest).
  { intros n. replace (S (length body + n))%nat with (length body + S n)%nat by lia.
    now rewrite skipn_length_app. }
  replace (S (length body)) with (S (length body + 0)) at 2 by lia.
  rewrite (E 0%nat). cbn [skipn app plus].
  rewrite E, skipn_takewhile. apply strip_lstrip.
Qed.

Lemma clean_subject_tagless s : tagless s = true -> clean_subject s = strip s.
Proof.
  unfold tagless, clean_subject, re_sub_anchored, match_subject_tag.
  destruct s as [|o r]; [reflexivity|].
  destruct (is_open o); [|reflexivity]. cbn [negb orb].
  intros H. apply negb_true_iff in H. now rewrite (lazy_to_close_none _ H).
Qed.

Lemma build_image_prompt_tech_contains summary :
  contains TECH_TAG (build_image_prompt TECH_SUBJECT summary)
  = contains TECH_TAG (clean_summary summary).
Proof.
  assert (E : build_image_prompt TECH_SUBJECT summary
              = (PROMPT_STYLE ++ u "Inspired by: " ++ u "Big news today"
                 ++ u ". " ++ u "Summary: ") ++ clean_summary summary).
  { unfold build_image_prompt.
    assert (clean_subject TECH_SUBJECT = u "Big news today") as -> by (vm_compute; reflexivity).
    now rewrite <- !app_assoc. }
  rewrite E. apply contains_skip_prefix. vm_compute. reflexivity.
Qed.

(** C9 (amended).  A subject that starts with one of [[], [【], [(] and has
    one of []], [】], [)] later on its first line loses everything up to
    the first such closing character (whichever of the three it is) and the
    whitespace after it; any other subject is only trimmed.  The summary is
    whitespace-collapsed and cut to at most 400 characters with no marker.
    For the subject ["【Tech】Big news today"] the prompt contains ["【Tech】"]
    only if the summary itself does. *)
Theorem build_image_prompt_tag_and_cap (o c : char) (body rest summary : str) :
  is_open o = true -> is_close c = true -> forallb tag_body_char body = true ->
  build_image_prompt (o :: body ++ c :: rest) summary
    = prompt_of (strip rest) (firstn 400 (collapse_ws summary))
  /\ (forall subject, tagless subject = true ->
        build_image_prompt subject summary
        = prompt_of (strip subject) (firstn 400 (collapse_ws summary)))
  /\ (length (firstn 400 (collapse_ws summary)) <= 400)%nat
  /\ (contains TECH_TAG (build_image_prompt TECH_SUBJECT summary) = true ->
      contains TECH_TAG summary = true).
Proof.
  intros Ho Hc Hb. repeat split.
  - unfold build_image_prompt, prompt_of.
    now rewrite (clean_subject_tagged _ _ _ _ Ho Hc Hb), clean_summary_firstn.
  - intros subject Hs. unfold build_image_prompt, prompt_of.
    now rewrite (clean_subject_tagless _ Hs), clean_summary_firstn.
  - apply firstn_le_length.
  - rewrite build_image_prompt_tech_contains, clean_summary_firstn. intros H.
    apply contains_firstn in H. now apply contains_collapse_ws in H.
Qed.

Lemma build_image_prompt_tag_and_cap_witness :
  build_image_prompt (91 :: u "Tech" ++ 41 :: u " Big news") (u "a  b")
    = prompt_of (strip (u " Big news")) (firstn 400 (collapse_ws (u "a  b")))
  /\ (forall subject, tagless subject = true ->
        build_image_prompt subject (u "a  b")
        = prompt_of (strip subject) (firstn 400 (collapse_ws (u "a  b"))))
  /\ (length (firstn 400 (collapse_ws (u "a  b"))) <= 400)%nat
  /\ (contains TECH_TAG (build_image_prompt TECH_SUBJECT (u "a  b")) = true ->
      contains TECH_TAG (u "a  b") = true).
Proof.
  apply (build_image_prompt_tag_and_cap 91 41 (u "Tech") (u " Big news") (u "a  b"));
    reflexivity.
Defined.

(** C9 as worded fails twice: with the summary ["【Tech】"] the prompt for
    ["【Tech】Big news today"] contains the tag, and a tag closed by a
    character that does not correspond to its opening one, as in
    ["[Tech) Big news"], is stripped all the same. *)
Lemma build_image_prompt_tag_counterexample :
  contains TECH_TAG (build_image_prompt TECH_SUBJECT TECH_TAG) = true
  /\ clean_subject (u "[Tech) Big news") = u "Big news".
Proof. split; vm_compute; reflexivity. Qed.

(** ** decode_body *)

Ltac settle_tests :=
  repeat match goal with
    | |- context [?a <=? ?b] =>
        first [ replace (a <=? b) with true by (symmetry; apply N.leb_le; lia)
              | replace (a <=? b) with false by (symmetry; apply N.leb_gt; lia) ]
    | |- context [?a <? ?b] =>
        first [ replace (a <? b) with true by (symmetry; apply N.ltb_lt; lia)
              | replace (a <? b) with false by (symmetry; apply N.ltb_ge; lia) ]
    | |- context [?a =? ?b] =>
        first [ replace (a =? b) with true by (symmetry; apply N.eqb_eq; lia)
              | replace (a =? b) with false by (symmetry; apply N.eqb_neq; lia) ]
    end;
  cbn [andb orb negb].

Lemma is_b64url_char_cases c :
  is_b64url_char c = true ->
  (65 <= c <= 90) \/ (97 <= c <= 122) \/ (48 <= c <= 57) \/ c = 45 \/ c = 95.
Proof.
  unfold is_b64url_char. intros H.
  repeat (apply orb_prop in H as [H|H]);
    try (apply andb_prop in H as [H1 H2]; apply N.leb_le in H1, H2);
    try apply N.eqb_eq in H; lia.
Qed.

Lemma b64url_char_value c :
  is_b64url_char c = true ->
  (c <? 128) = true /\ (urlsafe_translate c =? BASE64_PAD) = false
  /\ exists v, b64_value (urlsafe_translate c) = Some v.
Proof.
  intros H. apply is_b64url_char_cases in H.
  unfold urlsafe_translate, b64_value, BASE64_PAD.
  destruct H as [H|[H|[H|[H|H]]]]; try subst c;
    (split; [|split]); settle_tests; eauto.
Qed.

Lemma quad_step q n :
  (q + N.of_nat (S n)) mod 4 = ((q + 1) mod 4 + N.of_nat n) mod 4.
Proof. rewrite N.Div0.add_mod_idemp_l. f_equal. lia. Qed.

(** Data characters move the decoder [length body] places round the group
    of four and leave no pending padding count. *)
Lemma a2b_base64_loop_data body rest q l p out :
  forallb is_b64url_char body = true -> q < 4 ->
  exists l' out',
    a2b_base64_loop (List.map urlsafe_translate body ++ rest) q l p out
    = a2b_base64_loop rest ((q + N.of_nat (length body)) mod 4) l'
        (match body with [] => p | _ => 0 end) out'.
Proof.
  revert q l p out. induction body as [|c body IH]; intros q l p out Hb Hq.
  - exists l, out. cbn [List.map app length]. rewrite N.add_0_r.
    now rewrite N.mod_small.
  - cbn [forallb] in Hb. apply andb_prop in Hb as [Hc Hb].
    destruct (b64url_char_value c Hc) as (_ & Hpad & v & Hv).
    cbn [List.map app a2b_base64_loop length]. rewrite Hpad, Hv, quad_step.
    assert (Hq' : q = 0 \/ q = 1 \/ q = 2 \/ q = 3) by lia.
    destruct Hq' as [ -> | [ -> | [ -> | -> ] ] ]; cbn [N.eqb Pos.eqb].
    + destruct (IH 1 v 0 out Hb ltac:(lia)) as (l' & out' & E).
      exists l', out'. rewrite E. now destruct body.
    + destruct (IH 2 (N.land v 15) 0
                  (out ++ [N.land (N.lor (N.shiftl l 2) (N.shiftr v 4)) 255])
                  Hb ltac:(lia)) as (l' & out' & E).
      exists l', out'. rewrite E. now destruct body.
    + destruct (IH 3 (N.land v 3) 0
                  (out ++ [N.land (N.lor (N.shiftl l 4) (N.shiftr v 2)) 255])
                  Hb ltac:(lia)) as (l' & out' & E).
      exists l', out'. rewrite E. now destruct body.
    + destruct (IH 0 0 0
                  (out ++ [N.land (N.lor (N.shiftl l 6) v) 255])
                  Hb ltac:(lia)) as (l' & out' & E).
      exists l', out'. rewrite E. now destruct body.
Qed.

(** Padding characters after the data: none is needed at a group boundary,
    two complete a group of two and one a group of three. *)
Lemma a2b_base64_loop_pads m q l out :
  (q = 0 \/ (q = 2 /\ (2 <= m)%nat) \/ (q = 3 /\ (1 <= m)%nat)) ->
  a2b_base64_loop (repeat BASE64_PAD m) q l 0 out = Ok out.
Proof.
  intros [ -> | [ [ -> Hm ] | [ -> Hm ] ] ].
  - induction m as [|m IH]; [reflexivity|]. exact IH.
  - destruct m as [|[|m]]; [lia|lia|reflexivity].
  - destruct m as [|m]; [lia|reflexivity].
Qed.

Lemma map_translate_pads m :
  List.map urlsafe_translate (repeat BASE64_PAD m) = repeat BASE64_PAD m.
Proof. induction m as [|m IH]; [reflexivity|]. cbn [repeat List.map]. now rewrite IH. Qed.

Lemma ascii_pads m : forallb is_ascii (repeat BASE64_PAD m) = true.
Proof. induction m as [|m IH]; [reflexivity|exact IH]. Qed.

Lemma ascii_b64url body :
  forallb is_b64url_char body = true -> forallb is_ascii body = true.
Proof.
  induction body as [|c body IH]; [reflexivity|]. cbn [forallb]. intros H.
  apply andb_prop in H as [Hc Hb]. unfold is_ascii at 1.
  destruct (b64url_char_value c Hc) as (-> & _). now apply IH.
Qed.

Lemma urlsafe_b64decode_ok body m :
  forallb is_b64url_char body = true ->
  (length body mod 4 = 0 \/ (length body mod 4 = 2 /\ 2 <= m)
   \/ (length body mod 4 = 3 /\ 1 <= m))%nat ->
  exists b, urlsafe_b64decode (body ++ repeat BASE64_PAD m) = Ok b.
Proof.
  intros Hb Hm. unfold urlsafe_b64decode, a2b_base64.
  rewrite forallb_app, (ascii_b64url _ Hb), ascii_pads. cbn [andb].
  rewrite List.map_app, map_translate_pads.
  destruct (a2b_base64_loop_data body (repeat BASE64_PAD m) 0 0 0 [] Hb ltac:(lia))
    as (l' & out' & E).
  exists out'. rewrite E.
  replace (match body with [] => 0 | _ :: _ => 0 end) with 0 by now destruct body.
  apply a2b_base64_loop_pads. rewrite N.add_0_l.
  assert (E4 : (N.of_nat (length body)) mod 4 = N.of_nat (length body mod 4)).
  { change 4 with (N.of_nat 4). now rewrite <- Nat2N.inj_mod. }
  rewrite E4. lia.
Qed.

(** C3 (amended).  On base64url text -- alphabet characters, not 4k+1 of
    them, followed by any number of [=] -- [decode_body] returns: the
    padding that is missing is computed, and the decoded bytes go through
    the lossy UTF-8 decoding, which has a result for every byte string. *)
Theorem decode_body_base64url (body : str) (k : nat) :
  forallb is_b64url_char body = true ->
  (length body mod 4 <> 1)%nat ->
  exists b : bytes,
    decode_body (body ++ repeat BASE64_PAD k) = Ok (utf8_decode_ignore b).
Proof.
  intros Hb Hlen. unfold decode_body.
  destruct (truthy (body ++ repeat BASE64_PAD k)) eqn:Ht; cbn [negb].
  2:{ now exists []. }
  cbv zeta. rewrite <- app_assoc, <- repeat_app.
  destruct (urlsafe_b64decode_ok body
              (k + Z.to_nat ((- len (body ++ repeat BASE64_PAD k)) mod 4)) Hb)
    as (b & E); [|exists b; now rewrite E].
  - unfold len. rewrite length_app, repeat_length.
    assert (H4 : (length body mod 4 < 4)%nat) by (apply Nat.mod_upper_bound; lia).
    pose proof (Nat.div_mod_eq (length body) 4) as Hd.
    zify. Z.div_mod_to_equations. lia.
Qed.

Lemma decode_body_base64url_witness :
  exists b : bytes, decode_body (u "SGk" ++ repeat BASE64_PAD 0) = Ok (utf8_decode_ignore b).
Proof. apply decode_body_base64url; [reflexivity | vm_compute; lia]. Defined.

(** C3 as worded fails: [decode_body] raises [binascii.Error] on a lone
    alphabet character, whatever padding is computed, and [ValueError] on a
    character outside ASCII. *)
Lemma decode_body_raises_counterexample :
  decode_body (u "A") = Raise BinasciiError /\ decode_body [0xe9] = Raise ValueError.
Proof. split; vm_compute; reflexivity. Qed.

(** ** extract_text_from_payload *)

Section Extractor.
Context `{PyLib}.

Lemma Part_tree_ind (P : Part -> Prop) :
  (forall m d ps, Forall P ps -> P (MkPart m d ps)) -> forall p, P p.
Proof.
  intros step. fix IH 1. intros [m d ps]. apply step.
  induction ps as [|p ps IHps]; constructor; [apply IH|exact IHps].
Qed.

Lemma extract_unfold m d ps :
  extract_text_from_payload (MkPart m d ps) =
  if str_eqb m (u "text/plain") then decode_body d
  else if str_eqb m (u "text/html") then
    s ← decode_body d; clean_html_to_text s
  else
    texts ← extract_parts ps;
    Ok (strip (join [NEWLINE] (List.filter (fun t => truthy (strip t)) texts))).
Proof. reflexivity. Qed.

Lemma plain_leaves_unfold m d ps :
  plain_leaves (MkPart m d ps) =
  if str_eqb m (u "text/plain") then [d]
  else if str_eqb m (u "text/html") then []
  else plain_leaves_parts ps.
Proof. reflexivity. Qed.

Lemma only_plain_unfold m d ps :
  only_plain (MkPart m d ps) =
  if str_eqb m (u "text/plain") then true
  else if str_eqb m (u "text/html") then false
  else only_plain_parts ps.
Proof. reflexivity. Qed.

Lemma decode_all_app a b bodies :
  decode_all (a ++ b) = Ok bodies ->
  exists ba bb, decode_all a = Ok ba /\ decode_all b = Ok bb /\ bodies = ba ++ bb.
Proof.
  revert bodies; induction a as [|d a IH]; intros bodies; cbn [app decode_all].
  - intros E. now exists [], bodies.
  - destruct (decode_body d) as [x|e]; [|discriminate]. cbn.
    destruct (decode_all (a ++ b)) as [r|e] eqn:E; [|discriminate]. cbn.
    intros [= <-]. destruct (IH r eq_refl) as (ba & bb & -> & -> & ->).
    now exists (x :: ba), bb.
Qed.

Lemma trimmed_ends s : trimmed s <-> head_ok s = true /\ head_ok (rev s) = true.
Proof.
  split.
  - intros E. rewrite <- E. split; [apply strip_head_ok|apply strip_last_ok].
  - intros [H1 H2]. now apply strip_id.
Qed.

Lemma head_ok_app x y : truthy x = true -> head_ok (x ++ y) = head_ok x.
Proof. destruct x; [discriminate|reflexivity]. Qed.

Lemma truthy_rev x : truthy (rev x) = truthy x.
Proof.
  destruct x as [|c x]; [reflexivity|]. cbn [rev truthy].
  now destruct (rev x).
Qed.

Lemma join_cons sep x l :
  join sep (x :: l) = match l with [] => x | _ :: _ => x ++ sep ++ join sep l end.
Proof. reflexivity. Qed.

Lemma join_truthy sep l :
  Forall (fun x => truthy x = true) l -> l <> [] -> truthy (join sep l) = true.
Proof.
  intros Hl Hne. destruct Hl as [|x l Hx Hl]; [congruence|].
  rewrite join_cons. destruct l; [exact Hx|].
  destruct x; [discriminate|reflexivity].
Qed.

Lemma join_empty sep l :
  Forall (fun x => truthy x = true) l -> join sep l = [] -> l = [].
Proof.
  intros Hl E. destruct l as [|x l]; [reflexivity|].
  assert (T : truthy (join sep (x :: l)) = true) by (apply join_truthy; easy).
  rewrite E in T. discriminate.
Qed.

Lemma join_app sep a b :
  a <> [] -> b <> [] -> join sep (a ++ b) = join sep a ++ sep ++ join sep b.
Proof.
  intros Ha Hb. induction a as [|x a IH]; [congruence|].
  cbn [app]. rewrite !join_cons. destruct a as [|y a].
  - cbn [app]. now destruct b.
  - cbn [app] in *. rewrite IH by congruence. now rewrite <- !app_assoc.
Qed.

Lemma filter_truthy_all l : Forall (fun x => truthy x = true) (List.filter truthy l).
Proof. apply List.Forall_forall. intros x Hx. now apply filter_In in Hx. Qed.

Lemma join_trimmed l :
  Forall (fun x => truthy x = true) l -> Forall trimmed l ->
  trimmed (join [NEWLINE] l).
Proof.
  intros Ht Hs. apply trimmed_ends.
  induction l as [|x l IH]; [split; reflexivity|].
  apply Forall_cons_iff in Ht as [Hx Ht]. apply Forall_cons_iff in Hs as [Sx Ss].
  apply trimmed_ends in Sx as [Sx1 Sx2].
  rewrite join_cons. destruct l as [|y l]; [now split|].
  destruct (IH Ht Ss) as [_ IH2]. split.
  - now rewrite head_ok_app.
  - rewrite !rev_app_distr, <- app_assoc. rewrite head_ok_app; [exact IH2|].
    rewrite truthy_rev. apply join_truthy; [exact Ht|discriminate].
Qed.

Lemma filter_strip_trimmed l :
  Forall trimmed l ->
  List.filter (fun t => truthy (strip t)) l = List.filter truthy l.
Proof.
  induction 1 as [|x l Hx Hl IH]; [reflexivity|].
  cbn [List.filter]. rewrite Hx, IH. reflexivity.
Qed.

Lemma filter_truthy_trimmed l : Forall trimmed l -> Forall trimmed (List.filter truthy l).
Proof.
  intros Hl. apply List.Forall_forall. intros x Hx. apply filter_In in Hx as [Hx _].
  revert x Hx. now apply List.Forall_forall.
Qed.

(** Joining the joins of two groups is joining the two groups together. *)
Lemma join_group t texts ba bb :
  t = join [NEWLINE] (List.filter truthy ba) ->
  join [NEWLINE] (List.filter truthy texts) = join [NEWLINE] (List.filter truthy bb) ->
  join [NEWLINE] (List.filter truthy (t :: texts))
  = join [NEWLINE] (List.filter truthy (ba ++ bb)).
Proof.
  intros Et E. rewrite List.filter_app. cbn [List.filter].
  pose proof (filter_truthy_all ba) as Fa. pose proof (filter_truthy_all bb) as Fb.
  pose proof (filter_truthy_all texts) as Ft.
  destruct (truthy t) eqn:Tt.
  - assert (Na : List.filter truthy ba <> []).
    { intros Z. rewrite Z in Et. subst t. discriminate. }
    destruct (List.filter truthy texts) as [|y F'] eqn:EF.
    + change (join [NEWLINE] []) with (@nil N) in E.
      symmetry in E. apply join_empty in E; [|exact Fb].
      rewrite E, app_nil_r. exact Et.
    + assert (Nb : List.filter truthy bb <> []).
      { intros Z. rewrite Z in E. change (join [NEWLINE] []) with (@nil N) in E.
        apply join_empty in E; [discriminate|exact Ft]. }
      rewrite (join_app _ _ _ Na Nb), join_cons, E, <- Et. reflexivity.
  - assert (Za : List.filter truthy ba = []).
    { apply (join_empty [NEWLINE]); [exact Fa|]. rewrite <- Et. now destruct t. }
    rewrite Za. exact E.
Qed.

Lemma extract_parts_plain ps :
  Forall (fun p => only_plain p = true -> forall bodies,
            decode_all (plain_leaves p) = Ok bodies -> Forall trimmed bodies ->
            extract_text_from_payload p
            = Ok (join [NEWLINE] (List.filter truthy bodies))) ps ->
  only_plain_parts ps = true ->
  forall bodies,
    decode_all (plain_leaves_parts ps) = Ok bodies -> Forall trimmed bodies ->
    exists texts,
      extract_parts ps = Ok texts /\ Forall trimmed texts
      /\ join [NEWLINE] (List.filter truthy texts)
         = join [NEWLINE] (List.filter truthy bodies).
Proof.
  induction 1 as [|p ps Hp Hps IH]; intros Hop bodies Hd Ht.
  - cbn in Hd. injection Hd as <-. exists []. repeat split. constructor.
  - cbn [only_plain_parts] in Hop. apply andb_prop in Hop as [Hop1 Hop2].
    cbn [plain_leaves_parts] in Hd.
    apply decode_all_app in Hd as (ba & bb & Ha & Hb & ->).
    apply Forall_app in Ht as [Hta Htb].
    destruct (IH Hop2 bb Hb Htb) as (texts & E & Tt & J).
    exists (join [NEWLINE] (List.filter truthy ba) :: texts).
    cbn [extract_parts]. rewrite (Hp Hop1 ba Ha Hta), E. repeat split.
    + constructor; [|exact Tt].
      apply join_trimmed; [apply filter_truthy_all|now apply filter_truthy_trimmed].
    + now apply join_group.
Qed.

Lemma extract_plain_join p :
  only_plain p = true -> forall bodies,
  decode_all (plain_leaves p) = Ok bodies -> Forall trimmed bodies ->
  extract_text_from_payload p = Ok (join [NEWLINE] (List.filter truthy bodies)).
Proof.
  induction p as [m d ps IH] using Part_tree_ind.
  rewrite only_plain_unfold, plain_leaves_unfold, extract_unfold.
  destruct (str_eqb m (u "text/plain")).
  - intros _ bodies Hd _. cbn [decode_all] in Hd.
    destruct (decode_body d) as [b|e]; [|discriminate]. injection Hd as <-.
    cbn [List.filter]. now destruct b.
  - destruct (str_eqb m (u "text/html")); [discriminate|].
    intros Hop bodies Hd Ht.
    destruct (extract_parts_plain ps IH Hop bodies Hd Ht) as (texts & -> & Tt & J).
    cbn. rewrite (filter_strip_trimmed _ Tt), J. f_equal.
    apply join_trimmed; [apply filter_truthy_all|now apply filter_truthy_trimmed].
Qed.

Lemma decode_all_decoded datas bodies :
  decode_all datas = Ok bodies -> bodies = List.map decoded datas.
Proof.
  revert bodies. induction datas as [|d ds IH]; intros bodies; cbn [decode_all List.map].
  - now intros [= <-].
  - unfold decoded at 1. destruct (decode_body d) as [b|e]; [|discriminate]. cbn.
    destruct (decode_all ds) as [bs|e]; [|discriminate]. cbn. intros [= <-].
    now rewrite (IH bs eq_refl).
Qed.

Lemma level_text_unfold m d ps :
  level_text (MkPart m d ps) =
  if str_eqb m (u "text/plain") then decoded d
  else strip (join [NEWLINE]
                (List.filter (fun t => negb (blank t)) (List.map level_text ps))).
Proof. reflexivity. Qed.

Lemma filter_nonblank l :
  List.filter (fun t => truthy (strip t)) l = List.filter (fun t => negb (blank t)) l.
Proof.
  apply filter_ext. intros t. unfold blank. now rewrite negb_involutive.
Qed.

Lemma extract_parts_level ps :
  Forall (fun p => only_plain p = true -> forall bodies,
            decode_all (plain_leaves p) = Ok bodies ->
            extract_text_from_payload p = Ok (level_text p)) ps ->
  only_plain_parts ps = true ->
  forall bodies,
    decode_all (plain_leaves_parts ps) = Ok bodies ->
    extract_parts ps = Ok (List.map level_text ps).
Proof.
  induction 1 as [|p ps Hp Hps IH]; intros Hop bodies Hd; [reflexivity|].
  cbn [only_plain_parts] in Hop. apply andb_prop in Hop as [Hop1 Hop2].
  cbn [plain_leaves_parts] in Hd.
  apply decode_all_app in Hd as (ba & bb & Ha & Hb & ->).
  cbn [extract_parts List.map]. now rewrite (Hp Hop1 ba Ha), (IH Hop2 bb Hb).
Qed.

Lemma extract_level p :
  only_plain p = true -> forall bodies,
  decode_all (plain_leaves p) = Ok bodies ->
  extract_text_from_payload p = Ok (level_text p).
Proof.
  induction p as [m d ps IH] using Part_tree_ind.
  rewrite only_plain_unfold, plain_leaves_unfold, extract_unfold, level_text_unfold.
  destruct (str_eqb m (u "text/plain")).
  - intros _ bodies Hd. cbn [decode_all] in Hd. unfold decoded.
    now destruct (decode_body d).
  - destruct (str_eqb m (u "text/html")); [discriminate|].
    intros Hop bodies Hd. rewrite (extract_parts_level ps IH Hop bodies Hd). cbn.
    now rewrite filter_nonblank.
Qed.

Lemma one_level_children ps :
  forallb is_plain ps = true ->
  List.map level_text ps = List.map decoded (plain_leaves_parts ps).
Proof.
  induction ps as [|[m d qs] ps IH]; [reflexivity|]. cbn [forallb is_plain].
  intros Hp. apply andb_prop in Hp as [Hm Hp].
  cbn [List.map plain_leaves_parts]. rewrite level_text_unfold, plain_leaves_unfold, Hm.
  cbn [app List.map]. now rewrite IH.
Qed.

(** C2 (amended).  On a tree without [text/html] parts whose [text/plain]
    bodies decode, the output is formed level by level: a [text/plain]
    part gives its decoded body as it is, not trimmed, and any other part
    gives the outputs of its children in document order, the blank ones
    dropped, joined with newlines, the join trimmed.  So for a container
    whose children are all [text/plain] parts the output is the trimmed
    newline-join of the decoded bodies that are not blank; for a tree of
    any depth whose decoded bodies have no leading or trailing whitespace
    it is the trimmed newline-join of the bodies that are not empty; and
    with no [text/plain] part at all it is the empty string. *)
Theorem extract_text_plain_tree (tree : Part) (bodies : list str) :
  only_plain tree = true ->
  decode_all (plain_leaves tree) = Ok bodies ->
  extract_text_from_payload tree = Ok (level_text tree)
  /\ (one_level tree = true ->
      extract_text_from_payload tree = Ok (flat_nonblank bodies))
  /\ (Forall trimmed bodies ->
      extract_text_from_payload tree = Ok (flat_text bodies))
  /\ (plain_leaves tree = [] -> extract_text_from_payload tree = Ok []).
Proof.
  intros Hop Hd.
  assert (E : Forall trimmed bodies ->
              extract_text_from_payload tree = Ok (flat_text bodies)).
  { intros Ht. rewrite (extract_plain_join tree Hop bodies Hd Ht). unfold flat_text.
    f_equal. symmetry.
    apply join_trimmed; [apply filter_truthy_all|now apply filter_truthy_trimmed]. }
  split; [exact (extract_level tree Hop bodies Hd)|]. split; [|split; [exact E|]].
  - rewrite (extract_level tree Hop bodies Hd). destruct tree as [m d ps].
    cbn [one_level]. intros H1. apply andb_prop in H1 as [H1 Hc].
    apply andb_prop in H1 as [Hm Hh]. apply negb_true_iff in Hm, Hh.
    rewrite plain_leaves_unfold, Hm, Hh in Hd. apply decode_all_decoded in Hd.
    rewrite level_text_unfold, Hm, (one_level_children ps Hc), <- Hd. reflexivity.
  - intros Hl. rewrite Hl in Hd. cbn in Hd. injection Hd as <-.
    apply E. constructor.
Qed.

End Extractor.

Lemma extract_text_plain_tree_witness :
  @extract_text_from_payload sample_lib padded_row = Ok (level_text padded_row)
  /\ (one_level padded_row = true ->
      @extract_text_from_payload sample_lib padded_row
      = Ok (flat_nonblank [u " a"; u " "; u "b" ++ [10]]))
  /\ (Forall trimmed [u " a"; u " "; u "b" ++ [10]] ->
      @extract_text_from_payload sample_lib padded_row
      = Ok (flat_text [u " a"; u " "; u "b" ++ [10]]))
  /\ (plain_leaves padded_row = [] ->
      @extract_text_from_payload sample_lib padded_row = Ok []).
Proof.
  apply (@extract_text_plain_tree sample_lib padded_row [u " a"; u " "; u "b" ++ [10]]).
  - vm_compute. reflexivity.
  - vm_compute. reflexivity.
Defined.

(** C2 as worded fails: a [text/plain] root is returned as decoded, not
    trimmed (here [" a"]), and an inner container is trimmed before the
    outer join (here ["a "] and ["b"] give ["a\nb"], not ["a \nb"]). *)
Lemma extract_text_untrimmed_counterexample :
  (only_plain padded_leaf = true
   /\ decode_all (plain_leaves padded_leaf) = Ok [u " a"]
   /\ @extract_text_from_payload sample_lib padded_leaf = Ok (u " a")
   /\ @extract_text_from_payload sample_lib padded_leaf <> Ok (flat_text [u " a"]))
  /\ (only_plain padded_tree = true
      /\ decode_all (plain_leaves padded_tree) = Ok [u "a "; u "b"]
      /\ @extract_text_from_payload sample_lib padded_tree = Ok (u "a" ++ [10] ++ u "b")
      /\ @extract_text_from_payload sample_lib padded_tree
         <> Ok (flat_text [u "a "; u "b"])).
Proof. repeat split; try (vm_compute; reflexivity); vm_compute; discriminate. Qed.

(** ** gemini_translate_and_summarize: recovering the model's answer *)

Lemma find_char_split c s i :
  find_char c s = Some i ->
  exists pre post, s = pre ++ c :: post /\ length pre = i.
Proof.
  revert i; induction s as [|x s IH]; intros i; [discriminate|].
  cbn [find_char]. destruct (N.eqb_spec x c) as [->|_].
  - intros [= <-]. now exists [], s.
  - destruct (find_char c s) as [k|]; [|discriminate]. intros [= <-].
    destruct (IH k eq_refl) as (pre & post & -> & <-).
    now exists (x :: pre), post.
Qed.

Lemma rfind_char_split c s k :
  rfind_char c s = Some k ->
  exists a b, s = a ++ c :: b /\ length a = k /\ rfind_char c b = None.
Proof.
  revert k; induction s as [|x s IH]; intros k; [discriminate|].
  cbn [rfind_char]. destruct (rfind_char c s) as [j|] eqn:E.
  - intros [= <-]. destruct (IH j eq_refl) as (a & b & -> & <- & Hb).
    now exists (x :: a), b.
  - destruct (N.eqb_spec x c) as [->|_]; [|discriminate].
    intros [= <-]. now exists [], s.
Qed.

Lemma rfind_char_app c x t k :
  rfind_char c t = Some k -> rfind_char c (x ++ t) = Some (length x + k)%nat.
Proof.
  intros H. induction x as [|y x IH]; [exact H|].
  cbn [app rfind_char length]. now rewrite IH.
Qed.

Lemma rfind_char_last c a b :
  rfind_char c b = None -> rfind_char c (a ++ c :: b) = Some (length a).
Proof.
  intros H. rewrite <- (Nat.add_0_r (length a)). apply rfind_char_app.
  cbn [rfind_char]. now rewrite H, N.eqb_refl.
Qed.

Lemma slice_middle (pre x post : list N) :
  slice (pre ++ x ++ post) (length pre) (length pre + length x) = x.
Proof.
  unfold slice.
  replace (length pre + length x - length pre)%nat with (length x) by lia.
  replace (length pre) with (length pre + 0)%nat at 1 by lia.
  rewrite (skipn_length_app pre (x ++ post) 0), skipn_O.
  rewrite firstn_app, Nat.sub_diag, firstn_all. cbn [firstn]. apply app_nil_r.
Qed.

(** What [search_braces] finds: the text from the first [{] to the last
    [}], which is also the slice [parse_loose_json] retries on. *)
Lemma search_braces_span s m :
  search_braces s = Some m ->
  exists i j mid,
    find_char 123 s = Some i /\ rfind_char 125 s = Some j /\ (i < j)%nat
    /\ m = slice s i (j + 1) /\ m = 123 :: mid ++ [125].
Proof.
  unfold search_braces. destruct (find_char 123 s) as [i|] eqn:Ei; [|discriminate].
  destruct (find_char_split _ _ _ Ei) as (pre & post & -> & <-).
  assert (Es : skipn (S (length pre)) (pre ++ 123 :: post) = post).
  { replace (S (length pre)) with (length pre + 1)%nat by lia.
    exact (skipn_length_app pre (123 :: post) 1%nat). }
  rewrite Es. destruct (rfind_char 125 post) as [k|] eqn:Ek; [|discriminate].
  destruct (rfind_char_split _ _ _ Ek) as (a & b & -> & <- & Hb).
  intros [= <-]. exists (length pre), (length pre + S (length a))%nat, a.
  split; [reflexivity|]. split.
  { apply rfind_char_app. change (123 :: a ++ 125 :: b) with ((123 :: a) ++ 125 :: b).
    now rewrite (rfind_char_last _ _ _ Hb). }
  split; [lia|].
  assert (E : slice (pre ++ 123 :: a ++ 125 :: b) (length pre) (S (length pre) + length a + 1)
              = 123 :: a ++ [125]).
  { pose (x := 123 :: a ++ [125]).
    assert (Ex : 123 :: a ++ 125 :: b = x ++ b)
      by (unfold x; cbn [app]; now rewrite <- app_assoc).
    assert (Lx : (S (length pre) + length a + 1 = length pre + length x)%nat)
      by (unfold x; cbn [length]; rewrite length_app; cbn [length]; lia).
    rewrite Ex, Lx. apply slice_middle. }
  split; [|exact E].
  f_equal. lia.
Qed.

Lemma braced_ends mid :
  find_char 123 (123 :: mid ++ [125]) = Some 0%nat
  /\ rfind_char 125 (123 :: mid ++ [125]) = Some (S (length mid))
  /\ slice (123 :: mid ++ [125]) 0 (S (length mid) + 1) = 123 :: mid ++ [125].
Proof.
  split; [reflexivity|]. split.
  - change (123 :: mid ++ [125]) with ((123 :: mid) ++ 125 :: []).
    now rewrite rfind_char_last.
  - unfold slice. cbn [skipn]. rewrite Nat.sub_0_r. apply firstn_all2.
    cbn [length]. rewrite length_app. cbn. lia.
Qed.

Section Answer.
Context `{PyLib}.

Lemma parse_loose_json_span s i j :
  json_loads s = Raise JSONDecodeError ->
  find_char 123 s = Some i -> rfind_char 125 s = Some j -> (i < j)%nat ->
  json_loads (slice s i (j + 1)) = Raise JSONDecodeError ->
  parse_loose_json s = Raise JSONDecodeError.
Proof.
  intros Hs Hi Hj Hlt Hslice. unfold parse_loose_json.
  rewrite Hs, Hi, Hj. destruct (Nat.ltb_spec i j); [|lia]. exact Hslice.
Qed.

(** C1 (the defect).  Let [cleaned] be the model's answer trimmed and
    without its code fences.  If [json.loads] rejects both [cleaned] and
    the span from its first [{] to its last [}], the parser does not
    return the degraded result: the retry inside the [except] handler
    raises [JSONDecodeError] out of the function. *)
Theorem parse_model_output_raises (text output_text cleaned span : str) :
  truthy (strip output_text) = true ->
  cleaned = re_sub match_fence_close []
              (re_sub_anchored match_fence_open [] (strip output_text)) ->
  json_loads cleaned = Raise JSONDecodeError ->
  search_braces cleaned = Some span ->
  json_loads span = Raise JSONDecodeError ->
  parse_model_output text output_text = Raise JSONDecodeError.
Proof.
  intros Ht -> Hc Hsp Hs. unfold parse_model_output. cbv zeta.
  rewrite Ht. cbn [negb].
  destruct (search_braces_span _ _ Hsp) as (i & j & mid & Hi & Hj & Hlt & E1 & E2).
  rewrite (parse_loose_json_span _ i j Hc Hi Hj Hlt) by now rewrite <- E1.
  rewrite Hsp.
  destruct (braced_ends mid) as (B1 & B2 & B3).
  rewrite E2 in Hs |- *.
  apply (parse_loose_json_span _ 0%nat (S (length mid))); auto; [lia|].
  now rewrite B3.
Qed.

End Answer.

Lemma parse_model_output_raises_witness :
  @parse_model_output sample_lib (u "Hello world") (u "{oops}") = Raise JSONDecodeError.
Proof.
  apply (@parse_model_output_raises sample_lib (u "Hello world") (u "{oops}")
           (u "{oops}") (u "{oops}")); vm_compute; reflexivity.
Defined.

(** ** gemini_translate_and_summarize: the safety block *)

Lemma env_optional e name d : exists v, env e name d false = Ok v.
Proof. unfold env. cbn [andb]. eauto. Qed.

Lemma collect_candidates_safety cs out :
  cs <> [] -> Forall safety_blocked cs -> collect_candidates cs out = None.
Proof.
  intros Hne Hall. destruct Hall as [|c cs Hc _]; [congruence|].
  cbn [collect_candidates]. unfold safety_blocked in Hc.
  now rewrite bool_decide_eq_true_2.
Qed.

Section Invoker.
Context `{PyLib}.

(** The text call changes the world by one logged request only. *)
Lemma gemini_text_effects setup text w r w' :
  gemini_translate_and_summarize setup text w = (r, w') ->
  files w' = files w /\ image_requests w' = image_requests w.
Proof.
  unfold gemini_translate_and_summarize, io_bind, lift.
  destruct (env (environ setup) (u "GEMINI_API_KEY") None true) as [key|e].
  2:{ intros [= <- <-]. now split. }
  destruct (env_optional (environ setup) (u "GEMINI_TEXT_MODEL")
              (Some (u "gemini-2.5-flash"))) as [model ->].
  cbv beta iota zeta.
  destruct (negb _).
  - intros [= <- <-]. now split.
  - destruct (collect_candidates _ _); intros [= <- <-]; now split.
Qed.

(** C6.  When the request is answered (HTTP 200) with at least one
    candidate and every candidate is safety-blocked, the invoker returns
    the degraded result with the safety diagnostic; nothing is raised. *)
Theorem gemini_safety_blocked_degraded (setup : Setup) (text key : str) (w : World) :
  env (environ setup) (u "GEMINI_API_KEY") None true = Ok key ->
  text_status_code (text_reply setup w text) = 200%Z ->
  candidates (text_reply setup w text) <> [] ->
  Forall safety_blocked (candidates (text_reply setup w text)) ->
  fst (gemini_translate_and_summarize setup text w)
  = Ok (JObj [(u "language", JStr (u "unknown"));
              (u "translated_text", JStr text);
              (u "summary_zh_tw", JStr SUMMARY_SAFETY)]).
Proof.
  intros Hkey Hst Hne Hall.
  unfold gemini_translate_and_summarize, io_bind, lift. rewrite Hkey.
  destruct (env_optional (environ setup) (u "GEMINI_TEXT_MODEL")
              (Some (u "gemini-2.5-flash"))) as [model ->].
  cbv beta iota zeta. fold (text_reply setup w text).
  rewrite Hst, (collect_candidates_safety _ _ Hne Hall). reflexivity.
Qed.

(** A reply with no candidate at all is not a safety block for the
    program: it is an empty answer. *)
Lemma gemini_no_candidate_empty (setup : Setup) (text key : str) (w : World) :
  env (environ setup) (u "GEMINI_API_KEY") None true = Ok key ->
  text_status_code (text_reply setup w text) = 200%Z ->
  candidates (text_reply setup w text) = [] ->
  fst (gemini_translate_and_summarize setup text w) = Ok (degraded text SUMMARY_EMPTY).
Proof.
  intros Hkey Hst Hnone.
  unfold gemini_translate_and_summarize, io_bind, lift. rewrite Hkey.
  destruct (env_optional (environ setup) (u "GEMINI_TEXT_MODEL")
              (Some (u "gemini-2.5-flash"))) as [model ->].
  cbv beta iota zeta. fold (text_reply setup w text).
  rewrite Hst, Hnone. reflexivity.
Qed.

End Invoker.

Lemma gemini_safety_blocked_degraded_witness :
  fst (@gemini_translate_and_summarize sample_lib (sample_setup safety_reply)
         (u "Hello world") empty_world)
  = Ok (JObj [(u "language", JStr (u "unknown"));
              (u "translated_text", JStr (u "Hello world"));
              (u "summary_zh_tw", JStr SUMMARY_SAFETY)]).
Proof.
  apply (@gemini_safety_blocked_degraded sample_lib (sample_setup safety_reply)
           (u "Hello world") (u "key") empty_world).
  - vm_compute. reflexivity.
  - reflexivity.
  - discriminate.
  - repeat constructor.
Defined.

(** ** The per-message loop *)

Ltac io_cases H :=
  repeat match type of H with
    | context [match ?x with _ => _ end] =>
        let E := fresh "E" in destruct x eqn:E; try discriminate H
    end.

Lemma generate_image_effects setup prompt path w r w' :
  generate_image setup prompt path w = (r, w') ->
  text_requests w' = text_requests w
  /\ ((image_requests w' = image_requests w /\ files w' = files w)
      \/ image_requests w' = image_requests w ++ [(prompt, path)])
  /\ (r = Ok tt ->
      image_requests w' = image_requests w ++ [(prompt, path)]
      /\ files w' = {[ path ]} ∪ files w).
Proof.
  unfold generate_image, io_bind, lift.
  destruct (env (environ setup) (u "GEMINI_API_KEY") None true) as [key|e].
  2:{ intros [= <- <-]. repeat split; auto; discriminate. }
  destruct (env_optional (environ setup) (u "GEMINI_IMAGE_MODEL")
              (Some (u "imagen-3.0-generate-002"))) as [model ->].
  destruct (env_optional (environ setup) (u "GEMINI_IMAGE_SIZE")
              (Some (u "1024x1024"))) as [size ->].
  cbv beta iota zeta. intros Hrun. io_cases Hrun;
    injection Hrun as <- <-; cbn [files text_requests image_requests];
    repeat split; auto; discriminate.
Qed.

Section Loop.
Context `{PyLib}.

Lemma truthy_str_or a b : truthy b = true -> truthy (str_or a b) = true.
Proof. unfold str_or. now destruct (truthy a) eqn:E. Qed.

(** What the image block does to the world: nothing, or -- images
    enabled and no file at the path -- one request to the collaborator,
    and on success a file at the path. *)
Lemma image_gate_effects setup msg_id subject summary translated w r w' :
  image_gate setup msg_id subject summary translated w = (r, w') ->
  text_requests w' = text_requests w
  /\ ((image_requests w' = image_requests w /\ files w' = files w)
      \/ (enable_images setup = true /\ (image_path setup msg_id ∉ files w)
          /\ image_requests w'
             = image_requests w
               ++ [(build_image_prompt subject (str_or summary translated),
                    image_path setup msg_id)]
          /\ (forall p, r = Ok p -> image_path setup msg_id ∈ files w')))
  /\ (image_path setup msg_id ∈ files w -> w' = w)
  /\ (forall p, r = Ok p ->
       p = if enable_images setup then u "images/" ++ msg_id ++ u ".png" else [])
  /\ (enable_images setup = true -> image_path setup msg_id ∉ files w ->
      forall p, r = Ok p ->
      image_requests w'
      = image_requests w
        ++ [(build_image_prompt subject (str_or summary translated),
             image_path setup msg_id)]
      /\ image_path setup msg_id ∈ files w').
Proof.
  unfold image_gate, io_bind, io_ret, os_path_exists.
  destruct (enable_images setup) eqn:En.
  2:{ intros [= <- <-]. repeat split; auto; try discriminate. now intros p [= <-]. }
  destruct (bool_decide (image_path setup msg_id ∈ files w)) eqn:Ex; cbn [negb].
  - intros [= <- <-]. apply bool_decide_eq_true_1 in Ex.
    repeat split; auto; try contradiction. now intros p [= <-].
  - apply bool_decide_eq_false_1 in Ex.
    destruct (generate_image _ _ _ w) as [g wg] eqn:Eg.
    destruct (generate_image_effects _ _ _ _ _ _ Eg) as (Ht & Hi & Hok).
    destruct g as [[]|e]; intros [= <- <-].
    + destruct (Hok eq_refl) as [Hreq Hfiles].
      assert (Hin : image_path setup msg_id ∈ files wg).
      { rewrite Hfiles. apply elem_of_union. left. now apply elem_of_singleton. }
      split; [exact Ht|]. split; [right; repeat split; auto|].
      split; [intros Hin'; contradiction|].
      split; [now intros p [= <-]|]. now intros _ _ p _.
    + split; [exact Ht|]. split.
      { destruct Hi as [Hi|Hi]; [now left|].
        right. repeat split; auto. discriminate. }
      split; [intros Hin; contradiction|].
      split; [discriminate|]. intros _ _ p. discriminate.
Qed.

Ltac use_effects :=
  repeat match goal with
    | E : gemini_translate_and_summarize _ _ _ = _ |- _ =>
        apply gemini_text_effects in E as [? ?]
    | E : image_gate _ _ _ _ _ _ = _ |- _ =>
        apply image_gate_effects in E as (? & ? & ? & ? & ?)
    end.

(** One message sends at most one image request, and only when images
    are enabled and no file exists at the image's path. *)
Lemma process_message_effects setup msg_id w r w' :
  process_message setup msg_id w = (r, w') ->
  (image_requests w' = image_requests w /\ files w' = files w)
  \/ (enable_images setup = true /\ (image_path setup msg_id ∉ files w)
      /\ (exists prompt,
            image_requests w' = image_requests w ++ [(prompt, image_path setup msg_id)])
      /\ (forall e, r = Ok (Some e) -> image_path setup msg_id ∈ files w')).
Proof.
  unfold process_message, io_bind, lift, io_ret.
  intros Hrun. io_cases Hrun; injection Hrun as <- <-; use_effects;
    try (left; split; congruence).
  all: match goal with
       | D : _ \/ _ |- _ => destruct D as [[D1 D2]|(D1 & D2 & D3 & D4)]
       end.
  all: try (left; split; congruence).
  all: right; repeat split; auto; try congruence.
  all: try (eexists; rewrite D3; f_equal; congruence).
  all: try (intros e0 _; eapply D4; reflexivity).
  all: try discriminate.
Qed.

Lemma process_message_some setup msg_id w e w' :
  process_message setup msg_id w = (Ok (Some e), w') ->
  entry_filled setup e
  /\ (enable_images setup = true ->
      build_thumb_html setup (u "images/" ++ msg_id ++ u ".png") (entry_subject e)
      = Ok (thumb_html e)).
Proof.
  unfold process_message, io_bind, lift, io_ret.
  intros Hrun. io_cases Hrun. injection Hrun as <- <-.
  match goal with E : negb (truthy ?raw) = false |- _ =>
    apply negb_false_iff in E; rename E into Hraw end.
  cbn [original_text translated_text summary_zh_tw entry_subject thumb_html].
  split.
  - unfold entry_filled.
    cbn [original_text translated_text summary_zh_tw].
    split; [exact Hraw|]. split; [now apply truthy_str_or|].
    split; [now apply truthy_str_or|].
    match goal with
    | E : gemini_translate_and_summarize _ _ ?w0 = (Ok ?ai, ?w1) |- _ =>
        exists w0, ai, w1; split; [exact E|]
    end.
    unfold entry_from_answer. cbn [original_text translated_text summary_zh_tw].
    match goal with
    | E1 : ai_get _ (u "translated_text") = Ok _, E2 : normalize_value _ DEFAULT_MAX_CHARS = Ok ?t,
      E3 : ai_get _ (u "summary_zh_tw") = Ok _, E4 : normalize_value _ 4000 = Ok ?s |- _ =>
        exists t, s; rewrite E1, E3; cbn; rewrite E2, E4; auto
    end.
  - intros En.
    match goal with
    | E : image_gate _ _ _ _ _ _ = (Ok ?p, _) |- _ =>
        apply image_gate_effects in E as (_ & _ & _ & Hp & _);
        specialize (Hp p eq_refl); rewrite En in Hp; subst p
    end.
    assumption.
Qed.


(** C7.  A message whose extracted and normalized text is empty is
    skipped: the world is left as it was (no request to either
    collaborator, no file) and the entry list is not extended. *)
Theorem empty_message_skipped setup msg_id msg raw rest entries w :
  gmail_message setup msg_id = Ok msg ->
  extract_text_from_payload (payload msg) = Ok raw ->
  normalize_text raw DEFAULT_MAX_CHARS = [] ->
  process_message setup msg_id w = (Ok None, w)
  /\ main_loop setup (msg_id :: rest) entries w = main_loop setup rest entries w.
Proof.
  intros Hmsg Hraw Hempty.
  assert (E : process_message setup msg_id w = (Ok None, w)).
  { unfold process_message, io_bind, lift, io_ret. now rewrite Hmsg, Hraw, Hempty. }
  split; [exact E|].
  cbn [main_loop]. unfold io_bind at 1. now rewrite E.
Qed.

Lemma main_loop_filled setup ids entries0 w entries w' :
  Forall (entry_filled setup) entries0 ->
  main_loop setup ids entries0 w = (Ok entries, w') ->
  Forall (entry_filled setup) entries.
Proof.
  revert entries0 w. induction ids as [|msg_id ids IH]; intros entries0 w H0.
  - cbn [main_loop]. unfold io_ret. now intros [= <- <-].
  - cbn [main_loop]. unfold io_bind at 1.
    destruct (process_message setup msg_id w) as [[[e|]|x] w1] eqn:E;
      [| |discriminate].
    + apply (IH _ w1). apply Forall_app. split; [exact H0|].
      constructor; [|constructor]. now apply process_message_some in E.
    + now apply (IH _ w1).
Qed.

(** C10.  Every record of the entry list a run of the loop returns has a
    non-empty [original_text], [translated_text] and [summary_zh_tw]; the
    last two are the normalized fields of the invoker's answer for the
    original text, replaced by the original text and by ["(無摘要)"] when
    empty. *)
Theorem main_loop_entries_filled setup ids w entries w' :
  main_loop setup ids [] w = (Ok entries, w') ->
  Forall (entry_filled setup) entries.
Proof. apply main_loop_filled. constructor. Qed.


End Loop.

Lemma empty_message_skipped_witness :
  @process_message sample_lib (sample_setup json_reply) (u "A") empty_world
  = (Ok None, empty_world)
  /\ @main_loop sample_lib (sample_setup json_reply) [u "A"; u "B"] [] empty_world
     = @main_loop sample_lib (sample_setup json_reply) [u "B"] [] empty_world.
Proof.
  apply (@empty_message_skipped sample_lib (sample_setup json_reply) (u "A")
           empty_message [] [u "B"] [] empty_world); reflexivity.
Defined.

Lemma main_loop_entries_filled_witness :
  exists entries w',
    @main_loop sample_lib (sample_setup json_reply) [u "A"; u "B"] [] empty_world
    = (Ok entries, w')
    /\ length entries = 1%nat
    /\ Forall (@entry_filled sample_lib (sample_setup json_reply)) entries.
Proof.
  eexists _, _. split; [vm_compute; reflexivity|]. split; [reflexivity|].
  eapply (@main_loop_entries_filled sample_lib (sample_setup json_reply)
            [u "A"; u "B"] empty_world).
  vm_compute. reflexivity.
Defined.


(** ** json.loads: the fuel of the decoder is never exhausted *)

Module JSONFacts.
Import JSON.

Lemma skip_ws_length s : (length (skip_ws s) <= length s)%nat.
Proof.
  unfold skip_ws. induction s as [|c r IH]; cbn [dropwhile]; [lia|].
  destruct (is_ws c); cbn [length] in *; lia.
Qed.

Lemma after_length lit s rest :
  after lit s = Some rest -> (length rest + length lit = length s)%nat.
Proof.
  revert s; induction lit as [|a lit IH]; intros s; cbn [after].
  - intros [= <-]. cbn. lia.
  - destruct s as [|b s]; [discriminate|]. destruct (a =? b); [|discriminate].
    intros E. apply IH in E. cbn [length]. lia.
Qed.

Lemma match_number_positive s n : match_number s = Some n -> (1 <= n)%nat.
Proof.
  unfold match_number. cbv zeta.
  destruct (skipn _ s) as [|c r]; [discriminate|].
  destruct ((49 <=? c) && (c <=? 57)); [intros [= <-]; lia|].
  destruct (c =? 48); [intros [= <-]; lia|discriminate].
Qed.

Lemma scanstring_shorter n :
  forall s v rest, (length s <= n)%nat -> scanstring s = Some (v, rest) ->
  (length rest < length s)%nat.
Proof.
  induction n as [|n IH]; intros s v rest Hn Hs.
  - destruct s; [discriminate|cbn in Hn; lia].
  - destruct s as [|c r]; [discriminate|]. cbn [scanstring] in Hs. cbv zeta in Hs.
    io_cases Hs; injection Hs as <- <-; cbn [length] in *;
      repeat match goal with
        | E : scanstring ?x = Some (_, ?y) |- _ =>
            apply IH in E; [|cbn [length] in *; lia]
        end;
      cbn [length] in *; lia.
Qed.

Lemma after_shorter lit s rest :
  (1 <= length lit)%nat -> after lit s = Some rest -> (length rest < length s)%nat.
Proof. intros Hl E. apply after_length in E. lia. Qed.

Lemma skipn_shorter (s : list N) n :
  (1 <= n)%nat -> (1 <= length s)%nat -> (length (skipn n s) < length s)%nat.
Proof. intros Hn Hs. rewrite length_skipn. lia. Qed.

(** Facts on lengths from the equations a case analysis leaves behind. *)
Ltac ws_facts :=
  repeat match goal with
    | H : context [skip_ws ?r] |- _ =>
        lazymatch goal with
        | _ : (length (skip_ws r) <= length r)%nat |- _ => fail
        | _ => pose proof (skip_ws_length r)
        end
    | |- context [skip_ws ?r] =>
        lazymatch goal with
        | _ : (length (skip_ws r) <= length r)%nat |- _ => fail
        | _ => pose proof (skip_ws_length r)
        end
    end.

Ltac lengths :=
  ws_facts;
  repeat match goal with
    | E : skip_ws ?r = _ |- _ => rewrite E in *; clear E
    | E : after ?lit _ = Some _ |- _ =>
        apply (after_shorter lit) in E; [|vm_compute; lia]
    | E : after _ _ = None |- _ => clear E
    | E : scanstring _ = Some _ |- _ =>
        apply (scanstring_shorter _ _ _ _ (le_n _)) in E
    | E : match_number _ = Some _ |- _ => apply match_number_positive in E
    end;
  cbn [length] in *.


Lemma scan_once_step fuel :
  members_bound fuel -> items_bound fuel -> scan_bound (S fuel).
Proof.
  intros HM HI s. destruct s as [|c r]; [split; [discriminate|discriminate]|].
  split.
  - intros v rest Hs. cbn [scan_once] in Hs.
    io_cases Hs; try (injection Hs as <- <-); lengths;
      try (apply HM in Hs); try (apply HI in Hs); cbn [length] in *; try lia.
    all: apply skipn_shorter; cbn [length]; lia.
  - intros Hf. cbn [scan_once].
    repeat match goal with
      | |- context [match ?x with _ => _ end] => destruct x eqn:?
      end; try discriminate; lengths.
    + apply HM. cbn [length] in *. lia.
    + apply HI. cbn [length] in *. lia.
Qed.

Ltac use_scan HS :=
  repeat match goal with
    | E : scan_once _ ?s = Parsed _ _ |- _ => apply HS in E
    end.

Lemma parse_members_step fuel :
  scan_bound fuel -> members_bound fuel -> members_bound (S fuel).
Proof.
  intros HS HM s acc. destruct s as [|q r]; [split; discriminate|].
  split.
  - intros v rest Hs. cbn [parse_members] in Hs.
    io_cases Hs; try (injection Hs as <- <-); try (apply HM in Hs);
      ws_facts; use_scan HS; lengths; lia.
  - intros Hf. cbn [parse_members].
    repeat match goal with
      | |- context [match ?x with _ => _ end] => destruct x eqn:?
      end; try discriminate.
    + apply HM. ws_facts. use_scan HS. lengths. lia.
    + match goal with E : scan_once _ ?x = OutOfFuel |- _ =>
        exfalso; revert E; apply HS end.
      lengths. lia.
Qed.

Lemma parse_items_step fuel :
  scan_bound fuel -> items_bound fuel -> items_bound (S fuel).
Proof.
  intros HS HI s acc. split.
  - intros v rest Hs. cbn [parse_items] in Hs.
    io_cases Hs; try (injection Hs as <- <-); try (apply HI in Hs);
      ws_facts; use_scan HS; lengths; lia.
  - intros Hf. cbn [parse_items].
    repeat match goal with
      | |- context [match ?x with _ => _ end] => destruct x eqn:?
      end; try discriminate.
    + apply HI. ws_facts. use_scan HS. lengths. lia.
    + match goal with E : scan_once _ ?x = OutOfFuel |- _ =>
        exfalso; revert E; apply HS end.
      lia.
Qed.

Lemma decoder_bounds fuel : scan_bound fuel /\ members_bound fuel /\ items_bound fuel.
Proof.
  induction fuel as [|fuel (HS & HM & HI)].
  - repeat split; try discriminate; cbn; lia.
  - split; [now apply scan_once_step|].
    split; [now apply parse_members_step|now apply parse_items_step].
Qed.

(** With the fuel [loads] gives it, the decoder always ends with a value
    or a syntax error. *)
Lemma scan_once_fuel s : scan_once (2 * length s + 1) (skip_ws s) <> OutOfFuel.
Proof.
  apply (decoder_bounds (2 * length s + 1)).
  pose proof (skip_ws_length s). lia.
Qed.

End JSONFacts.

(** ** The model at work *)

Example decode_body_hello : decode_body (u "SGVsbG8gd29ybGQ") = Ok (u "Hello world").
Proof. vm_compute. reflexivity. Qed.

Example normalize_text_collapses :
  normalize_text (u "  a" ++ [10; 9] ++ u "b  ") DEFAULT_MAX_CHARS = u "a b".
Proof. vm_compute. reflexivity. Qed.

Example normalize_text_cuts :
  normalize_text (u "abcdef") 4 = u "abcd" ++ TRUNCATION_MARKER.
Proof. vm_compute. reflexivity. Qed.

(** An answer without braces that is not JSON gives the degraded result. *)
Example prose_answer_degraded :
  fst (@gemini_translate_and_summarize sample_lib (sample_setup prose_reply)
         (u "Hello world") empty_world)
  = Ok (degraded (u "Hello world") SUMMARY_UNPARSED).
Proof. vm_compute. reflexivity. Qed.

(** An answer with braces that is not JSON aborts the call. *)
Example broken_answer_raises :
  fst (@gemini_translate_and_summarize sample_lib (sample_setup broken_reply)
         (u "Hello world") empty_world)
  = Raise JSONDecodeError.
Proof. vm_compute. reflexivity. Qed.

(** An answer whose braces hold an integer of 4301 digits aborts the call
    with the [ValueError] of [json.loads], which no handler catches. *)
Example overlong_answer_raises :
  @parse_model_output sample_lib (u "Hello world")
    (u "Sure: {" ++ quoted (u "n") ++ u ": " ++ repeat 49 4301 ++ u "}")
  = Raise ValueError.
Proof. vm_compute. reflexivity. Qed.

(** Three [text/plain] children decoding to [" a"], [" "] and ["b\n"]:
    the blank one is dropped and the join is trimmed. *)
Example padded_row_text :
  @extract_text_from_payload sample_lib padded_row = Ok (u "a" ++ [10] ++ u "b")
  /\ level_text padded_row = u "a" ++ [10] ++ u "b"
  /\ flat_nonblank [u " a"; u " "; u "b" ++ [10]] = u "a" ++ [10] ++ u "b".
Proof. repeat split; vm_compute; reflexivity. Qed.

(** A run over an empty message and a message with text: one record, one
    text request, one image request. *)
Example main_loop_run :
  exists e w',
    @main_loop sample_lib (sample_setup json_reply) [u "A"; u "B"] [] empty_world
    = (Ok [e], w')
    /\ entry_id e = u "B"
    /\ original_text e = u "Hello world"
    /\ translated_text e = [0x4f60; 0x597d]
    /\ summary_zh_tw e = NO_SUMMARY
    /\ category e = u "Tech"
    /\ length (text_requests w') = 1%nat
    /\ image_requests w'
       = [(build_image_prompt (u "[Tech] Big news today") [0x4f60; 0x597d],
           u "/app/src/../public/images/B.png")].
Proof. eexists _, _. split; [vm_compute; reflexivity|]. repeat split. Qed.

(* ===================================================================== *)
(** * Properties beyond the specification                                 *)
(* ===================================================================== *)

(** ** normalize_text *)

Lemma squeeze_app b p x :
  squeeze b (p ++ x) = squeeze b p ++ squeeze (ends_space b p) x.
Proof.
  revert b; induction p as [|c p IH]; intros b; [reflexivity|].
  cbn [app squeeze ends_space]. destruct (isspace c).
  - destruct b; cbn [app]; now rewrite IH.
  - cbn [app]. now rewrite IH.
Qed.

Lemma squeeze_marker b :
  squeeze b TRUNCATION_MARKER = (if b then [] else [SPACE]) ++ MARKER_WORD.
Proof. destruct b; vm_compute; reflexivity. Qed.

Lemma forallb_isspace_squeeze b s : forallb isspace (squeeze b s) = forallb isspace s.
Proof.
  revert b; induction s as [|c s IH]; intros b; [reflexivity|].
  cbn [squeeze forallb]. destruct (isspace c) eqn:Hc.
  - destruct b; cbn [forallb andb]; [apply IH|].
    change (isspace SPACE) with true. cbn [andb]. apply IH.
  - cbn [forallb]. now rewrite Hc.
Qed.

Lemma dropwhile_all {A} (p : A -> bool) l : forallb p l = true -> dropwhile p l = [].
Proof.
  induction l as [|x l IH]; [reflexivity|]. cbn [forallb dropwhile].
  intros H. apply andb_prop in H as [-> H]. now apply IH.
Qed.

Lemma strip_empty_iff s : strip s = [] <-> forallb isspace s = true.
Proof.
  split.
  - intros E. rewrite (strip_infix s), E. cbn [app].
    rewrite forallb_app, takewhile_all, forallb_rev, takewhile_all. reflexivity.
  - intros H. unfold strip, lstrip. now rewrite (dropwhile_all _ _ H).
Qed.

Lemma collapse_ws_empty_iff s : collapse_ws s = [] <-> forallb isspace s = true.
Proof.
  unfold collapse_ws. rewrite re_sub_ws_eq, strip_empty_iff.
  now rewrite forallb_isspace_squeeze.
Qed.

Lemma head_ok_firstn n s : head_ok s = true -> head_ok (firstn n s) = true.
Proof. destruct s, n; auto. Qed.

(** The collapse of a kept prefix followed by the marker: the prefix again,
    then the marker's word, after a space if the prefix does not end in
    one. *)
Lemma collapse_truncated text n :
  exists tail,
    collapse_ws (firstn n (collapse_ws text) ++ TRUNCATION_MARKER)
    = firstn n (collapse_ws text) ++ tail
    /\ (1 <= length tail)%nat.
Proof.
  set (c := collapse_ws text). set (p := firstn n c).
  assert (Hsp : spaced false p = true).
  { apply (spaced_prefix p (skipn n c)). unfold p. rewrite firstn_skipn.
    apply collapse_ws_spaced. }
  assert (Hhd : head_ok p = true) by (apply head_ok_firstn, strip_head_ok).
  unfold collapse_ws at 1. rewrite re_sub_ws_eq, squeeze_app, (squeeze_spaced _ _ Hsp).
  rewrite squeeze_marker. destruct p as [|x p'] eqn:Ep.
  - exists MARKER_WORD. cbn [ends_space app]. split; [vm_compute; reflexivity|cbn; lia].
  - exists ((if ends_space false (x :: p') then [] else [SPACE]) ++ MARKER_WORD).
    split; [|rewrite length_app; change (length MARKER_WORD) with 7%nat; lia].
    apply strip_id; [exact Hhd|].
    rewrite !rev_app_distr. reflexivity.
Qed.

(** X1.  For a non-negative cap the normalizer is idempotent on every
    text, also when it truncates: the marker is collapsed, cut away with
    the surplus and appended again. *)
Theorem normalize_text_idempotent_always (text : str) (n : Z) :
  (0 <= n)%Z ->
  normalize_text (normalize_text text n) n = normalize_text text n.
Proof.
  intros Hn. destruct (Z.le_gt_cases (len (collapse_ws text)) n) as [Hle|Hgt].
  - rewrite (normalize_text_within _ _ Hle).
    rewrite normalize_text_within; rewrite collapse_ws_idem; [reflexivity|exact Hle].
  - assert (Hgt' : (len (collapse_ws text) > n)%Z) by lia.
    rewrite (normalize_text_over _ _ Hgt'), (slice_to_nonneg _ _ Hn).
    destruct (collapse_truncated text (Z.to_nat n)) as (tail & E & Ht).
    assert (Hp : length (firstn (Z.to_nat n) (collapse_ws text)) = Z.to_nat n)
      by (apply firstn_length_le; unfold len in *; lia).
    rewrite normalize_text_over; rewrite E.
    + rewrite (slice_to_nonneg _ _ Hn), firstn_app, Hp, Nat.sub_diag.
      cbn [firstn]. now rewrite app_nil_r, firstn_firstn, Nat.min_id.
    + unfold len. rewrite length_app, Hp. lia.
Qed.

Lemma normalize_text_idempotent_always_witness :
  normalize_text (normalize_text (u "a  b   c d") 3) 3 = normalize_text (u "a  b   c d") 3.
Proof. apply normalize_text_idempotent_always. lia. Defined.

(** X2.  For a non-negative cap the normalizer returns the empty string
    exactly on the texts made of whitespace only (the empty text among
    them): these are the messages the loop skips. *)
Theorem normalize_text_empty_iff (text : str) (n : Z) :
  (0 <= n)%Z ->
  (normalize_text text n = [] <-> forallb isspace text = true).
Proof.
  intros Hn. rewrite <- collapse_ws_empty_iff.
  destruct (Z.le_gt_cases (len (collapse_ws text)) n) as [Hle|Hgt].
  - now rewrite (normalize_text_within _ _ Hle).
  - assert (Hgt' : (len (collapse_ws text) > n)%Z) by lia.
    rewrite (normalize_text_over _ _ Hgt'). split.
    + intros E. apply app_eq_nil in E as [_ E]. discriminate.
    + intros E. rewrite E in Hgt. unfold len in Hgt. cbn [length] in Hgt. lia.
Qed.

Lemma normalize_text_empty_iff_witness :
  normalize_text [32; 10; 9; 0x3000] 12000 = [] <-> forallb isspace [32; 10; 9; 0x3000] = true.
Proof. apply normalize_text_empty_iff. lia. Defined.

(** X3.  For a non-negative cap the result never has more than the cap
    plus the marker's nine characters, and what survives within the cap
    has no whitespace but single U+0020 spaces between words: no line
    break, no tab, no leading or trailing blank. *)
Theorem normalize_text_shape (text : str) (n : Z) :
  (0 <= n)%Z ->
  (len (normalize_text text n) <= n + 9)%Z
  /\ ((len (collapse_ws text) <= n)%Z ->
      spaced false (normalize_text text n) = true
      /\ strip (normalize_text text n) = normalize_text text n).
Proof.
  intros Hn. split.
  - destruct (Z.le_gt_cases (len (collapse_ws text)) n) as [Hle|Hgt].
    + rewrite (normalize_text_within _ _ Hle). lia.
    + assert (Hgt' : (len (collapse_ws text) > n)%Z) by lia.
      rewrite (normalize_text_over _ _ Hgt'), (slice_to_nonneg _ _ Hn).
      unfold len in *. rewrite length_app, firstn_length_le by lia.
      change (length TRUNCATION_MARKER) with 9%nat. lia.
  - intros Hle. rewrite (normalize_text_within _ _ Hle). split.
    + apply collapse_ws_spaced.
    + apply strip_id; [apply strip_head_ok|apply strip_last_ok].
Qed.

Lemma normalize_text_shape_witness :
  (len (normalize_text (u " a  b ") 5) <= 5 + 9)%Z
  /\ ((len (collapse_ws (u " a  b ")) <= 5)%Z ->
      spaced false (normalize_text (u " a  b ") 5) = true
      /\ strip (normalize_text (u " a  b ") 5) = normalize_text (u " a  b ") 5).
Proof. apply normalize_text_shape. lia. Defined.

(** ** build_image_prompt: the size of the prompt *)

Lemma strip_length s : (length (strip s) <= length s)%nat.
Proof. rewrite (strip_infix s) at 2. rewrite !length_app. lia. Qed.

Lemma clean_subject_length subject : (length (clean_subject subject) <= length subject)%nat.
Proof.
  unfold clean_subject, re_sub_anchored.
  destruct (match_subject_tag subject) as [n|].
  - cbn [app]. etransitivity; [apply strip_length|]. rewrite length_skipn. lia.
  - apply strip_length.
Qed.

(** X4.  The image prompt is never longer than its fixed text (147
    characters), the subject and 400 characters of summary. *)
Theorem build_image_prompt_length (subject summary : str) :
  (length (build_image_prompt subject summary) <= 147 + length subject + 400)%nat.
Proof.
  unfold build_image_prompt. rewrite clean_summary_firstn, !length_app.
  pose proof (clean_subject_length subject).
  pose proof (firstn_le_length 400 (collapse_ws summary)).
  change (length PROMPT_STYLE) with 123%nat.
  change (length (u "Inspired by: ")) with 13%nat.
  change (length (u ". ")) with 2%nat.
  change (length (u "Summary: ")) with 9%nat.
  lia.
Qed.

(** ** extract_category *)

Lemma takewhile_app_stop {A} (p : A -> bool) body c rest :
  forallb p body = true -> p c = false -> takewhile p (body ++ c :: rest) = body.
Proof.
  intros Hb Hc. induction body as [|x body IH]; cbn [app takewhile].
  - now rewrite Hc.
  - cbn [forallb] in Hb. apply andb_prop in Hb as [-> Hb]. now rewrite IH.
Qed.

Lemma dropwhile_head_false {A} (p : A -> bool) l c r :
  dropwhile p l = c :: r -> p c = false.
Proof.
  induction l as [|x l IH]; [discriminate|]. cbn [dropwhile].
  destruct (p x) eqn:E; [exact IH|]. now intros [= <- _].
Qed.

(** X5.  The category of a subject is the trimmed text between its
    opening character and the first closing character after it, when that
    text is not empty; a subject of any other shape is uncategorized. *)
Theorem extract_category_tag (o c : char) (body rest : str) :
  is_open o = true -> is_category_close c = true ->
  body <> [] -> forallb category_char body = true ->
  extract_category (o :: body ++ c :: rest) = strip body
  /\ (forall subject, category_tagged subject \/ extract_category subject = UNCATEGORIZED).
Proof.
  intros Ho Hc Hne Hb. split.
  - unfold extract_category. rewrite Ho. cbv zeta.
    assert (Hc' : category_char c = false) by (unfold category_char; now rewrite Hc).
    fold category_char. rewrite (takewhile_app_stop _ _ _ rest Hb Hc').
    assert (Es : skipn (length body) (body ++ c :: rest) = c :: rest).
    { replace (length body) with (length body + 0)%nat by lia.
      now rewrite skipn_length_app. }
    destruct body as [|b body']; [congruence|]. now rewrite Es.
  - intros [|o' r]; [now right|]. unfold extract_category.
    destruct (is_open o') eqn:Ho'; [|now right]. cbv zeta. fold category_char.
    pose proof (skipn_takewhile category_char r) as Es.
    pose proof (takewhile_dropwhile category_char r) as Et.
    pose proof (takewhile_all category_char r) as Ha.
    destruct (takewhile category_char r) as [|b g]; [now right|]. rewrite Es.
    destruct (dropwhile category_char r) as [|c' rest'] eqn:Ed; [now right|].
    left. exists o', (b :: g), c', rest'. split; [|split; [exact Ho'|split; [|split]]].
    + now rewrite Et.
    + apply dropwhile_head_false in Ed. unfold category_char in Ed.
      now apply negb_false_iff in Ed.
    + discriminate.
    + exact Ha.
Qed.

Lemma extract_category_tag_witness :
  extract_category (0x3010 :: u " Tech " ++ 0xff09 :: u " Big news") = strip (u " Tech ")
  /\ (forall subject, category_tagged subject \/ extract_category subject = UNCATEGORIZED).
Proof.
  apply (extract_category_tag 0x3010 0xff09 (u " Tech ") (u " Big news"));
    [reflexivity | reflexivity | discriminate | reflexivity].
Defined.

(** ** html.escape *)

Lemma html_escape_cons c s :
  html_escape (c :: s) = html_escape [c] ++ html_escape s.
Proof. unfold html_escape. cbn [flat_map]. now rewrite app_nil_r. Qed.

(** Escaped text has no angle bracket and no quote left, whatever the
    text was. *)
Lemma html_escape_no_markup (s : str) :
  existsb is_markup_char (html_escape s) = false.
Proof.
  induction s as [|c s IH]; [reflexivity|].
  rewrite html_escape_cons, existsb_app, IH, orb_false_r.
  unfold html_escape. cbn [flat_map]. rewrite app_nil_r.
  destruct (N.eqb_spec c 38); [reflexivity|].
  destruct (N.eqb_spec c 60); [reflexivity|].
  destruct (N.eqb_spec c 62); [reflexivity|].
  destruct (N.eqb_spec c 34); [reflexivity|].
  destruct (N.eqb_spec c 39); [reflexivity|].
  cbn [existsb]. unfold is_markup_char. rewrite orb_false_r.
  repeat (apply orb_false_intro); now apply N.eqb_neq.
Qed.

Lemma html_escape_one c :
  html_escape [c]
  = if c =? 38 then [38; 97; 109; 112; 59]
    else if c =? 60 then [38; 108; 116; 59]
    else if c =? 62 then [38; 103; 116; 59]
    else if c =? 34 then [38; 113; 117; 111; 116; 59]
    else if c =? 39 then [38; 35; 120; 50; 55; 59]
    else [c].
Proof.
  unfold html_escape. cbn [flat_map]. rewrite app_nil_r.
  repeat match goal with |- context [?a =? ?b] => destruct (a =? b) end; reflexivity.
Qed.

Ltac escape_class x :=
  destruct (N.eqb_spec x 38);
    [|destruct (N.eqb_spec x 60);
       [|destruct (N.eqb_spec x 62);
          [|destruct (N.eqb_spec x 34); [|destruct (N.eqb_spec x 39)]]]].

(** Escaping loses nothing: two texts with the same escaped form are
    the same text. *)
Lemma html_escape_injective (s t : str) :
  html_escape s = html_escape t -> s = t.
Proof.
  revert t. induction s as [|c s IH]; intros [|d t].
  - reflexivity.
  - rewrite (html_escape_cons d), html_escape_one. intros E. exfalso. revert E.
    escape_class d; discriminate.
  - rewrite (html_escape_cons c), html_escape_one. intros E. exfalso. revert E.
    escape_class c; discriminate.
  - rewrite (html_escape_cons c), (html_escape_cons d), !html_escape_one.
    escape_class c; escape_class d; cbn [app]; intros E;
      try discriminate E; injection E as E; subst;
      try congruence; try (f_equal; now apply IH).
Qed.

(** ** build_thumb_html *)

(** X6.  For an entry with an image the thumbnail is an [img] element
    whose [src] value has no quote and no angle bracket in it, whatever
    the path; nothing is raised. *)
Theorem build_thumb_html_img (setup : Setup) (image_rel_path subject : str) :
  truthy image_rel_path = true ->
  exists src,
    build_thumb_html setup image_rel_path subject
    = Ok (u "<img class=" ++ BQ ++ u "thumb" ++ BQ ++ u " src=" ++ BQ
          ++ src ++ BQ ++ u " alt=" ++ BQ ++ BQ ++ u ">")
    /\ existsb is_markup_char src = false.
Proof.
  intros Hp. exists (html_escape image_rel_path). unfold build_thumb_html.
  rewrite Hp. split; [reflexivity|apply html_escape_no_markup].
Qed.

Lemma build_thumb_html_img_witness :
  exists src,
    build_thumb_html (sample_setup json_reply) (u "images/a<b>.png") (u "Subject")
    = Ok (u "<img class=" ++ BQ ++ u "thumb" ++ BQ ++ u " src=" ++ BQ
          ++ src ++ BQ ++ u " alt=" ++ BQ ++ BQ ++ u ">")
    /\ existsb is_markup_char src = false.
Proof. apply build_thumb_html_img. reflexivity. Defined.

(** X7.  Thumbnails of different images differ: the element built for a
    path determines the path. *)
Theorem build_thumb_html_injective (setup : Setup) (path1 path2 subject1 subject2 : str) :
  truthy path1 = true -> truthy path2 = true ->
  build_thumb_html setup path1 subject1 = build_thumb_html setup path2 subject2 ->
  path1 = path2.
Proof.
  intros H1 H2. unfold build_thumb_html. rewrite H1, H2. intros [= E].
  apply html_escape_injective.
  repeat (apply app_inv_head in E). now apply app_inv_tail in E.
Qed.

Lemma build_thumb_html_injective_witness :
  build_thumb_html (sample_setup json_reply) (u "images/a.png") (u "One")
  = build_thumb_html (sample_setup json_reply) (u "images/a.png") (u "Two")
  /\ u "images/a.png" = u "images/a.png".
Proof.
  split; [reflexivity|].
  apply (build_thumb_html_injective (sample_setup json_reply) (u "images/a.png")
           (u "images/a.png") (u "One") (u "Two")); reflexivity.
Defined.

(** ** decode_body: padding and errors *)

(** The data characters of a body take the decoder to a state that does
    not depend on what follows them. *)
Lemma a2b_base64_loop_run body q l out :
  forallb is_b64url_char body = true -> q < 4 ->
  exists l' out', forall rest p,
    a2b_base64_loop (List.map urlsafe_translate body ++ rest) q l p out
    = a2b_base64_loop rest ((q + N.of_nat (length body)) mod 4) l'
        (match body with [] => p | _ => 0 end) out'.
Proof.
  revert q l out. induction body as [|c body IH]; intros q l out Hb Hq.
  - exists l, out. intros rest p. cbn [List.map app length]. rewrite N.add_0_r.
    now rewrite N.mod_small.
  - cbn [forallb] in Hb. apply andb_prop in Hb as [Hc Hb].
    destruct (b64url_char_value c Hc) as (_ & Hpad & v & Hv).
    assert (Hq' : q = 0 \/ q = 1 \/ q = 2 \/ q = 3) by lia.
    assert (Step : exists q1 l1 out1, q1 = (q + 1) mod 4 /\ forall rest p,
              a2b_base64_loop (List.map urlsafe_translate (c :: body) ++ rest) q l p out
              = a2b_base64_loop (List.map urlsafe_translate body ++ rest) q1 l1 0 out1).
    { destruct Hq' as [ -> | [ -> | [ -> | -> ] ] ]; eexists _, _, _;
        (split; [reflexivity|]); intros rest p;
        cbn [List.map app a2b_base64_loop]; rewrite Hpad, Hv; reflexivity. }
    destruct Step as (q1 & l1 & out1 & -> & Step).
    destruct (IH ((q + 1) mod 4) l1 out1 Hb) as (l' & out' & E).
    { apply N.mod_lt. lia. }
    exists l', out'. intros rest p. rewrite Step, E, <- quad_step.
    cbn [length]. now destruct body.
Qed.

Lemma a2b_base64_loop_pads_short m l p out :
  a2b_base64_loop (repeat BASE64_PAD m) 1 l p out = Raise BinasciiError.
Proof. induction m as [|m IH]; [reflexivity|exact IH]. Qed.

(** Two paddings that both complete the last group give the same result. *)
Lemma a2b_base64_loop_pads_same q l out m1 m2 :
  q < 4 -> (q + N.of_nat m1) mod 4 = 0 -> (q + N.of_nat m2) mod 4 = 0 ->
  a2b_base64_loop (repeat BASE64_PAD m1) q l 0 out
  = a2b_base64_loop (repeat BASE64_PAD m2) q l 0 out.
Proof.
  intros Hq H1 H2.
  assert (Hq' : q = 0 \/ q = 1 \/ q = 2 \/ q = 3) by lia.
  destruct Hq' as [ -> | [ -> | [ -> | -> ] ] ].
  - now rewrite !a2b_base64_loop_pads by now left.
  - now rewrite !a2b_base64_loop_pads_short.
  - assert (2 <= m1 /\ 2 <= m2)%nat as [A B].
    { split; [destruct m1 as [|[|?]]|destruct m2 as [|[|?]]]; try lia; discriminate. }
    rewrite !a2b_base64_loop_pads; auto.
  - assert (1 <= m1 /\ 1 <= m2)%nat as [A B].
    { split; [destruct m1|destruct m2]; try lia; discriminate. }
    rewrite !a2b_base64_loop_pads; auto.
Qed.

Lemma urlsafe_b64decode_pads body :
  forallb is_b64url_char body = true ->
  exists l out, forall m,
    urlsafe_b64decode (body ++ repeat BASE64_PAD m)
    = a2b_base64_loop (repeat BASE64_PAD m) (N.of_nat (length body) mod 4) l 0 out.
Proof.
  intros Hb.
  destruct (a2b_base64_loop_run body 0 0 [] Hb ltac:(lia)) as (l & out & E).
  exists l, out. intros m. unfold urlsafe_b64decode, a2b_base64.
  rewrite forallb_app, (ascii_b64url _ Hb), ascii_pads. cbn [andb].
  rewrite List.map_app, map_translate_pads, E, N.add_0_l. now destruct body.
Qed.

Lemma missing_padding n : (N.of_nat n + N.of_nat (Z.to_nat ((- Z.of_nat n) mod 4))) mod 4 = 0.
Proof.
  pose proof (Z.mod_pos_bound (- Z.of_nat n) 4 ltac:(lia)) as Hm.
  apply N2Z.inj. rewrite N2Z.inj_mod, N2Z.inj_add, !nat_N_Z, Z2Nat.id by lia.
  rewrite Zplus_mod_idemp_r. replace (Z.of_nat n + - Z.of_nat n)%Z with 0%Z by lia.
  reflexivity.
Qed.

(** X8.  Padding already present makes no difference: for a body over the
    base64url alphabet, any number of [=] after it leaves the result as it
    is, the decoded text or the exception. *)
Theorem decode_body_padding (body : str) (k : nat) :
  forallb is_b64url_char body = true ->
  decode_body (body ++ repeat BASE64_PAD k) = decode_body body.
Proof.
  intros Hb. destruct (urlsafe_b64decode_pads body Hb) as (l & out & E).
  unfold decode_body. cbv zeta.
  destruct (truthy body) eqn:Tb.
  - assert (truthy (body ++ repeat BASE64_PAD k) = true) as ->
      by (destruct body; [discriminate|reflexivity]).
    cbn [negb]. rewrite <- app_assoc, <- repeat_app, !E. unfold len.
    rewrite length_app, repeat_length.
    f_equal. apply a2b_base64_loop_pads_same.
    + apply N.mod_lt. lia.
    + rewrite N.Div0.add_mod_idemp_l. rewrite Nat2N.inj_add, N.add_assoc.
      rewrite <- Nat2N.inj_add. apply missing_padding.
    + rewrite N.Div0.add_mod_idemp_l. apply missing_padding.
  - destruct body; [|discriminate]. cbn [app negb].
    destruct k as [|k]; [reflexivity|].
    cbn [repeat truthy negb]. unfold urlsafe_b64decode.
    change (BASE64_PAD :: repeat BASE64_PAD k) with (repeat BASE64_PAD (S k)).
    rewrite <- repeat_app, ascii_pads, map_translate_pads. unfold a2b_base64.
    now rewrite a2b_base64_loop_pads by now left.
Qed.

Lemma decode_body_padding_witness :
  decode_body (u "SGk" ++ repeat BASE64_PAD 5) = decode_body (u "SGk").
Proof. apply decode_body_padding. reflexivity. Defined.

(** X9.  A body of 4k+1 alphabet characters cannot be decoded, with or
    without padding: [binascii.Error] leaves the function. *)
Theorem decode_body_short_group (body : str) (k : nat) :
  forallb is_b64url_char body = true ->
  (length body mod 4 = 1)%nat ->
  decode_body (body ++ repeat BASE64_PAD k) = Raise BinasciiError.
Proof.
  intros Hb Hlen. destruct (urlsafe_b64decode_pads body Hb) as (l & out & E).
  unfold decode_body. cbv zeta.
  assert (truthy (body ++ repeat BASE64_PAD k) = true) as ->
    by (destruct body; [discriminate|reflexivity]).
  cbn [negb]. rewrite <- app_assoc, <- repeat_app, E.
  change 4 with (N.of_nat 4). rewrite <- Nat2N.inj_mod, Hlen.
  now rewrite a2b_base64_loop_pads_short.
Qed.

Lemma decode_body_short_group_witness :
  decode_body (u "SGkhQ" ++ repeat BASE64_PAD 3) = Raise BinasciiError.
Proof. apply decode_body_short_group; reflexivity. Defined.

(** X10.  A character outside ASCII anywhere in the data makes the
    decoding raise [ValueError]. *)
Theorem decode_body_non_ascii (data : str) :
  forallb is_ascii data = false -> decode_body data = Raise ValueError.
Proof.
  intros Ha. unfold decode_body, urlsafe_b64decode. cbv zeta.
  destruct data as [|c data]; [discriminate|]. cbn [truthy negb].
  now rewrite forallb_app, Ha.
Qed.

Lemma decode_body_non_ascii_witness :
  decode_body (u "SG" ++ [0x4e2d]) = Raise ValueError.
Proof. apply decode_body_non_ascii. reflexivity. Defined.

(** ** decode_body: what the decoded text is made of *)

Lemma is_scalar_value_intro c :
  c < 0xD800 \/ (0xE000 <= c /\ c < 0x110000) -> is_scalar_value c = true.
Proof.
  unfold is_scalar_value. intros [H|[H1 H2]].
  - apply N.ltb_lt in H. now rewrite H.
  - apply N.leb_le in H1. apply N.ltb_lt in H2. rewrite H1, H2. apply orb_true_r.
Qed.

Lemma is_continuation_range b : is_continuation b = true -> 0x80 <= b /\ b < 0xC0.
Proof.
  unfold is_continuation. intros H. apply andb_prop in H as [H1 H2].
  apply N.leb_le in H1. apply N.ltb_lt in H2. now split.
Qed.

Ltac utf8_tail IH :=
  apply IH; cbn [length] in *; lia.

Ltac utf8_value IH :=
  cbn [forallb]; apply andb_true_intro; split;
    [ apply is_scalar_value_intro; rewrite ?N.shiftl_mul_pow2;
      change (2 ^ 6) with 64; change (2 ^ 12) with 4096; change (2 ^ 18) with 262144; lia
    | utf8_tail IH ].

(** Whatever the bytes, the lossy decoder yields Unicode scalar values
    only: no surrogate, nothing beyond U+10FFFF. *)
Lemma utf8_decode_ignore_scalar n :
  forall s, (length s <= n)%nat ->
  forallb is_scalar_value (utf8_decode_ignore s) = true.
Proof.
  induction n as [|n IH]; intros s Hlen.
  { destruct s; [reflexivity|cbn [length] in Hlen; lia]. }
  destruct s as [|ch r1]; [reflexivity|]. cbn [utf8_decode_ignore].
  destruct (N.ltb_spec ch 0x80) as [A1|A1]; [utf8_value IH|].
  destruct (N.ltb_spec ch 0xE0) as [A2|A2].
  { destruct (N.ltb_spec ch 0xC2) as [A3|A3]; [utf8_tail IH|].
    destruct r1 as [|ch2 r2]; [reflexivity|].
    destruct (is_continuation ch2) eqn:C2; cbn [negb]; [|utf8_tail IH].
    apply is_continuation_range in C2. utf8_value IH. }
  destruct (N.ltb_spec ch 0xF0) as [A3|A3].
  { destruct r1 as [|ch2 r2]; [reflexivity|].
    destruct (is_continuation ch2) eqn:C2; cbn [negb orb]; [|utf8_tail IH].
    apply is_continuation_range in C2.
    destruct (N.ltb_spec ch2 0xA0) as [B|B];
      [destruct (N.eqb_spec ch 0xE0) as [B'|B']|destruct (N.eqb_spec ch 0xED) as [B'|B']];
      try utf8_tail IH.
    all: destruct r2 as [|ch3 r3]; [reflexivity|].
    all: destruct (is_continuation ch3) eqn:C3; cbn [negb]; [|utf8_tail IH].
    all: apply is_continuation_range in C3; utf8_value IH. }
  destruct (N.ltb_spec ch 0xF5) as [A4|A4]; [|utf8_tail IH].
  destruct r1 as [|ch2 r2]; [reflexivity|].
  destruct (is_continuation ch2) eqn:C2; cbn [negb orb]; [|utf8_tail IH].
  apply is_continuation_range in C2.
  destruct (N.ltb_spec ch2 0x90) as [B|B];
    [destruct (N.eqb_spec ch 0xF0) as [B'|B']|destruct (N.eqb_spec ch 0xF4) as [B'|B']];
    try utf8_tail IH.
  all: destruct r2 as [|ch3 r3]; [reflexivity|].
  all: destruct (is_continuation ch3) eqn:C3; cbn [negb]; [|utf8_tail IH].
  all: destruct r3 as [|ch4 r4]; [reflexivity|].
  all: destruct (is_continuation ch4) eqn:C4; cbn [negb]; [|utf8_tail IH].
  all: apply is_continuation_range in C3, C4; utf8_value IH.
Qed.

(** X11.  The text [decode_body] returns consists of Unicode scalar
    values only, whatever bytes the body encodes: the lossy UTF-8 decoding
    lets no surrogate and no overlong or out-of-range sequence through. *)
Theorem decode_body_scalar (data s : str) :
  decode_body data = Ok s -> forallb is_scalar_value s = true.
Proof.
  unfold decode_body. destruct (negb (truthy data)); [now intros [= <-]|].
  cbv zeta. destruct (urlsafe_b64decode _) as [b|e]; [|discriminate].
  intros [= <-]. now apply (utf8_decode_ignore_scalar (length b)).
Qed.

Lemma decode_body_scalar_witness :
  forallb is_scalar_value [0x4f60; 0x597d] = true.
Proof. apply (decode_body_scalar (u "5L2g5aW97aCA")). vm_compute. reflexivity. Defined.

(** Bytes below 0x80 decode to themselves. *)
Lemma utf8_decode_ignore_ascii (s : bytes) :
  forallb is_ascii s = true -> utf8_decode_ignore s = s.
Proof.
  induction s as [|c s IH]; [reflexivity|]. cbn [forallb utf8_decode_ignore].
  intros H. apply andb_prop in H as [Hc Hs]. unfold is_ascii in Hc.
  rewrite Hc. now rewrite IH.
Qed.

Lemma utf8_decode_ignore_ascii_witness : utf8_decode_ignore (u "Hi") = u "Hi".
Proof. apply utf8_decode_ignore_ascii. reflexivity. Defined.

(** ** clean_html_to_text and extract_text_from_payload *)

Lemma strip_strip s : strip (strip s) = strip s.
Proof. apply strip_id; [apply strip_head_ok|apply strip_last_ok]. Qed.

Lemma re_sub_unmatched (m : str -> option nat) (repl : str) (p : char -> bool) s :
  (forall c r, p c = true -> m (c :: r) = None) ->
  forallb p s = true -> re_sub m repl s = s.
Proof.
  intros Hm. unfold re_sub. induction s as [|c s IH]; [reflexivity|].
  cbn [forallb re_sub_from]. intros H. apply andb_prop in H as [Hc Hs].
  now rewrite (Hm c s Hc), IH.
Qed.

Lemma match_element_not_lt w close_tag c r :
  not_lt c = true -> match_element (60 :: w) close_tag (c :: r) = None.
Proof.
  unfold not_lt, match_element. intros Hc. apply negb_true_iff in Hc.
  cbn [ci_prefix]. unfold ci_eq. now rewrite Hc.
Qed.

Lemma match_any_tag_not_lt c r : not_lt c = true -> match_any_tag (c :: r) = None.
Proof.
  unfold not_lt, match_any_tag. intros Hc. apply negb_true_iff in Hc. now rewrite Hc.
Qed.

Lemma strip_markup_tagless s : forallb not_lt s = true -> strip_markup s = s.
Proof.
  intros Hs. unfold strip_markup. cbv zeta.
  rewrite (re_sub_unmatched (match_element (u "<script") (u "</script>")) _ not_lt s);
    [|intros c r; apply (match_element_not_lt (u "script"))|exact Hs].
  rewrite (re_sub_unmatched (match_element (u "<style") (u "</style>")) _ not_lt s);
    [|intros c r; apply (match_element_not_lt (u "style"))|exact Hs].
  now apply (re_sub_unmatched _ _ not_lt); [apply match_any_tag_not_lt|].
Qed.

Lemma reached_leaves_unfold m d ps :
  reached_leaves (MkPart m d ps) =
  if str_eqb m (u "text/plain") then [PlainLeaf d]
  else if str_eqb m (u "text/html") then [HtmlLeaf d]
  else reached_leaves_parts ps.
Proof. reflexivity. Qed.

Section ReachedBodies.
Context `{PyLib}.

Lemma clean_html_to_text_collapse raw_html t :
  clean_html_to_text raw_html = Ok t -> exists s, t = collapse_ws s.
Proof.
  unfold clean_html_to_text. cbv zeta.
  destruct (html_unescape (strip_markup raw_html)) as [s|e]; [|discriminate].
  intros [= <-]. now exists s.
Qed.

(** X12.  Text that [clean_html_to_text] returns has single spaces as its
    only whitespace and no blank at either end, so that [normalize_text]
    has nothing left to do with it but to cut it. *)
Theorem clean_html_to_text_normal (raw_html t : str) :
  clean_html_to_text raw_html = Ok t ->
  spaced false t = true
  /\ strip t = t
  /\ forall n, (len t <= n)%Z -> normalize_text t n = t.
Proof.
  intros E. apply clean_html_to_text_collapse in E as [s ->].
  split; [apply collapse_ws_spaced|]. split; [apply strip_strip|].
  intros n Hn. rewrite normalize_text_within; rewrite collapse_ws_idem; auto.
Qed.

(** X13.  HTML text without any [<] loses no character to the three
    tag-removing substitutions: it is unescaped and whitespace-collapsed,
    nothing else. *)
Theorem clean_html_to_text_tagless (raw_html : str) :
  forallb not_lt raw_html = true ->
  clean_html_to_text raw_html = (s ← html_unescape raw_html; Ok (collapse_ws s)).
Proof.
  intros Hs. unfold clean_html_to_text. cbv zeta.
  now rewrite (strip_markup_tagless _ Hs).
Qed.

(** X14.  Only a [text/plain] part is returned as decoded: the text
    extracted from a part of any other type has no whitespace at either
    end. *)
Theorem extract_text_trimmed (m d : str) (ps : list Part) (t : str) :
  m <> u "text/plain" ->
  extract_text_from_payload (MkPart m d ps) = Ok t -> strip t = t.
Proof.
  intros Hm. rewrite extract_unfold. unfold str_eqb at 1.
  rewrite (bool_decide_eq_false_2 _ Hm).
  destruct (str_eqb m (u "text/html")).
  - destruct (decode_body d) as [s|e]; [|discriminate]. cbn. intros E.
    apply clean_html_to_text_collapse in E as [s' ->]. apply strip_strip.
  - destruct (extract_parts ps) as [texts|e]; [|discriminate]. intros [= <-].
    apply strip_strip.
Qed.

Lemma raised_read_leaves_app a b :
  raised (read_leaves (a ++ b))
  = match raised (read_leaves a) with Some e => Some e | None => raised (read_leaves b) end.
Proof.
  induction a as [|l a IH]; [reflexivity|]. cbn [app read_leaves].
  destruct (read_leaf l) as [x|e]; [|reflexivity]. cbn.
  cbn in IH. destruct (read_leaves (a ++ b)) as [r|e], (read_leaves a) as [r'|e'];
    cbn in *; congruence.
Qed.

Lemma raised_extract_parts ps :
  Forall (fun p => raised (extract_text_from_payload p)
                   = raised (read_leaves (reached_leaves p))) ps ->
  raised (extract_parts ps) = raised (read_leaves (reached_leaves_parts ps)).
Proof.
  induction 1 as [|p ps Hp _ IH]; [reflexivity|].
  cbn [extract_parts reached_leaves_parts]. rewrite raised_read_leaves_app, <- Hp, <- IH.
  destruct (extract_text_from_payload p) as [t|e]; [|reflexivity]. cbn.
  now destruct (extract_parts ps).
Qed.

(** X15.  The extractor raises exactly when reading one of the parts it
    reaches raises -- the body of a [text/plain] or [text/html] part that
    is not below another such part cannot be decoded, or [html.unescape]
    raises on the decoded body of such a [text/html] part -- and the
    exception is the first one in document order.  Containers add no
    exception of their own, and bodies of other parts are never looked
    at. *)
Theorem extract_text_raises (payload : Part) :
  raised (extract_text_from_payload payload)
  = raised (read_leaves (reached_leaves payload)).
Proof.
  induction payload as [m d ps IH] using Part_tree_ind.
  rewrite extract_unfold, reached_leaves_unfold.
  destruct (str_eqb m (u "text/plain")).
  - cbn [read_leaves read_leaf]. now destruct (decode_body d).
  - destruct (str_eqb m (u "text/html")).
    + cbn [read_leaves read_leaf]. destruct (decode_body d) as [s|e]; [|reflexivity].
      cbn. now destruct (clean_html_to_text s).
    + rewrite <- (raised_extract_parts ps IH). now destruct (extract_parts ps).
Qed.

End ReachedBodies.

Lemma clean_html_to_text_normal_witness :
  spaced false (u "a b") = true
  /\ strip (u "a b") = u "a b"
  /\ forall n, (len (u "a b") <= n)%Z -> normalize_text (u "a b") n = u "a b".
Proof.
  apply (@clean_html_to_text_normal sample_lib (u " <b>a</b>  b ")).
  vm_compute. reflexivity.
Defined.

Lemma clean_html_to_text_tagless_witness :
  @clean_html_to_text sample_lib (u " a >  b ")
  = (s ← @html_unescape sample_lib (u " a >  b "); Ok (collapse_ws s)).
Proof. apply (@clean_html_to_text_tagless sample_lib). reflexivity. Defined.

Lemma extract_text_trimmed_witness : strip (u "a") = u "a".
Proof.
  apply (@extract_text_trimmed sample_lib (u "text/html") (u "IDxiPmE8L2I-") []).
  - discriminate.
  - vm_compute. reflexivity.
Defined.

(** ** gemini_translate_and_summarize: every outcome of the parser *)



Section ParserOutcomes.
Context `{PyLib}.





End ParserOutcomes.


(** ** gemini_translate_and_summarize: candidates and requests *)

Lemma fold_parts_text ps out :
  fold_left (fun acc part => acc ++ default [] part) ps out
  = out ++ concat (List.map (default (@nil N)) ps).
Proof.
  revert out. induction ps as [|p ps IH]; intros out; cbn [fold_left List.map concat].
  - now rewrite app_nil_r.
  - now rewrite IH, <- app_assoc.
Qed.

Lemma collect_candidates_text cs out :
  collect_candidates cs out
  = if existsb is_safety_blocked cs then None else Some (out ++ answer_text cs).
Proof.
  revert out. induction cs as [|c cs IH]; intros out.
  - cbn. now rewrite app_nil_r.
  - cbn [collect_candidates existsb]. fold (is_safety_blocked c).
    destruct (is_safety_blocked c); [reflexivity|]. cbn [orb].
    rewrite IH, fold_parts_text. destruct (existsb is_safety_blocked cs); [reflexivity|].
    unfold answer_text. cbn [List.map concat]. fold (candidate_text c).
    now rewrite <- app_assoc.
Qed.

Lemma env_required e name d v :
  env e name d true = Raise v -> v = SystemExit (u "Missing required env var: " ++ name).
Proof. unfold env. cbv zeta. destruct (_ && _); now intros [= <-]. Qed.

Section InvokerOutcomes.
Context `{PyLib}.

(** X18.  With a key and an HTTP 200 reply, one safety-blocked candidate
    anywhere among the candidates gives the degraded safety result,
    whatever the other candidates hold; with none, the answer that is
    parsed is the text of all parts of all candidates, in order. *)
Theorem gemini_outcome (setup : Setup) (text key : str) (w : World) :
  env (environ setup) (u "GEMINI_API_KEY") None true = Ok key ->
  text_status_code (text_reply setup w text) = 200%Z ->
  fst (gemini_translate_and_summarize setup text w)
  = if existsb is_safety_blocked (candidates (text_reply setup w text))
    then Ok (degraded text SUMMARY_SAFETY)
    else parse_model_output text (answer_text (candidates (text_reply setup w text))).
Proof.
  intros Hkey Hst.
  unfold gemini_translate_and_summarize, io_bind, lift. rewrite Hkey.
  destruct (env_optional (environ setup) (u "GEMINI_TEXT_MODEL")
              (Some (u "gemini-2.5-flash"))) as [model ->].
  cbv beta iota zeta. fold (text_reply setup w text).
  rewrite Hst, collect_candidates_text. cbn [Z.eqb Pos.eqb negb app].
  now destruct (existsb _ _).
Qed.

(** X19.  The invoker never touches the files or the image requests.
    Without a usable [GEMINI_API_KEY] it raises [SystemExit] before any
    request is sent; with one it sends exactly one request, the fixed
    prompt followed by the text, and a reply other than HTTP 200 makes
    it raise [SystemExit]. *)
Theorem gemini_request_accounting (setup : Setup) (text : str) (w : World)
    (r : result json) (w' : World) :
  gemini_translate_and_summarize setup text w = (r, w') ->
  files w' = files w /\ image_requests w' = image_requests w
  /\ match env (environ setup) (u "GEMINI_API_KEY") None true with
     | Raise _ =>
         r = Raise (SystemExit (u "Missing required env var: GEMINI_API_KEY")) /\ w' = w
     | Ok _ =>
         text_requests w' = text_requests w ++ [TEXT_PROMPT ++ text]
         /\ (text_status_code (text_reply setup w text) <> 200%Z ->
             exists msg, r = Raise (SystemExit msg))
     end.
Proof.
  unfold gemini_translate_and_summarize, io_bind, lift.
  destruct (env (environ setup) (u "GEMINI_API_KEY") None true) as [key|e] eqn:Hkey.
  2:{ intros [= <- <-]. apply env_required in Hkey. subst e. now repeat split. }
  destruct (env_optional (environ setup) (u "GEMINI_TEXT_MODEL")
              (Some (u "gemini-2.5-flash"))) as [model ->].
  cbv beta iota zeta. fold (text_reply setup w text).
  destruct (Z.eqb_spec (text_status_code (text_reply setup w text)) 200) as [E|E];
    cbn [negb].
  - destruct (collect_candidates _ _); intros [= <- <-];
      cbn [files text_requests image_requests]; repeat split; intros; contradiction.
  - intros [= <- <-]. cbn [files text_requests image_requests]. repeat split.
    intros _. eexists. reflexivity.
Qed.

End InvokerOutcomes.

Lemma gemini_outcome_witness :
  fst (@gemini_translate_and_summarize sample_lib (sample_setup prose_reply)
         (u "Hello world") empty_world)
  = if existsb is_safety_blocked
         (candidates (text_reply (sample_setup prose_reply) empty_world (u "Hello world")))
    then Ok (degraded (u "Hello world") SUMMARY_SAFETY)
    else @parse_model_output sample_lib (u "Hello world")
           (answer_text
              (candidates (text_reply (sample_setup prose_reply) empty_world
                             (u "Hello world")))).
Proof.
  apply (@gemini_outcome sample_lib (sample_setup prose_reply) (u "Hello world") (u "key"));
    reflexivity.
Defined.

Lemma gemini_request_accounting_witness :
  exists r w',
    @gemini_translate_and_summarize sample_lib (sample_setup json_reply)
      (u "Hello world") empty_world = (r, w')
    /\ text_requests w' = [TEXT_PROMPT ++ u "Hello world"].
Proof.
  eexists _, _. split; [vm_compute; reflexivity|].
  edestruct (@gemini_request_accounting sample_lib (sample_setup json_reply)
               (u "Hello world") empty_world) as (_ & _ & Hreq);
    [vm_compute; reflexivity|].
  vm_compute in Hreq. vm_compute. exact (proj1 Hreq).
Defined.

(** ** The per-message loop: order, requests and sizes *)

Lemma normalize_text_length text n :
  (0 <= n)%Z -> (len (normalize_text text n) <= n + 9)%Z.
Proof.
  intros Hn. destruct (Z.le_gt_cases (len (collapse_ws text)) n) as [Hle|Hgt].
  - rewrite (normalize_text_within _ _ Hle). lia.
  - assert (Hgt' : (len (collapse_ws text) > n)%Z) by lia.
    rewrite (normalize_text_over _ _ Hgt'), (slice_to_nonneg _ _ Hn).
    unfold len in *. rewrite length_app, firstn_length_le by lia.
    change (length TRUNCATION_MARKER) with 9%nat. lia.
Qed.

Lemma normalize_value_length v n t :
  (0 <= n)%Z -> normalize_value v n = Ok t -> (len t <= n + 9)%Z.
Proof.
  intros Hn. destruct v; try discriminate. intros [= <-].
  now apply normalize_text_length.
Qed.

Lemma str_or_length a b k : (len a <= k)%Z -> (len b <= k)%Z -> (len (str_or a b) <= k)%Z.
Proof. unfold str_or. now destruct (truthy a). Qed.

Section LoopTrace.
Context `{PyLib}.

Lemma gemini_text_request setup text w ai w' :
  gemini_translate_and_summarize setup text w = (Ok ai, w') ->
  text_requests w' = text_requests w ++ [TEXT_PROMPT ++ text].
Proof.
  unfold gemini_translate_and_summarize, io_bind, lift.
  destruct (env (environ setup) (u "GEMINI_API_KEY") None true) as [key|e]; [|discriminate].
  destruct (env_optional (environ setup) (u "GEMINI_TEXT_MODEL")
              (Some (u "gemini-2.5-flash"))) as [model ->].
  cbv beta iota zeta. destruct (negb _); [discriminate|].
  destruct (collect_candidates _ _); now intros [= _ <-].
Qed.

Lemma process_message_none setup msg_id w w' :
  process_message setup msg_id w = (Ok None, w') -> w' = w.
Proof.
  unfold process_message, io_bind, lift, io_ret.
  intros Hrun. io_cases Hrun. now injection Hrun as <-.
Qed.

Lemma extract_source_truthy from_header :
  truthy (fst (extract_source from_header)) = true.
Proof.
  unfold extract_source. destruct (parseaddr from_header) as [name addr].
  cbn [fst]. now apply truthy_str_or.
Qed.

Lemma process_message_entry setup msg_id w e w' :
  process_message setup msg_id w = (Ok (Some e), w') ->
  entry_id e = msg_id /\ entry_bounded e
  /\ text_requests w' = text_requests w ++ [text_request_of e].
Proof.
  unfold process_message, io_bind, lift, io_ret.
  intros Hrun. io_cases Hrun. injection Hrun as <- <-.
  unfold entry_bounded, text_request_of.
  cbn [entry_id entry_subject entry_from source category original_text
       translated_text summary_zh_tw].
  repeat match goal with
    | E : normalize_value _ _ = Ok _ |- _ =>
        apply normalize_value_length in E; [|unfold DEFAULT_MAX_CHARS; lia]
    | E : gemini_translate_and_summarize _ _ _ = _ |- _ =>
        apply gemini_text_request in E
    | E : image_gate _ _ _ _ _ _ = _ |- _ =>
        apply image_gate_effects in E as (E & _)
    end.
  pose proof (fun t => normalize_text_length t 12000 ltac:(lia)) as Hraw.
  unfold DEFAULT_MAX_CHARS in *.
  split; [reflexivity|]. split; [|congruence].
  split; [apply truthy_str_or; reflexivity|].
  split; [apply extract_source_truthy|].
  split; [reflexivity|]. split; [reflexivity|].
  split; [apply Hraw|].
  split; apply str_or_length; try lia; try apply Hraw.
  change (len NO_SUMMARY) with 5%Z. lia.
Qed.

Lemma main_loop_acc setup ids entries0 w :
  main_loop setup ids entries0 w
  = match main_loop setup ids [] w with
    | (Ok new, w') => (Ok (entries0 ++ new), w')
    | (Raise e, w') => (Raise e, w')
    end.
Proof.
  revert entries0 w. induction ids as [|msg_id ids IH]; intros entries0 w.
  - cbn [main_loop]. unfold io_ret. now rewrite app_nil_r.
  - cbn [main_loop]. unfold io_bind.
    destruct (process_message setup msg_id w) as [[[e|]|x] w1]; [| |reflexivity].
    + rewrite (IH (entries0 ++ [e])), (IH ([] ++ [e])).
      destruct (main_loop setup ids [] w1) as [[new|x] w2]; [|reflexivity].
      now rewrite <- app_assoc.
    + apply IH.
Qed.

Lemma main_loop_trace setup ids w es w' :
  main_loop setup ids [] w = (Ok es, w') ->
  List.map entry_id es `sublist_of` ids
  /\ Forall entry_bounded es
  /\ text_requests w' = text_requests w ++ List.map text_request_of es.
Proof.
  revert w es. induction ids as [|msg_id ids IH]; intros w es.
  - cbn [main_loop]. unfold io_ret. intros [= <- <-]. cbn [List.map].
    rewrite app_nil_r. repeat split; constructor.
  - cbn [main_loop]. unfold io_bind at 1.
    destruct (process_message setup msg_id w) as [[[e|]|x] w1] eqn:E; [| |discriminate].
    + rewrite main_loop_acc.
      destruct (main_loop setup ids [] w1) as [[new|x] w2] eqn:E2; [|discriminate].
      intros [= <- <-]. destruct (IH _ _ E2) as (Hs & Hb & Ht).
      apply process_message_entry in E as (Hid & Hbe & Hte).
      cbn [app List.map]. rewrite Hid. split; [now apply sublist_skip|].
      split; [now constructor|].
      rewrite Ht, Hte, <- app_assoc. reflexivity.
    + intros E2. apply process_message_none in E. subst w1.
      destruct (IH _ _ E2) as (Hs & Hb & Ht).
      split; [now apply sublist_cons|]. now split.
Qed.

(** X20.  Running the loop over two lists of messages one after the
    other is running it over their concatenation: the records and the
    world of the first run are what the second starts from, and an
    exception in the first ends both. *)
Theorem main_loop_app (setup : Setup) (ids1 ids2 : list str) (entries : list Entry)
    (w : World) :
  main_loop setup (ids1 ++ ids2) entries w
  = (let* es := main_loop setup ids1 entries in main_loop setup ids2 es) w.
Proof.
  revert entries w. induction ids1 as [|msg_id ids1 IH]; intros entries w.
  - reflexivity.
  - cbn [app main_loop]. unfold io_bind.
    destruct (process_message setup msg_id w) as [[[e|]|x] w1]; [| |reflexivity].
    + rewrite IH. reflexivity.
    + rewrite IH. reflexivity.
Qed.

(** X21.  The loop only appends: the records it is given stay in front,
    and what it adds, the world it leaves and the exception it raises do
    not depend on them. *)
Theorem main_loop_accumulates (setup : Setup) (ids : list str) (entries : list Entry)
    (w : World) :
  main_loop setup ids entries w
  = match main_loop setup ids [] w with
    | (Ok new, w') => (Ok (entries ++ new), w')
    | (Raise e, w') => (Raise e, w')
    end.
Proof. apply main_loop_acc. Qed.

(** X22.  The records of a completed run are in the order of the message
    list, at most one per message and under its id, and the text
    collaborator got exactly one request per record, in the same order:
    the fixed prompt followed by the record's original text.  A skipped
    message sends none. *)
Theorem main_loop_order_and_requests (setup : Setup) (ids : list str) (w : World)
    (es : list Entry) (w' : World) :
  main_loop setup ids [] w = (Ok es, w') ->
  List.map entry_id es `sublist_of` ids
  /\ text_requests w' = text_requests w ++ List.map text_request_of es.
Proof. intros E. apply main_loop_trace in E as (Hs & _ & Ht). now split. Qed.

(** X23.  Every record of a completed run has a subject and a source
    that are not empty, its category and source are those computed from
    its subject and sender, and its three texts stay within 12009, 12009
    and 4009 characters. *)
Theorem main_loop_entries_bounded (setup : Setup) (ids : list str) (w : World)
    (es : list Entry) (w' : World) :
  main_loop setup ids [] w = (Ok es, w') -> Forall entry_bounded es.
Proof. intros E. now apply main_loop_trace in E as (_ & Hb & _). Qed.

End LoopTrace.

Lemma main_loop_order_and_requests_witness :
  exists es w',
    @main_loop sample_lib (sample_setup json_reply) [u "A"; u "B"] [] empty_world
    = (Ok es, w')
    /\ List.map entry_id es `sublist_of` [u "A"; u "B"]
    /\ text_requests w' = text_requests empty_world ++ List.map text_request_of es.
Proof.
  eexists _, _. split; [vm_compute; reflexivity|].
  eapply (@main_loop_order_and_requests sample_lib (sample_setup json_reply)
            [u "A"; u "B"] empty_world).
  vm_compute. reflexivity.
Defined.

Lemma main_loop_entries_bounded_witness :
  exists es w',
    @main_loop sample_lib (sample_setup json_reply) [u "A"; u "B"] [] empty_world
    = (Ok es, w')
    /\ Forall (@entry_bounded sample_lib) es.
Proof.
  eexists _, _. split; [vm_compute; reflexivity|].
  eapply (@main_loop_entries_bounded sample_lib (sample_setup json_reply)
            [u "A"; u "B"] empty_world).
  vm_compute. reflexivity.
Defined.

(** ** The per-message loop: images and files *)

Lemma generate_image_files setup prompt path w r w' :
  generate_image setup prompt path w = (r, w') ->
  files w' = files w \/ files w' = {[ path ]} ∪ files w.
Proof.
  unfold generate_image, io_bind, lift.
  destruct (env (environ setup) (u "GEMINI_API_KEY") None true) as [key|e].
  2:{ intros [= <- <-]. now left. }
  destruct (env_optional (environ setup) (u "GEMINI_IMAGE_MODEL")
              (Some (u "imagen-3.0-generate-002"))) as [model ->].
  destruct (env_optional (environ setup) (u "GEMINI_IMAGE_SIZE")
              (Some (u "1024x1024"))) as [size ->].
  cbv beta iota zeta. intros Hrun. io_cases Hrun;
    injection Hrun as <- <-; cbn [files]; auto.
Qed.

Lemma images_dir_ends setup : exists p, images_dir setup = p ++ u "images".
Proof.
  unfold images_dir. cbn [os_path_join].
  repeat match goal with
    | |- context [match rev ?x with _ => _ end] => destruct (rev x)
    | |- context [if ?c then _ else _] => destruct c
    end;
    rewrite ?app_assoc; eexists; reflexivity.
Qed.

Lemma image_path_relative setup msg_id :
  relative_id msg_id = true ->
  image_path setup msg_id = images_dir setup ++ [47] ++ msg_id ++ u ".png".
Proof.
  intros Hr. unfold image_path, image_name.
  destruct (images_dir_ends setup) as [p ->]. cbn [os_path_join].
  assert (Hn : match msg_id ++ u ".png" with
               | 47 :: _ => False | _ => True end).
  { destruct msg_id as [|c r]; [exact I|]. cbn [app]. unfold relative_id in Hr.
    destruct c as [|c]; [exact I|].
    repeat (destruct c as [c|c|]; try exact I); discriminate. }
  destruct (msg_id ++ u ".png") as [|c r] eqn:E.
  - now rewrite rev_app_distr.
  - rewrite rev_app_distr. cbn [rev app].
    destruct c as [|c]; [reflexivity|].
    repeat (destruct c as [c|c|]; try reflexivity). contradiction.
Qed.

(** X24.  Messages whose ids do not start with [/] get different image
    files: the path of the image determines the id. *)
Theorem image_path_injective (setup : Setup) (id1 id2 : str) :
  relative_id id1 = true -> relative_id id2 = true ->
  image_path setup id1 = image_path setup id2 -> id1 = id2.
Proof.
  intros H1 H2. rewrite (image_path_relative _ _ H1), (image_path_relative _ _ H2).
  intros E. apply app_inv_head in E. apply app_inv_head in E.
  now apply app_inv_tail in E.
Qed.

Lemma image_path_injective_witness :
  image_path (sample_setup json_reply) (u "18c") = u "/app/src/../public/images/18c.png"
  /\ u "18c" = u "18c".
Proof.
  split; [vm_compute; reflexivity|].
  apply (image_path_injective (sample_setup json_reply) (u "18c") (u "18c")); reflexivity.
Defined.

Lemma files_step (A B C P : gset (list N)) (p : list N) :
  B = A \/ B = {[ p ]} ∪ A -> B ⊆ C /\ C ⊆ B ∪ P ->
  A ⊆ C /\ C ⊆ A ∪ ({[ p ]} ∪ P).
Proof.
  intros [ -> | -> ] [H1 H2]; split; intros x Hx.
  - now apply H1.
  - apply H2 in Hx. apply elem_of_union in Hx as [Hx|Hx].
    + apply elem_of_union. now left.
    + apply elem_of_union. right. apply elem_of_union. now right.
  - apply H1. apply elem_of_union. now right.
  - apply H2 in Hx. apply elem_of_union in Hx as [Hx|Hx].
    + apply elem_of_union in Hx as [Hx|Hx].
      * apply elem_of_union. right. apply elem_of_union. now left.
      * apply elem_of_union. now left.
    + apply elem_of_union. right. apply elem_of_union. now right.
Qed.

Section LoopFiles.
Context `{PyLib}.

Lemma image_gate_files setup msg_id subject summary translated w r w' :
  image_gate setup msg_id subject summary translated w = (r, w') ->
  files w' = files w \/ files w' = {[ image_path setup msg_id ]} ∪ files w.
Proof.
  unfold image_gate, io_bind, io_ret, os_path_exists.
  destruct (enable_images setup); [|intros [= <- <-]; now left].
  destruct (bool_decide _); cbn [negb].
  - intros [= <- <-]. now left.
  - destruct (generate_image _ _ _ w) as [g wg] eqn:Eg.
    apply generate_image_files in Eg. destruct g; intros [= <- <-]; exact Eg.
Qed.

Lemma process_message_files setup msg_id w r w' :
  process_message setup msg_id w = (r, w') ->
  files w' = files w \/ files w' = {[ image_path setup msg_id ]} ∪ files w.
Proof.
  unfold process_message, io_bind, lift, io_ret.
  intros Hrun. io_cases Hrun; injection Hrun as <- <-; auto.
  all: repeat match goal with
    | E : gemini_translate_and_summarize _ _ _ = _ |- _ =>
        apply gemini_text_effects in E as [E _]
    | E : image_gate _ _ _ _ _ _ = _ |- _ => apply image_gate_files in E
    end.
  all: try (left; congruence).
  all: match goal with D : _ \/ _ |- _ => destruct D as [D|D] end.
  all: try (left; congruence).
  all: right; congruence.
Qed.

(** X25.  With image generation switched off the loop sends no image
    request and creates no file, however it ends. *)
Theorem main_loop_images_disabled (setup : Setup) (ids : list str) (entries : list Entry)
    (w : World) (r : result (list Entry)) (w' : World) :
  enable_images setup = false ->
  main_loop setup ids entries w = (r, w') ->
  image_requests w' = image_requests w /\ files w' = files w.
Proof.
  intros Hoff. revert entries w. induction ids as [|msg_id ids IH]; intros entries w.
  - cbn [main_loop]. unfold io_ret. now intros [= <- <-].
  - cbn [main_loop]. unfold io_bind at 1.
    destruct (process_message setup msg_id w) as [[o|x] w1] eqn:E.
    + apply process_message_effects in E as [[E1 E2]|(En & _)]; [|congruence].
      intros Hrun. apply IH in Hrun as [R1 R2]. split; congruence.
    + apply process_message_effects in E as [[E1 E2]|(En & _)]; [|congruence].
      now intros [= <- <-].
Qed.

(** X26.  The loop deletes no file, and the only files it creates are
    images of the messages it was given, however it ends. *)
Theorem main_loop_files (setup : Setup) (ids : list str) (entries : list Entry)
    (w : World) (r : result (list Entry)) (w' : World) :
  main_loop setup ids entries w = (r, w') ->
  files w ⊆ files w' /\ files w' ⊆ files w ∪ image_paths setup ids.
Proof.
  revert entries w. induction ids as [|msg_id ids IH]; intros entries w.
  - cbn [main_loop]. unfold io_ret. intros [= <- <-].
    split; [reflexivity|apply union_subseteq_l].
  - cbn [main_loop]. unfold io_bind at 1. unfold image_paths. cbn [List.map list_to_set].
    fold (image_paths setup ids).
    destruct (process_message setup msg_id w) as [[o|x] w1] eqn:E;
      apply process_message_files in E.
    + intros Hrun. apply IH in Hrun. now apply (files_step _ (files w1)).
    + intros [= <- <-]. apply (files_step _ (files w1)); [exact E|].
      split; [reflexivity|apply union_subseteq_l].
Qed.

End LoopFiles.

Lemma main_loop_images_disabled_witness :
  exists r w',
    @main_loop sample_lib (imageless_setup json_reply) [u "A"; u "B"] [] empty_world
    = (r, w')
    /\ image_requests w' = image_requests empty_world /\ files w' = files empty_world.
Proof.
  eexists _, _. split; [vm_compute; reflexivity|].
  eapply (@main_loop_images_disabled sample_lib (imageless_setup json_reply)
            [u "A"; u "B"] [] empty_world).
  - vm_compute. reflexivity.
  - vm_compute. reflexivity.
Defined.

Lemma main_loop_files_witness :
  exists r w',
    @main_loop sample_lib (sample_setup json_reply) [u "A"; u "B"] [] empty_world = (r, w')
    /\ files empty_world ⊆ files w'
    /\ files w' ⊆ files empty_world ∪ image_paths (sample_setup json_reply) [u "A"; u "B"].
Proof.
  eexists _, _. split; [vm_compute; reflexivity|].
  eapply (@main_loop_files sample_lib (sample_setup json_reply) [u "A"; u "B"] []
            empty_world).
  vm_compute. reflexivity.
Defined.

(** ** list_messages *)

Lemma append_ids_acc messages ids0 :
  append_ids messages ids0 = option_map (app ids0) (append_ids messages []).
Proof.
  revert ids0. induction messages as [|[id|] messages IH]; intros ids0;
    cbn [append_ids option_map].
  - now rewrite app_nil_r.
  - rewrite (IH (ids0 ++ [id])), (IH ([] ++ [id])).
    destruct (append_ids messages []) as [new|]; cbn [option_map]; [|reflexivity].
    now rewrite <- app_assoc.
  - reflexivity.
Qed.

Lemma page_ids_served resp ids ids0 :
  page_ids resp = Some ids ->
  gmail_get (page_status_code resp) (page_text resp) resp = Ok resp
  /\ append_ids (default [] (page_messages resp)) ids0 = Some (ids0 ++ ids).
Proof.
  unfold page_ids, gmail_get.
  destruct (page_status_code resp =? 200)%Z; [|discriminate]. intros E.
  split; [reflexivity|]. now rewrite append_ids_acc, E.
Qed.

Lemma list_messages_loop_chain server token chain :
  page_chain server token chain ->
  forall pages ids0,
    token <> Some [] -> (length chain <= pages)%nat ->
    list_messages_loop pages server token ids0 = Listed (ids0 ++ concat chain).
Proof.
  induction 1 as [token ids Hids Hlast|token ids next rest Hids Hnext Htrue _ IH];
    intros pages ids0 Htok Hlen.
  - destruct pages as [|pages]; [cbn [length] in Hlen; lia|].
    cbn [list_messages_loop concat]. rewrite app_nil_r.
    assert (Ep : match token with Some (c :: t) => Some (c :: t) | _ => None end = token)
      by (destruct token as [[|c t]|]; congruence).
    rewrite Ep. destruct (page_ids_served _ _ ids0 Hids) as [-> ->].
    destruct (nextPageToken (server token)) as [[|c t]|]; try reflexivity. discriminate.
  - destruct pages as [|pages]; [cbn [length] in Hlen; lia|].
    cbn [list_messages_loop concat].
    assert (Ep : match token with Some (c :: t) => Some (c :: t) | _ => None end = token)
      by (destruct token as [[|c t]|]; congruence).
    rewrite Ep. destruct (page_ids_served _ _ ids0 Hids) as [-> ->].
    rewrite Hnext. destruct next as [|c t]; [discriminate|].
    rewrite IH; [now rewrite <- app_assoc|discriminate|cbn [length] in Hlen; lia].
Qed.

(** X27.  When the collaborator serves a finite chain of pages, each with
    status 200 and an id for every message, [list_messages] returns, after
    one request per page, the ids of all pages in the order they were
    served.  The first request carries no page token. *)
Theorem list_messages_pages (server : option str -> MessagePage)
    (chain : list (list str)) (pages : nat) :
  page_chain server None chain -> (length chain <= pages)%nat ->
  list_messages pages server = Listed (concat chain).
Proof.
  intros Hc Hlen. unfold list_messages.
  now rewrite (list_messages_loop_chain _ _ _ Hc pages []).
Qed.

Lemma list_messages_pages_witness :
  list_messages 5 two_pages = Listed (concat [[u "18a"; u "18b"]; [u "18c"]]).
Proof.
  apply list_messages_pages; [|cbn; lia].
  eapply chain_next; [reflexivity|reflexivity|reflexivity|].
  apply chain_last; reflexivity.
Defined.

(** Once the loop of the model has ended -- with the ids or with an
    exception -- allowing it more requests changes nothing. *)
Lemma list_messages_settled (server : option str -> MessagePage) (pages pages' : nat) :
  list_messages pages server <> ListingUnfinished -> (pages <= pages')%nat ->
  list_messages pages' server = list_messages pages server.
Proof.
  unfold list_messages. generalize (@None (list N)) as token, (@nil (list N)) as ids.
  revert pages'. induction pages as [|pages IH]; intros pages' token ids Hend Hle.
  - now destruct Hend.
  - destruct pages' as [|pages']; [lia|]. cbn [list_messages_loop] in *.
    destruct (gmail_get _ _ _) as [data|e]; [|reflexivity].
    destruct (append_ids _ _) as [ids'|]; [|reflexivity].
    destruct (nextPageToken data) as [[|c t]|]; try reflexivity.
    apply IH; [exact Hend|lia].
Qed.

Lemma list_messages_loop_prefix server token chain last :
  page_prefix server token chain last ->
  forall pages ids0,
    token <> Some [] ->
    list_messages_loop (length chain + pages) server token ids0
    = list_messages_loop pages server last (ids0 ++ concat chain)
    /\ last <> Some [].
Proof.
  induction 1 as [token|token ids next rest last Hids Hnext Htrue _ IH];
    intros pages ids0 Htok.
  - cbn [length concat plus]. now rewrite app_nil_r.
  - cbn [length plus list_messages_loop concat].
    assert (Ep : match token with Some (c :: t) => Some (c :: t) | _ => None end = token)
      by (destruct token as [[|c t]|]; congruence).
    rewrite Ep. destruct (page_ids_served _ _ ids0 Hids) as [-> ->].
    rewrite Hnext. destruct next as [|c t]; [discriminate|].
    destruct (IH pages (ids0 ++ ids)) as [E Hl]; [discriminate|].
    split; [|exact Hl]. now rewrite E, <- app_assoc.
Qed.

(** X28.  A reply whose status is not 200 ends [list_messages] with the
    [SystemExit] of [gmail_get], on whichever page it comes: the ids of
    the pages served before it are not returned. *)
Theorem list_messages_page_error (server : option str -> MessagePage)
    (chain : list (list str)) (last : option str) (pages : nat) :
  page_prefix server None chain last ->
  page_status_code (server last) <> 200%Z ->
  (length chain < pages)%nat ->
  list_messages pages server = ListingRaised (SystemExit (gmail_error (server last))).
Proof.
  intros Hp Hst Hlen. unfold list_messages.
  replace pages with (length chain + S (pages - S (length chain)))%nat by lia.
  destruct (list_messages_loop_prefix _ _ _ _ Hp (S (pages - S (length chain))) [])
    as [-> Hl]; [discriminate|].
  cbn [list_messages_loop].
  assert (Ep : match last with Some (c :: t) => Some (c :: t) | _ => None end = last)
    by (destruct last as [[|c t]|]; congruence).
  rewrite Ep. unfold gmail_get.
  destruct (Z.eqb_spec (page_status_code (server last)) 200); [contradiction|].
  reflexivity.
Qed.

Lemma list_messages_page_error_witness :
  list_messages 5 refused_pages
  = ListingRaised (SystemExit (gmail_error (refused_pages (Some (u "p2"))))).
Proof.
  apply (list_messages_page_error refused_pages [[u "18a"; u "18b"]] (Some (u "p2")) 5).
  - eapply prefix_cons; [reflexivity|reflexivity|reflexivity|apply prefix_nil].
  - discriminate.
  - cbn. lia.
Defined.

(** X29.  The loop has no exit but a page without a token and an
    exception: against a collaborator that names a next page on every
    page, no number of requests is enough. *)
Theorem list_messages_endless (server : option str -> MessagePage) (pages : nat) :
  (forall token, page_ids (server token) <> None
                 /\ truthy (default [] (nextPageToken (server token))) = true) ->
  list_messages pages server = ListingUnfinished.
Proof.
  intros Hs. unfold list_messages.
  generalize (@None (list N)) as token, (@nil (list N)) as ids.
  induction pages as [|pages IH]; intros token ids; [reflexivity|].
  cbn [list_messages_loop].
  destruct (Hs (match token with Some (c :: t) => Some (c :: t) | _ => None end))
    as [Hids Hnext].
  destruct (page_ids _) as [new|] eqn:E; [|congruence].
  destruct (page_ids_served _ _ ids E) as [-> ->].
  destruct (nextPageToken _) as [[|c t]|]; try discriminate. apply IH.
Qed.

Lemma list_messages_endless_witness : list_messages 1000 endless_pages = ListingUnfinished.
Proof. apply list_messages_endless. intros token. split; [discriminate|reflexivity]. Defined.

(** ** get_header *)

Section Headers.
Context `{PyLib}.

Lemma get_header_absent headers name :
  Forall (fun h => str_lower (fst h) <> str_lower name) headers ->
  get_header headers name = [].
Proof.
  induction 1 as [|[n v] headers Hn _ IH]; [reflexivity|].
  cbn [get_header]. unfold str_eqb. now rewrite (bool_decide_eq_false_2 _ Hn).
Qed.

(** X30.  A header is found whatever the case of its name, the first of
    several headers of the same name wins, and a name that no header has
    gives the empty string. *)
Theorem get_header_first_match (pre post : list (str * str)) (n v name : str) :
  Forall (fun h => str_lower (fst h) <> str_lower name) pre ->
  str_lower n = str_lower name ->
  get_header (pre ++ (n, v) :: post) name = v
  /\ get_header pre name = [].
Proof.
  intros Hpre Hn. split; [|now apply get_header_absent].
  induction Hpre as [|[n' v'] pre Hn' _ IH]; cbn [app get_header]; unfold str_eqb.
  - now rewrite (bool_decide_eq_true_2 _ Hn).
  - now rewrite (bool_decide_eq_false_2 _ Hn').
Qed.

End Headers.

Lemma get_header_first_match_witness :
  @get_header sample_lib
    ([(u "From", u "a@b.c")] ++ (u "SUBJECT", u "first") :: [(u "Subject", u "second")])
    (u "Subject") = u "first"
  /\ @get_header sample_lib [(u "From", u "a@b.c")] (u "Subject") = [].
Proof.
  apply (@get_header_first_match sample_lib).
  - constructor; [vm_compute; discriminate|constructor].
  - reflexivity.
Defined.
